(** * pycrostates.clustering: modified K-means, segmentation, reordering

    A shallow embedding of [pycrostates/clustering/clustering.py].

    NumPy arrays of float64 are lists (vectors) and lists of rows
    (matrices).  The arithmetic of the scalars is an interface, [Num],
    with two instances: IEEE binary64 ([PrimFloat], which evaluates the
    way NumPy does, NaN and infinities included) and the real numbers
    (the exact arithmetic the algorithm is designed in). *)

From Stdlib Require Import String Ascii.
From Stdlib Require Import List ZArith Lia Bool Arith PeanoNat.
From Stdlib Require Import Permutation Sorted.
From Stdlib Require Import Floats.
From Stdlib Require Import Reals Lra.
Import ListNotations.

Set Implicit Arguments.

(** ** Scalars *)

Class Num (F : Type) : Type := {
  fzero : F;
  fone : F;
  fadd : F -> F -> F;
  fsub : F -> F -> F;
  fmul : F -> F -> F;
  fdiv : F -> F -> F;
  fsqrt : F -> F;
  fabs : F -> F;
  fneg : F -> F;
  fltb : F -> F -> bool;
  fleb : F -> F -> bool;
  feqb : F -> F -> bool;
  of_Z : Z -> F;
  (* np.nan_to_num(x, posinf=0, neginf=0) on one scalar *)
  nan_to_num : F -> F
}.

(** float64 *)

Definition f64_of_Z (z : Z) : float :=
  match z with
  | Z0 => PrimFloat.zero
  | Zpos _ => PrimFloat.of_uint63 (Uint63.of_Z z)
  | Zneg p => PrimFloat.opp (PrimFloat.of_uint63 (Uint63.of_Z (Zpos p)))
  end.

Definition f64_nan_to_num (x : float) : float :=
  if PrimFloat.is_nan x then PrimFloat.zero
  else if PrimFloat.is_infinity x then PrimFloat.zero
  else x.

#[export] Instance Num_f64 : Num float := {|
  fzero := PrimFloat.zero;
  fone := PrimFloat.one;
  fadd := PrimFloat.add;
  fsub := PrimFloat.sub;
  fmul := PrimFloat.mul;
  fdiv := PrimFloat.div;
  fsqrt := PrimFloat.sqrt;
  fabs := PrimFloat.abs;
  fneg := PrimFloat.opp;
  fltb := PrimFloat.ltb;
  fleb := PrimFloat.leb;
  feqb := PrimFloat.eqb;
  of_Z := f64_of_Z;
  nan_to_num := f64_nan_to_num
|}.

(** exact reals: no NaN, no infinity, so [nan_to_num] is the identity *)

Definition Rltb (x y : R) : bool := if Rlt_dec x y then true else false.
Definition Rleb (x y : R) : bool := if Rle_dec x y then true else false.
Definition Reqb (x y : R) : bool := if Req_dec_T x y then true else false.

#[export] Instance Num_R : Num R := {|
  fzero := 0%R;
  fone := 1%R;
  fadd := Rplus;
  fsub := Rminus;
  fmul := Rmult;
  fdiv := Rdiv;
  fsqrt := sqrt;
  fabs := Rabs;
  fneg := Ropp;
  fltb := Rltb;
  fleb := Rleb;
  feqb := Reqb;
  of_Z := IZR;
  nan_to_num := fun x => x
|}.

(** ** Errors the code raises *)

Inductive exn : Type :=
| ValueError_not_fitted          (* _check_fit *)
| ValueError_order               (* 'Order contains unexpected values' *)
| ValueError_broadcast           (* operands could not be broadcast together *)
| ValueError_sample_larger       (* RandomState.choice, replace=False *)
| ValueError_empty_arg           (* argmax / argmin of an empty sequence *)
| IndexError
| TypeError
| UnboundLocalError.

Inductive result (A : Type) : Type :=
| Ok (a : A)
| Raise (e : exn).
Arguments Ok {A} a.
Arguments Raise {A} e.

Definition bind {A B} (r : result A) (k : A -> result B) : result B :=
  match r with Ok a => k a | Raise e => Raise e end.

(** ** Vectors and matrices *)

Section Arrays.
Context {F : Type} {NF : Num F}.

Definition vec := list F.
Definition matrix := list (list F).

(* np.sum over a 1-D array, left to right *)
Definition fsum (v : list F) : F := fold_left fadd v fzero.

Definition fsq (x : F) : F := fmul x x.

Fixpoint zip_with {A B C} (f : A -> B -> C) (u : list A) (v : list B) : list C :=
  match u, v with
  | a :: u', b :: v' => f a b :: zip_with f u' v'
  | _, _ => []
  end.

(* u.dot(v) for two 1-D arrays *)
Definition dot (u v : list F) : F := fsum (zip_with fmul u v).

(* np.linalg.norm of a 1-D array *)
Definition norm (v : list F) : F := fsqrt (fsum (map fsq v)).

(* shape of a 2-D array held as its rows *)
Definition n_rows (m : matrix) : nat := length m.
Definition n_cols (m : matrix) : nat := length (hd [] m).

(* m[:, t] *)
Definition col (t : nat) (m : matrix) : list F := map (fun r => nth t r fzero) m.

(* m.T *)
Definition transpose (m : matrix) : matrix := map (fun t => col t m) (seq 0 (n_cols m)).

(* v / c, elementwise *)
Definition vdiv (v : list F) (c : F) : list F := map (fun x => fdiv x c) v.

(* np.mean of a 1-D array *)
Definition mean (v : list F) : F := fdiv (fsum v) (of_Z (Z.of_nat (length v))).

(* np.std of a 1-D array: sqrt(mean(abs(x - x.mean())**2)) *)
Definition std (v : list F) : F :=
  let mu := mean v in
  fsqrt (mean (map (fun x => fsq (fabs (fsub x mu))) v)).

(* NaN test as NumPy's argmax uses it: x is NaN exactly when not (x <= x) *)
Definition isnan (x : F) : bool := negb (fleb x x).

(* np.argmax of a 1-D array: first index of the maximum; a NaN is maximal
   and the scan stops at the first one. *)
Fixpoint argmax_from (l : list F) (i : nat) (mp : F) (mi : nat) : nat :=
  match l with
  | [] => mi
  | x :: r =>
      if negb (fleb x mp)
      then (if isnan x then i else argmax_from r (S i) x i)
      else argmax_from r (S i) mp mi
  end.

Definition argmax (l : list F) : nat :=
  match l with
  | [] => 0
  | x :: r => if isnan x then 0 else argmax_from r 1 x 0
  end.

(* np.argmin, symmetric: not (x >= mp) *)
Fixpoint argmin_from (l : list F) (i : nat) (mp : F) (mi : nat) : nat :=
  match l with
  | [] => mi
  | x :: r =>
      if negb (fleb mp x)
      then (if isnan x then i else argmin_from r (S i) x i)
      else argmin_from r (S i) mp mi
  end.

Definition argmin (l : list F) : nat :=
  match l with
  | [] => 0
  | x :: r => if isnan x then 0 else argmin_from r 1 x 0
  end.

End Arrays.

Arguments vec : clear implicits.
Arguments matrix : clear implicits.

(** ** The random source

    [numpy.random.RandomState] is outside the repository: its generator
    state is a type [Gen], [seeded s] is [RandomState(s)] and
    [choice g n k] is the index draw of [g.choice(n, size=k, replace=False)]
    together with the advanced state. *)

Inductive current_fit_t : Type :=
| unfitted
| fit_Raw
| fit_Epochs
| fit_Evoked.

Inductive random_state_t : Type :=
| RS_None                 (* random_state=None *)
| RS_int (seed : Z)       (* an explicit integer seed *)
| RS_instance.            (* a RandomState object, shared by reference *)

Section Fitting.
Context {F : Type} {NF : Num F}.
Variable Gen : Type.
Variable seeded : Z -> Gen.
Variable choice : Gen -> nat -> nat -> list nat * Gen.

(* What the calls can see and change: the state of the caller's
   RandomState object and the operating system's entropy, from which
   RandomState(None) seeds itself. *)
Record world : Type := World {
  instance_state : Gen;
  os_entropy : list Z
}.

(* lines 44-45: the generator this call draws from, and how to store it back *)
Definition resolve_random_state (rs : random_state_t) (w : world)
  : Gen * (Gen -> world) :=
  match rs with
  | RS_instance => (instance_state w, fun g => World g (os_entropy w))
  | RS_int s => (seeded s, fun _ => w)
  | RS_None => (seeded (hd 0%Z (os_entropy w)),
                fun _ => World (instance_state w) (tl (os_entropy w)))
  end.

(* line 52; choice raises when size > population *)
Definition draw_init_times (rs : random_state_t) (n_samples n_states : nat) (w : world)
  : result (list nat) * world :=
  let '(g, store) := resolve_random_state rs w in
  if Nat.ltb n_samples n_states then (Raise ValueError_sample_larger, store g)
  else let '(ts, g') := choice g n_samples n_states in (Ok ts, store g').

Definition normalize (v : list F) : list F := vdiv v (norm v).

(* np.sum(data ** 2), row-major *)
Definition sum_sq (data : matrix F) : F := fsum (concat (map (map fsq) data)).

(* column t of maps.dot(data) for the sample x = data[:, t] *)
Definition activation_col (maps : matrix F) (x : list F) : list F :=
  map (fun m => dot m x) maps.

(* np.argmax(np.abs(activation), axis=0) *)
Definition assign (maps : matrix F) (samples : list (list F)) : list nat :=
  map (fun x => argmax (map fabs (activation_col maps x))) samples.

(* v[idx] for a boolean mask *)
Fixpoint select {A} (idx : list bool) (v : list A) : list A :=
  match idx, v with
  | b :: idx', a :: v' => if b then a :: select idx' v' else select idx' v'
  | _, _ => []
  end.

(* line 74: data[:, idx].dot(activation[state, idx]) *)
Definition weighted_sum (data : matrix F) (samples : list (list F))
    (segmentation : list nat) (state : nat) (m : list F) : list F :=
  let idx := map (fun s => Nat.eqb s state) segmentation in
  let act := map (fun x => dot m x) samples in   (* activation[state, :] *)
  map (fun row => dot (select idx row) (select idx act)) data.

(* lines 65-75 for one state *)
Definition update_map (data : matrix F) (samples : list (list F))
    (segmentation : list nat) (state : nat) (m : list F) : list F :=
  let idx := map (fun s => Nat.eqb s state) segmentation in
  if Nat.eqb (length (filter (fun b => b) idx)) 0
  then map (fun _ => fzero) m
  else normalize (weighted_sum data samples segmentation state m).

Definition update_maps (data : matrix F) (samples : list (list F))
    (segmentation : list nat) (maps : matrix F) : matrix F :=
  map (fun km => update_map data samples segmentation (fst km) (snd km))
      (combine (seq 0 (length maps)) maps).

(* line 78 *)
Definition act_sum_sq (maps : matrix F) (samples : list (list F))
    (segmentation : list nat) : F :=
  fsum (zip_with (fun s x => fsq (dot (nth s maps []) x)) segmentation samples).

(* lines 79-80 *)
Definition residual_of (data : matrix F) (maps : matrix F) (samples : list (list F))
    (segmentation : list nat) : F :=
  fdiv (fabs (fsub (sum_sq data) (act_sum_sq maps samples segmentation)))
       (of_Z (Z.of_nat (n_cols data) * (Z.of_nat (n_rows data) - 1))).

(* line 83; prev_residual starts at np.inf, held as None: inf - r is inf
   or NaN, and neither is below anything, so the first pass never stops *)
Definition converged (prev : option F) (residual thresh : F) : bool :=
  match prev with
  | None => false
  | Some p => fltb (fsub p residual) (fmul thresh residual)
  end.

(* lines 57-89 *)
Fixpoint kmeans_iter (max_iter : nat) (data : matrix F) (samples : list (list F))
    (thresh : F) (maps : matrix F) (prev : option F) : matrix F :=
  match max_iter with
  | O => maps
  | S n =>
      let segmentation := assign maps samples in
      let maps' := update_maps data samples segmentation maps in
      let residual := residual_of data maps' samples segmentation in
      if converged prev residual thresh then maps'
      else kmeans_iter n data samples thresh maps' (Some residual)
  end.

(* lines 53-54 *)
Definition init_maps (data : matrix F) (init_times : list nat) : matrix F :=
  map (fun t => normalize (col t data)) init_times.

Definition _compute_maps (data : matrix F) (n_states max_iter : nat) (thresh : F)
    (rs : random_state_t) (w : world) : result (matrix F) * world :=
  let '(r, w') := draw_init_times rs (n_cols data) n_states w in
  (bind r (fun init_times =>
     let maps := init_maps data init_times in
     (* with no state at all the argmax of line 60 raises *)
     if Nat.eqb (length maps) 0 && Nat.ltb 0 max_iter
     then Raise ValueError_empty_arg
     else Ok (kmeans_iter max_iter data (transpose data) thresh maps None)),
   w').

(* _corr_vectors(A, B, axis=0) on one pair of columns *)
Definition corr_pair (a b : list F) : F :=
  let an := map (fun x => fsub x (mean a)) a in
  let bn := map (fun x => fsub x (mean b)) b in
  let an' := vdiv an (norm an) in
  let bn' := vdiv bn (norm bn) in
  nan_to_num (fsum (zip_with fmul an' bn')).

(* _corr_vectors(data, maps[segmentation].T) *)
Definition map_corr (maps : matrix F) (samples : list (list F))
    (segmentation : list nat) : list F :=
  zip_with (fun s x => corr_pair x (nth s maps [])) segmentation samples.

(* line 490 *)
Definition gev_of (data : matrix F) (corr : list F) : F :=
  fdiv (fsum (concat (map (fun row => map fsq (zip_with fmul row corr)) data)))
       (sum_sq data).

Record run : Type := Run {
  run_gev : F;
  run_maps : matrix F;
  run_segmentation : list nat
}.

(* the part of _run_mod_kmeans after the centers are known, lines 486-491 *)
Definition score_maps (data : matrix F) (maps : matrix F) : run :=
  let samples := transpose data in
  let segmentation := assign maps samples in
  Run (gev_of data (map_corr maps samples segmentation)) maps segmentation.

(* The attributes of a ModKMeans object (BaseClustering.__init__ and
   ModKMeans.__init__).  info is kept as its channel names. *)
Record ModKMeans : Type := mkModKMeans {
  n_clusters : nat;
  current_fit : current_fit_t;
  cluster_centers : option (matrix F);
  GEV : option F;
  info : option (list string);
  random_state : random_state_t;
  n_init : nat;
  max_iter : nat;
  tol : F;
  labels : option (list nat)
}.

Definition _run_mod_kmeans (self : ModKMeans) (data : matrix F) (w : world)
  : result run * world :=
  let '(r, w') := _compute_maps data (n_clusters self) (max_iter self) (tol self)
                    (random_state self) w in
  (bind r (fun maps =>
     (* line 487: argmax over no state raises *)
     if Nat.eqb (length maps) 0 then Raise ValueError_empty_arg
     else Ok (score_maps data maps)), w').

(* _do_fit, n_jobs == 1: lines 565-570 and 580.  [best] is None while
   best_maps and best_segmentation are still unbound. *)
Fixpoint fit_loop (n : nat) (self : ModKMeans) (data : matrix F)
    (best_gev : F) (best : option run) (w : world)
  : result (F * option run) * world :=
  match n with
  | O => (Ok (best_gev, best), w)
  | S n' =>
      match _run_mod_kmeans self data w with
      | (Raise e, w') => (Raise e, w')
      | (Ok r, w') =>
          if fltb best_gev (run_gev r)
          then fit_loop n' self data (run_gev r) (Some r) w'
          else fit_loop n' self data best_gev best w'
      end
  end.

Definition _do_fit (self : ModKMeans) (data : matrix F) (w : world)
  : result run * world :=
  match fit_loop (n_init self) self data fzero None w with
  | (Raise e, w') => (Raise e, w')
  | (Ok (_, Some r), w') => (Ok r, w')
  | (Ok (_, None), w') => (Raise UnboundLocalError, w')
  end.

(* The runs of n successive restarts, in the order they are made; a
   raise in one of them ends the sequence. *)
Fixpoint restarts (n : nat) (self : ModKMeans) (data : matrix F) (w : world)
  : result (list run) * world :=
  match n with
  | O => (Ok [], w)
  | S n' =>
      match _run_mod_kmeans self data w with
      | (Raise e, w') => (Raise e, w')
      | (Ok r, w') =>
          match restarts n' self data w' with
          | (Raise e, w'') => (Raise e, w'')
          | (Ok rs, w'') => (Ok (r :: rs), w'')
          end
      end
  end.

(* the comparison of lines 569-570 over a list of runs *)
Fixpoint select_best (best_gev : F) (best : option run) (l : list run)
  : F * option run :=
  match l with
  | [] => (best_gev, best)
  | r :: rest =>
      if fltb best_gev (run_gev r) then select_best (run_gev r) (Some r) rest
      else select_best best_gev best rest
  end.

(* BaseClustering._check_fit *)
Definition _check_fit (self : ModKMeans) : result unit :=
  match current_fit self with
  | unfitted => Raise ValueError_not_fitted
  | _ => Ok tt
  end.

(* ModKMeans.fit, n_jobs=1, on the data matrix and channel names that
   MNE hands over for the instance (kind: Raw, Epochs or Evoked).  An
   exception leaves the object as it was. *)
Definition fit (self : ModKMeans) (kind : current_fit_t) (data : matrix F)
    (ch_names : list string) (w : world) : result ModKMeans * world :=
  match _do_fit self data w with
  | (Raise e, w') => (Raise e, w')
  | (Ok r, w') =>
      (Ok (mkModKMeans (n_clusters self) kind (Some (run_maps r))
             (Some (run_gev r)) (Some ch_names) (random_state self)
             (n_init self) (max_iter self) (tol self) (labels self)), w')
  end.

End Fitting.

(** ** Competitive segmentation: [_segment] *)

Section Segmentation.
Context {F : Type} {NF : Num F}.

(* (m.T / np.std(m, axis=1)).T : every row divided by its own std *)
Definition scale_rows (m : matrix F) : matrix F :=
  map (fun r => vdiv r (std r)) m.

(* w = zeros((Nu, Nt)); w[rmat == labels_all] = 1 *)
Definition one_hot (Nu : nat) (labels_all : list nat) : matrix F :=
  map (fun k => map (fun l => if Nat.eqb k l then fone else fzero) labels_all)
      (seq 0 Nu).

(* np.sum(np.dot(w.T, states).T * data, axis=0)[t] for the sample
   x = data[:, t] and wt = w[:, t] *)
Definition fitted_proj (states : matrix F) (wt x : list F) : F :=
  let center := map (fun c => dot wt (col c states)) (seq 0 (length x)) in
  fsum (zip_with fmul center x).

(* line 137-138 *)
Definition initial_e (states : matrix F) (w : matrix F)
    (samples : list (list F)) (Vvar : list F) (Nt Ne : nat) : F :=
  fsum (zip_with
          (fun v px => fsub v (fdiv (fsq px)
                                    (of_Z (Z.of_nat Nt * (Z.of_nat Ne - 1)))))
          Vvar
          (zip_with (fitted_proj states) (transpose w) samples)).

(* lines 150-151 *)
Definition unexplained (states : matrix F) (w : matrix F)
    (samples : list (list F)) (Vvar : list F) (Nt Ne : nat) : F :=
  fdiv (fsum (zip_with (fun v px => fsub v (fsq px)) Vvar
                (zip_with (fitted_proj states) (transpose w) samples)))
       (of_Z (Z.of_nat Nt * (Z.of_nat Ne - 1))).

(* scipy.signal.convolve2d(w, np.ones((1, 2h+1)), mode='same') on one row:
   the tally of the row over the window t-h .. t+h, zero outside *)
Definition window_tally (h : nat) (row : list F) (t : nat) : F :=
  fsum (map (fun j =>
               if Nat.leb h (t + j)
               then fmul (nth (t + j - h) row fzero) fone
               else fzero)
            (seq 0 (2 * h + 1))).

(* lines 142-145 *)
Definition relabel (states : matrix F) (samples : list (list F)) (Vvar : list F)
    (Ne h : nat) (factor e : F) (w : matrix F) : list nat :=
  map (fun tvx =>
         let '(t, (v, x)) := tvx in
         argmin (map (fun kw =>
                        let '(s, wrow) := kw in
                        fsub (fdiv (fsub v (fsq (dot s x)))
                                   (fmul (fmul (of_Z 2) e)
                                         (of_Z (Z.of_nat Ne - 1))))
                             (fmul factor (window_tally h wrow t)))
                     (combine states w)))
      (combine (seq 0 (length samples)) (combine Vvar samples)).

(* the while True of lines 141-155; None when the fuel is spent before
   the loop breaks *)
Fixpoint segment_loop (fuel : nat) (states : matrix F) (samples : list (list F))
    (Vvar : list F) (Nt Ne h : nat) (factor crit e : F)
    (w : matrix F) (S0 : F) : option (list nat) :=
  match fuel with
  | O => None
  | S n =>
      let dlt := relabel states samples Vvar Ne h factor e w in
      let w' := one_hot (length states) dlt in
      let Su := unexplained states w' samples Vvar Nt Ne in
      if fleb (fabs (fsub Su S0)) (fabs (fmul crit Su)) then Some dlt
      else segment_loop n states samples Vvar Nt Ne h factor crit e w' Su
  end.

(* labels[i] = 0 *)
Fixpoint set_nth {A} (i : nat) (a : A) (l : list A) : list A :=
  match l, i with
  | [], _ => []
  | _ :: r, O => a :: r
  | x :: r, S j => x :: set_nth j a r
  end.

(* lines 161-163; the loop moves i up by one each round and stops
   before len(labels) - 1, so len(labels) rounds of fuel are enough *)
Fixpoint unlabel_first (fuel i first_label : nat) (labels : list nat) : list nat :=
  match fuel with
  | O => labels
  | S n =>
      if Nat.eqb (nth i labels 0) first_label && Nat.ltb i (length labels - 1)
      then unlabel_first n (S i) first_label (set_nth i 0 labels)
      else labels
  end.

(* lines 167-169 *)
Fixpoint unlabel_last (fuel i last_label : nat) (labels : list nat) : list nat :=
  match fuel with
  | O => labels
  | S n =>
      if Nat.eqb (nth i labels 0) last_label && Nat.ltb 0 i
      then unlabel_last n (i - 1) last_label (set_nth i 0 labels)
      else labels
  end.

(* lines 157-170; labels[0] of an empty array is an IndexError *)
Definition unlabel_boundaries (labels_all : list nat) : result (list nat) :=
  let labels := map S labels_all in
  match labels with
  | [] => Raise IndexError
  | first_label :: _ =>
      let labels1 := unlabel_first (length labels) 0 first_label labels in
      let i := length labels1 - 1 in
      let last_label := nth i labels1 0 in
      Ok (unlabel_last (length labels1) i last_label labels1)
  end.

(* What the boundary rule is meant to do, said on the label sequence
   itself: the length of the maximal run of equal labels at the front
   and at the back, and the sequence with both runs set to 0. *)
Fixpoint leading_run (a : nat) (l : list nat) : nat :=
  match l with
  | x :: r => if Nat.eqb x a then S (leading_run a r) else 0
  | [] => 0
  end.

Definition first_run (l : list nat) : nat := leading_run (hd 0 l) l.

Definition last_run (l : list nat) : nat := first_run (rev l).

Definition boundaries_unlabeled (l : list nat) : list nat :=
  map (fun i => if Nat.ltb i (first_run l) || Nat.leb (length l - last_run l) i
                then 0 else nth i l 0)
      (seq 0 (length l)).

(* _segment.  The arrays are rectangular; np.dot raises when the centers
   and the data disagree on the number of channels, and argmax over no
   center raises. *)
Definition _segment (fuel : nat) (data states : matrix F)
    (half_window_size : nat) (factor crit : F) : option (result (list nat)) :=
  if negb (forallb (fun r => Nat.eqb (length r) (n_rows data)) states)
  then Some (Raise ValueError_broadcast)
  else if Nat.eqb (length states) 0 then Some (Raise ValueError_empty_arg)
  else
    let states := scale_rows states in
    let data := scale_rows data in
    let Ne := n_rows data in
    let Nt := n_cols data in
    let Nu := length states in
    let samples := transpose data in
    let Vvar := map (fun x => fsum (map fsq x)) samples in
    let labels_all := map (fun x => argmax (map fabs (map (fun s => dot s x) states)))
                          samples in
    let w := one_hot Nu labels_all in
    let e := initial_e states w samples Vvar Nt Ne in
    match segment_loop fuel states samples Vvar Nt Ne half_window_size
            factor crit e w fzero with
    | None => None
    | Some labels_all' => Some (unlabel_boundaries labels_all')
    end.

(* The first two passes of the loop of lines 141-155, on the values that
   lines 126-138 hand to it: the labels and the unexplained variance Su
   of the first pass, and the labels of the second pass. *)
Record passes : Type := Passes {
  labels_1 : list nat;
  Su_1 : F;
  labels_2 : list nat
}.

Definition two_passes (data states : matrix F) (half_window_size : nat)
    (factor : F) : passes :=
  let states := scale_rows states in
  let data := scale_rows data in
  let Ne := n_rows data in
  let Nt := n_cols data in
  let Nu := length states in
  let samples := transpose data in
  let Vvar := map (fun x => fsum (map fsq x)) samples in
  let labels_all := map (fun x => argmax (map fabs (map (fun s => dot s x) states)))
                        samples in
  let w := one_hot Nu labels_all in
  let e := initial_e states w samples Vvar Nt Ne in
  let dlt := relabel states samples Vvar Ne half_window_size factor e w in
  let w' := one_hot Nu dlt in
  let Su := unexplained states w' samples Vvar Nt Ne in
  Passes dlt Su (relabel states samples Vvar Ne half_window_size factor e w').

(* the test of line 152 on a pass that repeats the one before it: S0 is
   then the Su of that pass *)
Definition settled (crit Su : F) : bool :=
  fleb (fabs (fsub Su Su)) (fabs (fmul crit Su)).

End Segmentation.

(** ** predict, reorder, smart_reorder *)

(* The built-in template of smart_reorder, lines 363-395; every entry is
   written with eight decimals and held as that decimal times 10^8. *)
Definition template_e8 : list (list Z) :=
  [
    [(-13234463); (-19008217); (-1808156); (-6665204); (-18127315);
     (-25741473); (-23132060); 4239534; (-14411298); (-25635016); 18317450;
     17520883; (-6034687); (-21948988); (-20572770); 27723199; 4632557;
     (-13834580); 36954792; 33889126; 14253860; (-5140216); (-7532628);
     32313928; 21629226; 11352515];
    [(-15034466); (-8511373); (-19531161); (-24267313); (-16871454);
     (-4761393); 2482456; (-26414511); (-15066143); 4628036; (-19736250);
     (-24065874); (-8569745); 17291620; 22345117; (-17553494); 688743;
     25853483; (-9196588); (-9478585); 9460047; 32742083; 43250270; 9535141;
     19591040; 31190313];
    [29388541; 28864610; 27804376; 22674127; 21938115; 21720292; 25153101;
     12125869; 10996983; 10638135; 11575272; (-1388831); (-4507772);
     (-3708886); 8203929; (-14818182); (-20299531); (-16658826); (-9488949);
     (-23512102); (-30464665); (-25762648); (-14058166); (-22072284);
     (-22175042); (-22167467)];
    [(-21660409); (-22350361); (-27855619); (-971090); 7119601; 385336;
     (-24792901); 8145982; 23290418; 9985582; (-24242583); 13516244;
     33046610; 16710186; (-21832217); 15575575; 33346027; 18885162;
     (-21687347); 10926662; 26182733; 13760157; (-19536083); (-15966419);
     (-14684497); (-15296749)];
    [(-12444958); (-12317709); (-6189361); (-20820917); (-25736043);
     (-20740485); (-6941215); (-18086612); (-26979589); (-17602898); 5332203;
     (-10101208); (-20095764); (-9582802); 6883067; 824630; (-7052899);
     917889; 26984673; 13288481; 8062487; 13616082; 30845643; 36843231;
     35510687; 35583386]
  ]%Z.

Definition ch_names_template_src : list string :=
  ["Fp1"; "Fp2"; "F7"; "F3"; "Fz"; "F4"; "F8"; "FC3"; "FCz"; "FC4"; "T3"; "C3"; "Cz"; "C4"; "T4"; "CP3"; "CPz"; "CP4"; "T5"; "P3"; "Pz"; "P4"; "T6"; "O1"; "Oz"; "O2"]%string.

Definition lower_ascii (c : ascii) : ascii :=
  let n := nat_of_ascii c in
  if Nat.leb 65 n && Nat.leb n 90 then ascii_of_nat (n + 32) else c.

(* str.lower() *)
Fixpoint lower (s : string) : string :=
  match s with
  | EmptyString => EmptyString
  | String c r => String (lower_ascii c) (lower r)
  end.

(* list.index *)
Fixpoint index_of (name : string) (l : list string) : nat :=
  match l with
  | [] => 0
  | x :: r => if String.eqb x name then 0 else S (index_of name r)
  end.

(* np.sort of an integer sequence *)
Fixpoint insert_sorted (x : Z) (l : list Z) : list Z :=
  match l with
  | [] => [x]
  | y :: r => if Z.leb x y then x :: l else y :: insert_sorted x r
  end.

Definition np_sort (l : list Z) : list Z := fold_right insert_sorted [] l.

(* np.arange(0, n, 1) *)
Definition arange (n : nat) : list Z := map Z.of_nat (seq 0 n).

(* a != b on two 1-D integer arrays, with NumPy's broadcasting *)
Definition ne_broadcast (a b : list Z) : result (list bool) :=
  if Nat.eqb (length a) (length b)
  then Ok (zip_with (fun x y => negb (Z.eqb x y)) a b)
  else if Nat.eqb (length a) 1
  then Ok (map (fun y => negb (Z.eqb (hd 0%Z a) y)) b)
  else if Nat.eqb (length b) 1
  then Ok (map (fun x => negb (Z.eqb x (hd 0%Z b))) a)
  else Raise ValueError_broadcast.

(* sorted() on (row, column) pairs *)
Definition pair_leb (p q : nat * nat) : bool :=
  Nat.ltb (fst p) (fst q) || (Nat.eqb (fst p) (fst q) && Nat.leb (snd p) (snd q)).

Fixpoint insert_pair (p : nat * nat) (l : list (nat * nat)) : list (nat * nat) :=
  match l with
  | [] => [p]
  | q :: r => if pair_leb p q then p :: l else q :: insert_pair p r
  end.

Definition sorted_pairs (l : list (nat * nat)) : list (nat * nat) :=
  fold_right insert_pair [] l.

Section Methods.
Context {F : Type} {NF : Num F}.

(* data[:, a:b] *)
Definition slice_cols (a b : nat) (m : matrix F) : matrix F :=
  map (fun r => firstn (b - a) (skipn a r)) m.

(* segmentation[a:a+len(seg)] = seg *)
Definition splice {A} (a : nat) (seg out : list A) : list A :=
  firstn a out ++ seg ++ skipn (a + length seg) out.

(* lines 302-308 *)
Fixpoint predict_segments (fuel : nat) (data centers : matrix F)
    (half_window_size : nat) (factor crit : F)
    (pairs : list (nat * nat)) (segmentation : list nat)
  : option (result (list nat)) :=
  match pairs with
  | [] => Some (Ok segmentation)
  | (onset, end_) :: rest =>
      if Nat.leb (2 * half_window_size + 1) (onset - end_)
      then
        match _segment fuel (slice_cols end_ onset data) centers
                half_window_size factor crit with
        | None => None
        | Some (Raise e) => Some (Raise e)
        | Some (Ok l) =>
            predict_segments fuel data centers half_window_size factor crit
              rest (splice end_ l segmentation)
        end
      else predict_segments fuel data centers half_window_size factor crit
             rest segmentation
  end.

(* BaseClustering.predict on the data matrix of the instance; onsets and
   _ends are what _annotations_starts_stops returns for the 'BAD'
   annotations (sample indices).  For an Evoked instance the caller
   passes reject_by_annotation = false. *)
Definition predict (fuel : nat) (self : @ModKMeans F) (data : matrix F)
    (reject_by_annotation : bool) (onsets _ends : list nat)
    (half_window_size : nat) (factor crit : F) : option (result (list nat)) :=
  match _check_fit self with
  | Raise e => Some (Raise e)
  | Ok _ =>
      match cluster_centers self with
      | None => Some (Raise TypeError)
      | Some centers =>
          if reject_by_annotation then
            if Nat.eqb (length onsets) 0
            then _segment fuel data centers half_window_size factor crit
            else
              let onsets' := onsets ++ [n_cols data - 1] in
              let ends := 0 :: _ends in
              predict_segments fuel data centers half_window_size factor crit
                (combine onsets' ends) (repeat 0 (n_cols data))
          else _segment fuel data centers half_window_size factor crit
      end
  end.

(* m[order] with a list of integers: negative indices count from the
   end, anything out of range is an IndexError *)
Fixpoint take_rows {A} (order : list Z) (m : list A) : result (list A) :=
  match order with
  | [] => Ok []
  | i :: rest =>
      let j := if Z.ltb i 0 then (i + Z.of_nat (length m))%Z else i in
      if Z.ltb j 0 then Raise IndexError
      else match nth_error m (Z.to_nat j) with
           | None => Raise IndexError
           | Some r => bind (take_rows rest m) (fun rs => Ok (r :: rs))
           end
  end.

Definition set_cluster_centers (self : @ModKMeans F) (c : matrix F) : @ModKMeans F :=
  mkModKMeans (n_clusters self) (current_fit self) (Some c) (GEV self)
    (info self) (random_state self) (n_init self) (max_iter self) (tol self)
    (labels self).

(* BaseClustering.reorder: the outcome and the object afterwards *)
Definition reorder (self : @ModKMeans F) (order : list Z)
  : result unit * @ModKMeans F :=
  match _check_fit self with
  | Raise e => (Raise e, self)
  | Ok _ =>
      match ne_broadcast (np_sort order) (arange (n_clusters self)) with
      | Raise e => (Raise e, self)
      | Ok neq =>
          if existsb (fun b => b) neq then (Raise ValueError_order, self)
          else
            match cluster_centers self with
            | None => (Raise TypeError, self)
            | Some centers =>
                match take_rows order centers with
                | Raise e => (Raise e, self)
                | Ok c => (Ok tt, set_cluster_centers self c)
                end
            end
      end
  end.

(* np.corrcoef: one entry of the correlation matrix of the stacked rows,
   as NumPy computes it (cov with ddof=1, division by both standard
   deviations, clip to [-1, 1]) *)
Definition demean (v : list F) : list F := map (fun x => fsub x (mean v)) v.

Definition cov_entry (u v : list F) : F :=
  fmul (dot (demean u) (demean v))
       (fdiv fone (of_Z (Z.of_nat (length u) - 1))).

Definition clip_unit (x : F) : F :=
  if isnan x then x
  else if fltb x (fneg fone) then fneg fone
  else if fltb fone x then fone
  else x.

Definition corrcoef_entry (u v : list F) : F :=
  clip_unit (fdiv (fdiv (cov_entry u v) (fsqrt (cov_entry u u)))
                  (fsqrt (cov_entry v v))).

(* np.maximum on two scalars, and np.max of an array *)
Definition fmax (a b : F) : F := if fleb b a || isnan a then a else b.

Definition np_max (l : list F) : result F :=
  match l with
  | [] => Raise ValueError_empty_arg
  | x :: r => Ok (fold_left fmax r x)
  end.

(* np.where(v == x)[0][0] *)
Fixpoint first_eq (x : F) (v : list F) : result nat :=
  match v with
  | [] => Raise IndexError
  | y :: r => if feqb y x then Ok 0 else bind (first_eq x r) (fun i => Ok (S i))
  end.

(* mat[mask_rows, :][:, mask_columns] for the rows and columns not yet
   taken *)
Definition masked (mat : matrix F) (rows columns : list nat) : matrix F :=
  map (fun ir =>
         map snd (filter (fun jc => negb (existsb (Nat.eqb (fst jc)) columns))
                         (combine (seq 0 (length (snd ir))) (snd ir))))
      (filter (fun ir => negb (existsb (Nat.eqb (fst ir)) rows))
              (combine (seq 0 (length mat)) mat)).

(* mat[row, column] = v *)
Definition set_entry (row column : nat) (v : F) (mat : matrix F) : matrix F :=
  set_nth row (set_nth column v (nth row mat [])) mat.

(* lines 417-426: the loop adds one column per round, so it makes
   min(len(template), len(centers)) rounds *)
Fixpoint greedy_match (rounds : nat) (mat : matrix F) (rows columns : list nat)
  : result (list nat * list nat) :=
  match rounds with
  | O => Ok (rows, columns)
  | S n =>
      bind (np_max (concat (masked mat rows columns))) (fun mx =>
      bind (first_eq mx (concat mat)) (fun i =>
        let row := i / n_cols mat in
        let column := i mod n_cols mat in
        greedy_match n (set_entry row column (fneg fone) mat)
          (rows ++ [row]) (columns ++ [column])))
  end.

(* lines 427-428 *)
Definition matched_order (rows columns : list nat) (n_centers : nat) : list nat :=
  let order := map snd (sorted_pairs (combine rows columns)) in
  order ++ filter (fun x => negb (existsb (Nat.eqb x) order)) (seq 0 n_centers).

Definition template : matrix F :=
  map (map (fun z => fdiv (of_Z z) (of_Z 100000000))) template_e8.

(* BaseClustering.smart_reorder.  The common channel names are taken in
   the order of the template (Python takes them in the order of a set). *)
Definition smart_reorder (self : @ModKMeans F) : result unit * @ModKMeans F :=
  match _check_fit self with
  | Raise e => (Raise e, self)
  | Ok _ =>
      match cluster_centers self, info self with
      | Some centers, Some ch_names =>
          let ch_names_template := map lower ch_names_template_src in
          let ch_names_centers := map lower ch_names in
          let common_ch_names :=
            filter (fun n => existsb (String.eqb n) ch_names_centers)
                   ch_names_template in
          if Nat.leb (length common_ch_names) 10 then (Ok tt, self)
          else
            let common_names_template :=
              map (fun n => index_of n ch_names_template) common_ch_names in
            let common_names_centers :=
              map (fun n => index_of n ch_names_centers) common_ch_names in
            let reduc_template :=
              map (fun r => map (fun j => nth j r fzero) common_names_template)
                  template in
            let reduc_centers :=
              map (fun r => map (fun j => nth j r fzero) common_names_centers)
                  centers in
            let mat :=
              map (fun t => map (fun c => fabs (corrcoef_entry t c)) reduc_centers)
                  reduc_template in
            match greedy_match (Nat.min (length template) (length centers))
                    mat [] [] with
            | Raise e => (Raise e, self)
            | Ok (rows, columns) =>
                let order := matched_order rows columns (length centers) in
                match take_rows (map Z.of_nat order) centers with
                | Raise e => (Raise e, self)
                | Ok c => (Ok tt, set_cluster_centers self c)
                end
            end
      | _, _ => (Raise TypeError, self)
      end
  end.

End Methods.

(** ** Sign flips of samples *)

(* the observation matrix with sample j negated: data[:, j] = -data[:, j] *)
Definition negate_col {F : Type} {NF : Num F} (j : nat) (data : matrix F)
  : matrix F :=
  map (fun row => set_nth j (fneg (nth j row fzero)) row) data.

(* In exact arithmetic: a number that is 1 or -1, equality up to such a
   factor, a vector whose entry t is multiplied by sigma t, and a list of
   vectors whose vector t is multiplied by sigma t. *)
Definition is_sign (c : R) : Prop := c = 1%R \/ c = (-1)%R.

Definition eq_up_to_sign (y' y : R) : Prop :=
  exists c, is_sign c /\ y' = (c * y)%R.

Definition vec_eq_up_to_sign (v' v : list R) : Prop :=
  exists c, is_sign c /\ v' = map (Rmult c) v.

Fixpoint iscale (sigma : nat -> R) (a : nat) (l : list R) : list R :=
  match l with
  | [] => []
  | x :: r => (sigma a * x)%R :: iscale sigma (S a) r
  end.

Fixpoint vscale (sigma : nat -> R) (a : nat) (vs : list (list R))
  : list (list R) :=
  match vs with
  | [] => []
  | v :: r => map (Rmult (sigma a)) v :: vscale sigma (S a) r
  end.

Definition flip_at (j : nat) (t : nat) : R :=
  if Nat.eqb t j then (-1)%R else 1%R.

(** ** IEEE binary64 values that are not finite *)

(* 1.0 as a specification float *)
Definition SF_one : spec_float := S754_finite false 4503599627370496 (-52).

Definition nonfinite (x : float) : Prop :=
  Prim2SF x = S754_nan \/ exists s, Prim2SF x = S754_infinity s.

Definition pinf_or_nan (x : float) : Prop :=
  Prim2SF x = S754_nan \/ Prim2SF x = S754_infinity false.

Definition is_NaN (x : float) : Prop := Prim2SF x = S754_nan.


(** ** Concrete inputs used below *)

Module Inputs.
Open Scope float_scope.

(* eleven channels of the template, and two centers that are each
   other's negation *)
Definition names11 : list string :=
  ["Fp1"; "Fp2"; "F7"; "F3"; "Fz"; "F4"; "F8"; "FC3"; "FCz"; "FC4"; "T3"]%string.
Definition center_a : list float := [1; 0; 0; 0; 0; 0; 0; 0; 0; 0; 0].
Definition center_b : list float := [-1; 0; 0; 0; 0; 0; 0; 0; 0; 0; 0].

Definition fitted (K : nat) (centers : matrix float) (names : list string)
  : @ModKMeans float :=
  mkModKMeans K fit_Raw (Some centers) (Some 0.5) (Some names)
    (RS_int 42) 1 300 0x1p-20 None.

(* a stand-in for RandomState: the state is a counter, a draw of k
   indices out of n takes k consecutive residues and moves the counter *)
Definition toy_seeded (s : Z) : nat := Z.to_nat s.
Definition toy_choice (g n k : nat) : list nat * nat :=
  (map (fun i => Nat.modulo (g + i) n) (seq 0 k), S g).
Definition toy_world : world nat := World 7%nat [3; 5; 8]%Z.

Definition unfitted_model (K : nat) (rs : random_state_t) (n_init : nat)
  : @ModKMeans float :=
  mkModKMeans K unfitted None None None rs n_init 300 0x1p-20 None.

(* one channel, two samples *)
Definition one_channel : matrix float := [[1; 2]].
(* two channels that carry the same signal *)
Definition twin_channels : matrix float := [[1; 2]; [1; 2]].
Definition dimension_error (e : exn) : bool :=
  match e with
  | ValueError_sample_larger | ValueError_broadcast => true
  | _ => false
  end.

(* the default criterion of predict, 10e-6 *)
Definition default_crit : float := Eval vm_compute in (1 / 100000).


(* three channels, nine samples, and two centers *)
Definition data_3x9 : matrix float :=
  [[ 1;  4;  0;  1;  5;  0;  4;  1;  5];
   [ 2;  1;  5;  4;  0;  4;  0;  5;  1];
   [-3; -5; -4; -5; -4; -5; -5; -4; -5]].
Definition centers_2x3 : matrix float := [[1; 0; -1]; [0; 1; -1]].

(* two channels, two samples, the second sample all zero *)
Definition zero_sample : matrix float := [[1; 0]; [1; 0]].

(* two channels, three samples of the size of 2^255 *)
Definition huge_data : matrix float :=
  [[0x3fp+249; 0x69p+249; -0x8p+249];
   [0x54p+249; 0x0p+0;     0x6p+249]].

(* data_3x9 with a second channel that stays at 2 *)
Definition flat_channel : matrix float :=
  [[ 1;  4;  0;  1;  5;  0;  4;  1;  5];
   [ 2;  2;  2;  2;  2;  2;  2;  2;  2];
   [-3; -5; -4; -5; -4; -5; -5; -4; -5]].

End Inputs.

(** ** A new object *)

(* ModKMeans.__init__ with BaseClustering.__init__ *)
Definition __init__ {F : Type} (random_state : random_state_t)
    (n_init max_iter : nat) (tol : F) (n_clusters : nat) : @ModKMeans F :=
  mkModKMeans n_clusters unfitted None None None random_state n_init max_iter
    tol None.

(** ** transform *)

Section Transform.
Context {F : Type} {NF : Num F}.

(* f over every element, left to right; the first exception ends it *)
Fixpoint map_result {A B} (f : A -> result B) (l : list A) : result (list B) :=
  match l with
  | [] => Ok []
  | a :: r => bind (f a) (fun b => bind (map_result f r) (fun bs => Ok (b :: bs)))
  end.

(* lines 234-236: stack = np.vstack([cluster_centers, data.T]), the block
   [:n_clusters, n_clusters:] of np.corrcoef(stack), and np.max of its
   absolute values down every column.  vstack raises when the centers and
   the samples disagree on the number of channels; np.max raises when
   the block has columns but no row. *)
Definition cluster_distances (n_clusters : nat) (centers data : matrix F)
  : result (list F) :=
  if negb (forallb (fun r => Nat.eqb (length r) (n_rows data)) centers)
  then Raise ValueError_broadcast
  else
    let stack := centers ++ transpose data in
    let rows := firstn n_clusters stack in
    let columns := skipn n_clusters stack in
    map_result (fun v => np_max (map (fun u => fabs (corrcoef_entry u v)) rows))
               columns.

(* BaseClustering.transform on the data matrix of a Raw or an Evoked
   instance *)
Definition transform (self : @ModKMeans F) (data : matrix F) : result (list F) :=
  match _check_fit self with
  | Raise e => Raise e
  | Ok _ =>
      match cluster_centers self with
      | None => Raise TypeError
      | Some centers => cluster_distances (n_clusters self) centers data
      end
  end.

End Transform.
(** ** GFP peaks: [_extract_gfps]

    [scipy.signal.find_peaks] is outside the repository.  It is taken as
    SciPy implements it: [_local_maxima_1d] finds the plateaus that lie
    strictly above both neighbours and reports their middle sample, and
    [_select_by_peak_distance] visits the peaks from the highest priority
    down (the order of [np.argsort], a parameter here) and drops the
    neighbours closer than [distance]. *)

Section Peaks.
Context {F : Type} {NF : Num F}.
Variable argsort : list F -> list nat.

(* the inner while of _local_maxima_1d: the first index from i_ahead on
   that is i_max or holds another value than xi *)
Fixpoint plateau_end (fuel i_ahead i_max : nat) (xi : F) (x : list F) : nat :=
  match fuel with
  | O => i_ahead
  | S n =>
      if Nat.ltb i_ahead i_max && feqb (nth i_ahead x fzero) xi
      then plateau_end n (S i_ahead) i_max xi x
      else i_ahead
  end.

(* the outer while of _local_maxima_1d, from index i on; i grows in every
   round, so len(x) rounds of fuel are enough *)
Fixpoint local_maxima_from (fuel i : nat) (x : list F) : list nat :=
  match fuel with
  | O => []
  | S n =>
      let i_max := length x - 1 in
      if Nat.ltb i i_max then
        if fltb (nth (i - 1) x fzero) (nth i x fzero) then
          let i_ahead := plateau_end (length x) (S i) i_max (nth i x fzero) x in
          if fltb (nth i_ahead x fzero) (nth i x fzero)
          then (i + (i_ahead - 1)) / 2 :: local_maxima_from n (S i_ahead) x
          else local_maxima_from n (S i) x
        else local_maxima_from n (S i) x
      else []
  end.

Definition _local_maxima_1d (x : list F) : list nat :=
  local_maxima_from (length x) 1 x.

(* k = j - 1; while 0 <= k and peaks[j] - peaks[k] < distance: keep[k] = 0;
   k -= 1.  The argument is k + 1. *)
Fixpoint clear_before (k1 pj distance : nat) (peaks : list nat)
    (keep : list bool) : list bool :=
  match k1 with
  | O => keep
  | S k =>
      if Nat.ltb (pj - nth k peaks 0) distance
      then clear_before k pj distance peaks (set_nth k false keep)
      else keep
  end.

(* k = j + 1; while k < peaks_size and peaks[k] - peaks[j] < distance:
   keep[k] = 0; k += 1 *)
Fixpoint clear_after (fuel k pj distance : nat) (peaks : list nat)
    (keep : list bool) : list bool :=
  match fuel with
  | O => keep
  | S n =>
      if Nat.ltb k (length peaks) && Nat.ltb (nth k peaks 0 - pj) distance
      then clear_after n (S k) pj distance peaks (set_nth k false keep)
      else keep
  end.

(* the for loop of _select_by_peak_distance over the peaks in the order
   of decreasing priority *)
Definition _select_by_peak_distance (peaks : list nat)
    (priority_to_position : list nat) (distance : nat) : list bool :=
  fold_left
    (fun keep j =>
       if negb (nth j keep true) then keep
       else
         let pj := nth j peaks 0 in
         clear_after (length peaks) (S j) pj distance peaks
           (clear_before j pj distance peaks keep))
    (rev priority_to_position)
    (repeat true (length peaks)).

(* find_peaks(x, distance=distance)[0] for distance >= 1 *)
Definition find_peaks (x : list F) (distance : nat) : list nat :=
  let peaks := _local_maxima_1d x in
  let keep :=
    _select_by_peak_distance peaks
      (argsort (map (fun p => nth p x fzero) peaks)) distance in
  select keep peaks.

(* _extract_gfps(data), min_peak_dist = 2 as every caller leaves it *)
Definition _extract_gfps (data : matrix F) : matrix F :=
  let gfp := map (fun t => std (col t data)) (seq 0 (n_cols data)) in
  let peaks := find_peaks gfp 2 in
  map (fun row => map (fun p => nth p row fzero) peaks) data.

End Peaks.

(** ** The front of fit: from the instance to the data matrix *)

Section FitInstance.
Context {F : Type} {NF : Num F}.
Variable Gen : Type.
Variable seeded : Z -> Gen.
Variable choice : Gen -> nat -> nat -> list nat * Gen.
Variable argsort : list F -> list nat.

(* What MNE hands over for the instance: the matrix of
   inst.get_data(start, stop, reject_by_annotation) for a Raw, the array
   of inst.get_data() for Epochs (shape (n_epochs, n_channels, n_times),
   held as one matrix per epoch), inst.data for an Evoked. *)
Inductive instance_data : Type :=
| Raw_data (data : matrix F)
| Epochs_data (n_channels n_times : nat) (epochs : list (matrix F))
| Evoked_data (data : matrix F).

(* n consecutive pieces of [size] entries *)
Fixpoint chunks {A} (n size : nat) (flat : list A) : list (list A) :=
  match n with
  | O => []
  | S n' => firstn size flat :: chunks n' size (skipn size flat)
  end.

(* a.reshape((n, -1)) on the entries of a in row-major order; without a
   row, or with entries left over, NumPy raises a ValueError *)
Definition reshape_rows (n : nat) (flat : list F) : result (matrix F) :=
  if Nat.eqb n 0 then Raise ValueError_broadcast
  else if negb (Nat.eqb (Nat.modulo (length flat) n) 0)
  then Raise ValueError_broadcast
  else Ok (chunks n (length flat / n) flat).

(* np.hstack of 2-D arrays: the rows side by side; it needs one array at
   least and the same number of rows in all *)
Definition hstack (ms : list (matrix F)) : result (matrix F) :=
  match ms with
  | [] => Raise ValueError_empty_arg
  | m :: rest =>
      if forallb (fun m' => Nat.eqb (n_rows m') (n_rows m)) rest
      then Ok (fold_left (fun acc m' => zip_with (@app F) acc m') rest m)
      else Raise ValueError_broadcast
  end.

(* lines 526-550: current_fit and the matrix given to _do_fit *)
Definition fit_data (inst : instance_data) (gfp : bool)
  : result (current_fit_t * matrix F) :=
  match inst with
  | Raw_data data =>
      Ok (fit_Raw, if gfp then _extract_gfps argsort data else data)
  | Evoked_data data =>
      Ok (fit_Evoked, if gfp then _extract_gfps argsort data else data)
  | Epochs_data n_channels n_times epochs =>
      if gfp then
        bind (hstack (map (_extract_gfps argsort) epochs)) (fun data =>
        bind (reshape_rows (n_cols data) (concat data)) (fun data' =>
        Ok (fit_Epochs, data')))
      else
        bind (reshape_rows n_channels (concat (map (@concat F) epochs)))
             (fun data' => Ok (fit_Epochs, data'))
  end.

(* ModKMeans.fit on an instance, n_jobs = 1 *)
Definition fit_instance (self : @ModKMeans F) (inst : instance_data)
    (gfp : bool) (ch_names : list string) (w : world Gen)
  : result (@ModKMeans F) * world Gen :=
  match fit_data inst gfp with
  | Raise e => (Raise e, w)
  | Ok (kind, data) => fit seeded choice self kind data ch_names w
  end.

End FitInstance.

(** ** Binary64 values of transform *)

(* -1.0 as a specification float *)
Definition SF_minus_one : spec_float := S754_finite true 4503599627370496 (-52).

(* a NaN, or a number between 0 and 1 *)
Definition unit_or_nan (x : float) : Prop :=
  isnan x = true \/ (fleb fzero x = true /\ fleb x fone = true).

(* the column of [one_hot Nu labels] of a sample whose label is l, in
   exact arithmetic: 1 at l, 0 elsewhere *)
Definition indicator (Nu l : nat) : list R :=
  map (fun k => if Nat.eqb k l then 1%R else 0%R) (seq 0 Nu).

(** ** Concrete inputs of the further properties *)

Module MoreInputs.

(* np.argsort for binary64, as a stable insertion sort of the positions *)
Fixpoint insert_by_value (p : float * nat) (l : list (float * nat))
  : list (float * nat) :=
  match l with
  | [] => [p]
  | q :: r => if PrimFloat.leb (fst p) (fst q) then p :: l
              else q :: insert_by_value p r
  end.

Definition argsort (l : list float) : list nat :=
  map snd (fold_right insert_by_value [] (combine l (seq 0 (length l)))).

End MoreInputs.

(** * Properties *)

(** ** Sorting and permutations of the order argument *)

Lemma insert_sorted_perm (x : Z) (l : list Z) :
  Permutation (insert_sorted x l) (x :: l).
Proof.
  induction l as [|y r IH]; simpl; [reflexivity|].
  destruct (Z.leb x y); [reflexivity|].
  rewrite IH. apply perm_swap.
Qed.

Lemma np_sort_perm (l : list Z) : Permutation (np_sort l) l.
Proof.
  induction l as [|x r IH]; simpl; [constructor|].
  rewrite insert_sorted_perm. now constructor.
Qed.

Lemma insert_sorted_sorted (x : Z) (l : list Z) :
  StronglySorted Z.le l -> StronglySorted Z.le (insert_sorted x l).
Proof.
  induction l as [|y r IH]; intros Hs; simpl.
  - constructor; constructor.
  - inversion Hs as [|? ? Hr Hall]; subst.
    destruct (Z.leb x y) eqn:E.
    + apply Z.leb_le in E. constructor; [assumption|].
      constructor; [assumption|].
      eapply Forall_impl; [|exact Hall]. intros; lia.
    + apply Z.leb_gt in E. constructor; [auto|].
      eapply Permutation_Forall; [symmetry; apply insert_sorted_perm|].
      constructor; [lia|assumption].
Qed.

Lemma np_sort_sorted (l : list Z) : StronglySorted Z.le (np_sort l).
Proof.
  induction l; simpl; [constructor|]. now apply insert_sorted_sorted.
Qed.

Lemma sorted_perm_unique (l l' : list Z) :
  StronglySorted Z.le l -> StronglySorted Z.le l' -> Permutation l l' -> l = l'.
Proof.
  revert l'. induction l as [|a r IH]; intros l' Hs Hs' Hp.
  - apply Permutation_nil in Hp. now subst.
  - destruct l' as [|b r'].
    + symmetry in Hp. apply Permutation_nil in Hp. discriminate.
    + inversion Hs as [|? ? Hr Ha]; inversion Hs' as [|? ? Hr' Hb]; subst.
      assert (a = b) as ->.
      { assert (In b (a :: r)) as Hin
          by (eapply Permutation_in; [symmetry; exact Hp | now left]).
        assert (In a (b :: r')) as Hin'
          by (eapply Permutation_in; [exact Hp | now left]).
        rewrite Forall_forall in Ha, Hb.
        destruct Hin as [->|Hin]; [reflexivity|].
        destruct Hin' as [->|Hin']; [reflexivity|].
        specialize (Ha _ Hin). specialize (Hb _ Hin'). lia. }
      f_equal. apply IH; auto. eapply Permutation_cons_inv; exact Hp.
Qed.

Lemma seq_sorted (a n : nat) :
  StronglySorted Z.le (map Z.of_nat (seq a n)).
Proof.
  revert a. induction n as [|n IH]; intros a; simpl; constructor; [apply IH|].
  rewrite Forall_forall. intros z Hz. apply in_map_iff in Hz.
  destruct Hz as [k [<- Hk]]. apply in_seq in Hk. lia.
Qed.

Lemma np_sort_eq_arange (order : list Z) (n : nat) :
  np_sort order = arange n <-> Permutation order (arange n).
Proof.
  split; intros H.
  - rewrite <- H. symmetry. apply np_sort_perm.
  - apply sorted_perm_unique.
    + apply np_sort_sorted.
    + apply seq_sorted.
    + rewrite np_sort_perm. exact H.
Qed.

Lemma arange_length (n : nat) : length (arange n) = n.
Proof. unfold arange. now rewrite length_map, length_seq. Qed.

Lemma np_sort_length (l : list Z) : length (np_sort l) = length l.
Proof. apply Permutation_length, np_sort_perm. Qed.

Lemma zip_ne_none (a b : list Z) :
  length a = length b ->
  existsb (fun x => x) (zip_with (fun x y => negb (Z.eqb x y)) a b) = false <-> a = b.
Proof.
  revert b. induction a as [|x a IH]; intros [|y b] Hl; simpl in *; try discriminate.
  - split; auto.
  - injection Hl as Hl. specialize (IH b Hl).
    rewrite orb_false_iff, negb_false_iff, Z.eqb_eq, IH.
    split; [intros [-> ->]; reflexivity | intros E; injection E; auto].
Qed.

(** ** reorder *)

Section ReorderFacts.
Context {F : Type} {NF : Num F}.

Lemma take_rows_ok {A} (m : list A) (order : list Z) :
  Forall (fun i => (0 <= i < Z.of_nat (length m))%Z) order ->
  exists c, take_rows order m = Ok c /\
            map Some c = map (fun i => nth_error m (Z.to_nat i)) order.
Proof.
  induction order as [|i rest IH]; intros Hall; simpl.
  - exists []. split; reflexivity.
  - inversion Hall as [|? ? Hi Hrest]; subst.
    destruct (IH Hrest) as [c [Hc Hmap]].
    assert (Z.ltb i 0 = false) as Hi0 by (apply Z.ltb_ge; lia).
    cbv zeta. rewrite !Hi0.
    destruct (nth_error m (Z.to_nat i)) as [r|] eqn:E.
    + rewrite Hc. simpl. exists (r :: c). split; [reflexivity|].
      simpl. now rewrite Hmap.
    + apply nth_error_None in E. lia.
Qed.

Lemma nth_error_seq_all {A} (pre m : list A) :
  map (fun i => nth_error (pre ++ m) (Z.to_nat i))
      (map Z.of_nat (seq (length pre) (length m))) = map Some m.
Proof.
  revert pre. induction m as [|x m IH]; intros pre; simpl; [reflexivity|].
  rewrite Nat2Z.id. rewrite nth_error_app2 by lia. rewrite Nat.sub_diag. simpl.
  f_equal. specialize (IH (pre ++ [x])).
  rewrite <- app_assoc in IH. simpl in IH.
  rewrite length_app in IH. simpl in IH.
  replace (length pre + 1) with (S (length pre)) in IH by lia. exact IH.
Qed.

Lemma map_Some_inj {A} (a b : list A) : map Some a = map Some b -> a = b.
Proof.
  revert b. induction a as [|x a IH]; intros [|y b] H; simpl in *;
    try discriminate; [reflexivity|].
  injection H as -> H. f_equal. now apply IH.
Qed.

(* a permutation of all the row indices moves the rows and keeps them all *)
Lemma take_rows_permutation {A} (m : list A) (order : list Z) :
  Permutation order (arange (length m)) ->
  exists c, take_rows order m = Ok c /\ Permutation c m.
Proof.
  intros Hp.
  assert (Forall (fun i => (0 <= i < Z.of_nat (length m))%Z) order) as Hall.
  { rewrite Forall_forall. intros i Hi.
    eapply Permutation_in in Hi; [|exact Hp].
    unfold arange in Hi. apply in_map_iff in Hi.
    destruct Hi as [k [<- Hk]]. apply in_seq in Hk. lia. }
  destruct (take_rows_ok m Hall) as [c [Hc Hmap]].
  exists c. split; [exact Hc|].
  pose proof (nth_error_seq_all [] m) as Hseq. simpl in Hseq.
  assert (Permutation (map Some c) (map Some m)) as Hpm.
  { rewrite Hmap, <- Hseq. apply Permutation_map. exact Hp. }
  apply Permutation_map_inv in Hpm. destruct Hpm as [l3 [E Hp3]].
  apply map_Some_inj in E. subst l3. now symmetry.
Qed.

(* Whatever reorder does, a raise leaves the object as it was. *)
Lemma reorder_raise_unchanged (self : @ModKMeans F) (order : list Z) (e : exn) :
  fst (reorder self order) = Raise e -> snd (reorder self order) = self.
Proof.
  unfold reorder.
  destruct (_check_fit self); [|reflexivity].
  destruct (ne_broadcast _ _); [|reflexivity].
  destruct (existsb _ _); [reflexivity|].
  destruct (cluster_centers self); [|reflexivity].
  destruct (take_rows _ _); simpl; [discriminate|reflexivity].
Qed.

(* With two or more clusters the check is exact: reorder raises exactly
   on the orders that are not a permutation of 0 .. K-1. *)
Lemma reorder_raises_iff (self : @ModKMeans F) (order : list Z) (c : matrix F) :
  2 <= n_clusters self ->
  current_fit self <> unfitted ->
  cluster_centers self = Some c ->
  length c = n_clusters self ->
  (exists e, fst (reorder self order) = Raise e) <->
  ~ Permutation order (arange (n_clusters self)).
Proof.
  intros HK Hfit Hc Hlen. unfold reorder, _check_fit.
  destruct (current_fit self) eqn:Ef; [congruence| | |];
    unfold ne_broadcast; rewrite np_sort_length, arange_length, Hc.
  all: destruct (Nat.eqb (length order) (n_clusters self)) eqn:El.
  all: try (apply Nat.eqb_eq in El;
    destruct (existsb (fun b => b) _) eqn:Ex;
    [ split; [intros _ Hp | intros _; eexists; reflexivity];
      apply np_sort_eq_arange in Hp;
      apply zip_ne_none in Hp;
        [congruence | now rewrite np_sort_length, arange_length]
    | apply zip_ne_none in Ex; [|now rewrite np_sort_length, arange_length];
      apply np_sort_eq_arange in Ex;
      destruct (@take_rows_permutation _ c order) as [c' [Ht _]];
        [now rewrite Hlen|];
      rewrite Ht; simpl; split; [intros [e He]; discriminate | tauto] ]).
  all: apply Nat.eqb_neq in El;
    assert (~ Permutation order (arange (n_clusters self))) as Hnp
      by (intros Hp; apply Permutation_length in Hp;
          rewrite arange_length in Hp; congruence).
  all: destruct (Nat.eqb (length order) 1) eqn:E1.
  all: try (split; [tauto|intros _];
    assert (existsb (fun b => b)
              (map (fun y => negb (Z.eqb (hd 0%Z (np_sort order)) y))
                   (arange (n_clusters self))) = true) as ->;
    [ destruct (n_clusters self) as [|[|k]] eqn:EK; try lia;
      unfold arange; simpl;
      destruct (Z.eqb (hd 0%Z (np_sort order)) 0) eqn:E0; simpl; [|reflexivity];
      apply Z.eqb_eq in E0; rewrite E0; reflexivity
    | eexists; reflexivity ]).
  all: assert (Nat.eqb (n_clusters self) 1 = false) as ->
         by (apply Nat.eqb_neq; lia).
  all: split; [tauto | intros _; eexists; reflexivity].
Qed.

(* A successful reorder touches cluster_centers only, and with the order
   a permutation of the row indices it keeps every row. *)
Lemma reorder_frame (self self' : @ModKMeans F) (order : list Z) :
  reorder self order = (Ok tt, self') ->
  n_clusters self' = n_clusters self /\
  current_fit self' = current_fit self /\
  GEV self' = GEV self /\
  info self' = info self /\
  labels self' = labels self /\
  exists c c', cluster_centers self = Some c /\
               cluster_centers self' = Some c' /\
               (Permutation order (arange (length c)) -> Permutation c' c).
Proof.
  unfold reorder.
  destruct (_check_fit self); [|intros H; discriminate].
  destruct (ne_broadcast _ _); [|intros H; discriminate].
  destruct (existsb _ _); [intros H; discriminate|].
  destruct (cluster_centers self) as [c|] eqn:Ec; [|intros H; discriminate].
  destruct (take_rows order c) as [c'|] eqn:Et; [|intros H; discriminate].
  intros H. injection H as <-. simpl.
  repeat (split; [reflexivity|]).
  exists c, c'. repeat split.
  intros Hp. destruct (take_rows_permutation c Hp) as [c'' [Ht Hp']].
  rewrite Ht in Et. injection Et as <-. exact Hp'.
Qed.

End ReorderFacts.

(** C10. The claim: reorder raises an invalid-order error exactly when the
    order is not a permutation of 0 .. K-1.  With a single cluster
    (K = 1) the comparison of the sorted order with arange(1) is
    broadcast, so the order [0, 0], which is no permutation of [0], is
    accepted and the one center is stored twice. *)
Theorem reorder_accepts_repeated_index :
  forall (F : Type) (NF : Num F) (r : list F) (g : option F)
         (names : option (list string)) (rs : random_state_t)
         (ni mi : nat) (tl : F) (lb : option (list nat)),
    let self := mkModKMeans 1 fit_Raw (Some [r]) g names rs ni mi tl lb in
    ~ Permutation [0; 0]%Z (arange (n_clusters self)) /\
    reorder self [0; 0]%Z = (Ok tt, set_cluster_centers self [r; r]).
Proof.
  intros. split.
  - intros Hp. apply Permutation_length in Hp. discriminate.
  - reflexivity.
Qed.

(** ** smart_reorder *)

(* Whatever smart_reorder does, it touches cluster_centers only. *)
Lemma smart_reorder_frame {F : Type} {NF : Num F} (self : @ModKMeans F) :
  let self' := snd (smart_reorder self) in
  n_clusters self' = n_clusters self /\
  current_fit self' = current_fit self /\
  GEV self' = GEV self /\
  info self' = info self /\
  labels self' = labels self.
Proof.
  unfold smart_reorder.
  destruct (_check_fit self); [|simpl; tauto].
  destruct (cluster_centers self) as [centers|]; [|simpl; tauto].
  destruct (info self) as [ch_names|] eqn:Ei; [|simpl; rewrite Ei; tauto].
  cbv zeta.
  destruct (Nat.leb _ 10); [simpl; rewrite Ei; tauto|].
  destruct (greedy_match _ _ _ _) as [[rows columns]|e];
    [|simpl; rewrite Ei; tauto].
  destruct (take_rows _ centers); simpl; rewrite Ei; tauto.
Qed.

Lemma insert_pair_perm (p : nat * nat) (l : list (nat * nat)) :
  Permutation (insert_pair p l) (p :: l).
Proof.
  induction l as [|q r IH]; simpl; [reflexivity|].
  destruct (pair_leb p q); [reflexivity|].
  rewrite IH. apply perm_swap.
Qed.

Lemma sorted_pairs_perm (l : list (nat * nat)) : Permutation (sorted_pairs l) l.
Proof.
  induction l as [|p r IH]; simpl; [constructor|].
  rewrite insert_pair_perm. now constructor.
Qed.

Lemma map_snd_combine {A B} (u : list A) (v : list B) :
  length u = length v -> map snd (combine u v) = v.
Proof.
  revert v. induction u as [|a u IH]; intros [|b v] H; simpl in *;
    try discriminate; [reflexivity|].
  f_equal. apply IH. lia.
Qed.

(* When the matching has taken no column twice, the order of line 428 is
   a permutation of the row indices. *)
Lemma matched_order_permutation (rows columns : list nat) (K : nat) :
  length rows = length columns ->
  NoDup columns ->
  Forall (fun c => c < K) columns ->
  Permutation (matched_order rows columns K) (seq 0 K).
Proof.
  intros Hlen Hnd Hlt. unfold matched_order.
  set (order := map snd (sorted_pairs (combine rows columns))).
  assert (Hperm : Permutation order columns).
  { unfold order. rewrite sorted_pairs_perm. now rewrite map_snd_combine. }
  apply NoDup_Permutation.
  - apply NoDup_app.
    + eapply Permutation_NoDup; [symmetry; exact Hperm|exact Hnd].
    + apply NoDup_filter, seq_NoDup.
    + intros x Hx Hf. apply filter_In in Hf. destruct Hf as [_ Hf].
      apply negb_true_iff in Hf.
      assert (existsb (Nat.eqb x) order = true) as Ht.
      { apply existsb_exists. exists x. split; [exact Hx|apply Nat.eqb_refl]. }
      congruence.
  - apply seq_NoDup.
  - intros x. split.
    + intros Hx. apply in_app_or in Hx. destruct Hx as [Hx | Hx].
      * eapply Permutation_in in Hx; [|exact Hperm].
        rewrite Forall_forall in Hlt. specialize (Hlt x Hx).
        apply in_seq. lia.
      * apply filter_In in Hx. tauto.
    + intros Hx. apply in_or_app.
      destruct (existsb (Nat.eqb x) order) eqn:E.
      * left. apply existsb_exists in E. destruct E as [y [Hy Hxy]].
        apply Nat.eqb_eq in Hxy. now subst.
      * right. apply filter_In. split; [exact Hx|]. now rewrite E.
Qed.

(** C9. The claim: reorder and smart_reorder only permute the rows of the
    center matrix.  smart_reorder looks the maximum of the remaining
    sub-matrix up in the whole matrix, so with two centers that are each
    other's negation (equal absolute correlations) the second round
    finds column 0 again: the order becomes [0, 0, 1] and the model
    ends with three rows, the first center twice. *)
Theorem smart_reorder_repeats_center :
  smart_reorder (Inputs.fitted 2 [Inputs.center_a; Inputs.center_b] Inputs.names11)
  = (Ok tt, Inputs.fitted 2 [Inputs.center_a; Inputs.center_a; Inputs.center_b]
              Inputs.names11)
  /\ ~ Permutation [Inputs.center_a; Inputs.center_a; Inputs.center_b]
                   [Inputs.center_a; Inputs.center_b].
Proof.
  split.
  - vm_compute. reflexivity.
  - intros Hp. apply Permutation_length in Hp. discriminate.
Qed.

(** ** Restarts and the random source *)

Section RestartFacts.
Context {F : Type} {NF : Num F}.
Variable Gen : Type.
Variable seeded : Z -> Gen.
Variable choice : Gen -> nat -> nat -> list nat * Gen.

(* an integer seed: a new generator in every call, the world untouched *)
Lemma draw_init_times_int (seed : Z) (n k : nat) (w : world Gen) :
  draw_init_times seeded choice (RS_int seed) n k w
  = (if Nat.ltb n k then Raise ValueError_sample_larger
     else Ok (fst (choice (seeded seed) n k)), w).
Proof.
  unfold draw_init_times. simpl.
  destruct (Nat.ltb n k); [reflexivity|].
  destruct (choice (seeded seed) n k); reflexivity.
Qed.

(* a RandomState object: the draw comes from its state and advances it *)
Lemma draw_init_times_instance (n k : nat) (w : world Gen) :
  Nat.ltb n k = false ->
  draw_init_times seeded choice RS_instance n k w
  = (Ok (fst (choice (instance_state w) n k)),
     World (snd (choice (instance_state w) n k)) (os_entropy w)).
Proof.
  intros H. unfold draw_init_times. simpl. rewrite H.
  destruct (choice (instance_state w) n k); reflexivity.
Qed.

(* too few samples: every call of _compute_maps raises at the draw *)
Lemma compute_maps_too_few_samples (data : matrix F) (K mi : nat) (th : F)
    (rs : random_state_t) (w : world Gen) :
  n_cols data < K ->
  fst (_compute_maps seeded choice data K mi th rs w)
  = Raise ValueError_sample_larger.
Proof.
  intros H. unfold _compute_maps, draw_init_times.
  destruct (resolve_random_state seeded rs w) as [g store].
  apply Nat.ltb_lt in H. rewrite H. reflexivity.
Qed.

End RestartFacts.

(** C8. The claim: with an explicit seed every restart draws its own
    initialization from the shared seeded source.  With an integer seed
    _compute_maps builds RandomState(seed) anew in every call (lines
    44-45), so a restart neither sees nor changes any shared state:
    whatever the world, it returns the same run, from the same initial
    draw, and leaves the world as it found it. *)
Theorem integer_seed_restarts_coincide :
  forall (F : Type) (NF : Num F) (Gen : Type) (seeded : Z -> Gen)
         (choice : Gen -> nat -> nat -> list nat * Gen)
         (K : nat) (kind : current_fit_t) (cc : option (matrix F))
         (g : option F) (names : option (list string)) (seed : Z)
         (ni mi : nat) (tl : F) (lb : option (list nat))
         (data : matrix F) (w w' : world Gen),
    let self := mkModKMeans K kind cc g names (RS_int seed) ni mi tl lb in
    draw_init_times seeded choice (random_state self) (n_cols data) K w
      = (fst (draw_init_times seeded choice (random_state self) (n_cols data) K w'), w)
    /\ _run_mod_kmeans seeded choice self data w
      = (fst (_run_mod_kmeans seeded choice self data w'), w).
Proof.
  intros. subst self.
  unfold _run_mod_kmeans, _compute_maps. simpl.
  rewrite !draw_init_times_int.
  destruct (Nat.ltb (n_cols data) K); split; reflexivity.
Qed.

(** ** The multi-restart selection *)

Section SelectionFacts.
Context {F : Type} {NF : Num F}.
Variable Gen : Type.
Variable seeded : Z -> Gen.
Variable choice : Gen -> nat -> nat -> list nat * Gen.

(* the loop of _do_fit is the comparison folded over the restarts *)
Lemma fit_loop_restarts (n : nat) (self : @ModKMeans F) (data : matrix F)
    (bg : F) (b : option (@run F)) (w : world Gen) :
  fit_loop seeded choice n self data bg b w
  = match restarts seeded choice n self data w with
    | (Raise e, w') => (Raise e, w')
    | (Ok l, w') => (Ok (select_best bg b l), w')
    end.
Proof.
  revert bg b w. induction n as [|n IH]; intros bg b w; simpl; [reflexivity|].
  destruct (_run_mod_kmeans seeded choice self data w) as [[r|e] w1];
    [|reflexivity].
  destruct (fltb bg (run_gev r)) eqn:E; rewrite IH;
    destruct (restarts seeded choice n self data w1) as [[l|e] w2];
    simpl; rewrite ?E; reflexivity.
Qed.

Lemma fit_loop_first_raises (n : nat) (self : @ModKMeans F) (data : matrix F)
    (bg : F) (b : option (@run F)) (w : world Gen) (e : exn) :
  fst (_run_mod_kmeans seeded choice self data w) = Raise e ->
  fst (fit_loop seeded choice (S n) self data bg b w) = Raise e.
Proof.
  simpl. destruct (_run_mod_kmeans seeded choice self data w) as [[r|e'] w1];
    simpl; intros H; [discriminate|congruence].
Qed.

End SelectionFacts.

Lemma Rltb_lt (x y : R) : Rltb x y = true <-> (x < y)%R.
Proof. unfold Rltb. destruct (Rlt_dec x y); split; auto; discriminate. Qed.

Lemma Rltb_ge (x y : R) : Rltb x y = false <-> (y <= x)%R.
Proof.
  unfold Rltb. destruct (Rlt_dec x y); split; auto; try discriminate; lra.
Qed.

Lemma Rleb_le (x y : R) : Rleb x y = true <-> (x <= y)%R.
Proof. unfold Rleb. destruct (Rle_dec x y); split; auto; discriminate. Qed.

Lemma Rleb_gt (x y : R) : Rleb x y = false <-> (y < x)%R.
Proof.
  unfold Rleb. destruct (Rle_dec x y); split; auto; try discriminate; lra.
Qed.

(* In exact arithmetic the comparison keeps the first run of strictly
   highest GEV among those above the starting value. *)
Lemma select_best_spec (l : list (@run R)) (bg : R) (b : option (@run R)) :
  let '(g, o) := select_best bg b l in
  (bg <= g)%R /\
  (forall x, In x l -> (run_gev x <= g)%R) /\
  ((o = b /\ g = bg) \/
   exists pre r post,
     l = pre ++ r :: post /\ o = Some r /\ g = run_gev r /\
     (bg < run_gev r)%R /\
     forall x, In x pre -> (run_gev x < run_gev r)%R).
Proof.
  revert bg b. induction l as [|x l IH]; intros bg b; simpl.
  - split; [lra|]. split; [tauto|]. left. split; reflexivity.
  - change (@fltb R Num_R) with Rltb.
    destruct (Rltb bg (run_gev x)) eqn:E.
    + apply Rltb_lt in E. specialize (IH (run_gev x) (Some x)).
      destruct (select_best (run_gev x) (Some x) l) as [g o].
      destruct IH as [Hle [Hall Hcase]].
      split; [lra|]. split.
      * intros y [<-|Hy]; [exact Hle | now apply Hall].
      * right. destruct Hcase as [[-> ->] | [pre [r [post [-> [-> [-> [Hlt Hpre]]]]]]]].
        -- exists [], x, l. repeat split; auto. intros y [].
        -- exists (x :: pre), r, post. repeat split; auto; [lra|].
           intros y [<-|Hy]; [exact Hlt | now apply Hpre].
    + apply Rltb_ge in E. specialize (IH bg b).
      destruct (select_best bg b l) as [g o].
      destruct IH as [Hle [Hall Hcase]].
      split; [exact Hle|]. split.
      * intros y [<-|Hy]; [lra | now apply Hall].
      * destruct Hcase as [[-> ->] | [pre [r [post [-> [-> [-> [Hlt Hpre]]]]]]]].
        -- left. split; reflexivity.
        -- right. exists (x :: pre), r, post. repeat split; auto.
           intros y [<-|Hy]; [lra | now apply Hpre].
Qed.

(* _do_fit (n_jobs = 1) in exact arithmetic: as soon as one restart has
   a positive GEV, the run returned is the first one of strictly highest
   GEV. *)
Lemma do_fit_returns_first_best
    (Gen : Type) (seeded : Z -> Gen)
    (choice : Gen -> nat -> nat -> list nat * Gen)
    (self : @ModKMeans R) (data : matrix R) (w w' : world Gen)
    (l : list (@run R)) :
  restarts seeded choice (n_init self) self data w = (Ok l, w') ->
  (exists x, In x l /\ (0 < run_gev x)%R) ->
  exists pre r post,
    l = pre ++ r :: post /\
    _do_fit seeded choice self data w = (Ok r, w') /\
    (forall x, In x pre -> (run_gev x < run_gev r)%R) /\
    (forall x, In x post -> (run_gev x <= run_gev r)%R).
Proof.
  intros Hr [x [Hx Hpos]]. unfold _do_fit.
  rewrite fit_loop_restarts, Hr.
  pose proof (select_best_spec l 0%R None) as Hs.
  change (@fzero R Num_R) with 0%R.
  destruct (select_best 0%R None l) as [g o].
  destruct Hs as [_ [Hall Hcase]].
  destruct Hcase as [[-> ->] | [pre [r [post [-> [-> [-> [Hlt Hpre]]]]]]]].
  - specialize (Hall x Hx). lra.
  - exists pre, r, post. repeat split; auto.
    intros y Hy. apply Hall. apply in_or_app. right. now right.
Qed.

(** C2. The claim: the fit returns the restart of strictly highest GEV, the
    first one among equals.  best_gev starts at 0 and a run is kept only
    when its GEV is above it (line 569), so when no restart has a
    positive GEV nothing is ever kept and line 580 reads unbound
    variables.  Two channels carrying the same signal give every restart
    the GEV 0: the restart exists, and the fit raises instead of
    returning it. *)
Theorem fit_raises_when_best_gev_is_zero :
  let self := Inputs.unfitted_model 2 (RS_int 42) 3 in
  exists r,
    fst (_run_mod_kmeans Inputs.toy_seeded Inputs.toy_choice self
           Inputs.twin_channels Inputs.toy_world) = Ok r
    /\ run_gev r = 0%float
    /\ fst (_do_fit Inputs.toy_seeded Inputs.toy_choice self
              Inputs.twin_channels Inputs.toy_world) = Raise UnboundLocalError.
Proof.
  eexists. split; [vm_compute; reflexivity|].
  split; vm_compute; reflexivity.
Qed.

(** ** Preconditions of fit *)

(** C7, as amended.  With fewer samples than clusters and at least one
    restart, fit raises the ValueError of the initial draw, whatever the
    data, the arithmetic and the random source. *)
Theorem fit_too_few_samples_raises :
  forall (F : Type) (NF : Num F) (Gen : Type) (seeded : Z -> Gen)
         (choice : Gen -> nat -> nat -> list nat * Gen)
         (self : @ModKMeans F) (kind : current_fit_t) (data : matrix F)
         (ch_names : list string) (w : world Gen),
    n_cols data < n_clusters self ->
    1 <= n_init self ->
    fst (fit seeded choice self kind data ch_names w)
    = Raise ValueError_sample_larger.
Proof.
  intros F NF Gen seeded choice self kind data ch_names w HT Hn.
  assert (Hrun : fst (_run_mod_kmeans seeded choice self data w)
                 = Raise ValueError_sample_larger).
  { unfold _run_mod_kmeans.
    pose proof (compute_maps_too_few_samples seeded choice data
                  (max_iter self) (tol self) (random_state self) w HT) as Hc.
    destruct (_compute_maps seeded choice data (n_clusters self)
                (max_iter self) (tol self) (random_state self) w) as [r w2].
    simpl in *. rewrite Hc. reflexivity. }
  unfold fit, _do_fit.
  destruct (n_init self) as [|n] eqn:En; [lia|].
  pose proof (fit_loop_first_raises seeded choice n self data fzero None w
                Hrun) as H.
  destruct (fit_loop seeded choice (S n) self data fzero None w)
    as [[[g o]|e] w1]; simpl in H; [discriminate|].
  simpl. congruence.
Qed.

Lemma fit_too_few_samples_raises_witness :
  fst (fit Inputs.toy_seeded Inputs.toy_choice
         (Inputs.unfitted_model 3 (RS_int 42) 2) fit_Raw
         Inputs.twin_channels [] Inputs.toy_world)
  = Raise ValueError_sample_larger.
Proof.
  apply fit_too_few_samples_raises; cbv; lia.
Defined.

(** C7, the claim as stated fails: a recording with one channel (C < 2)
    does not make fit raise a dimension error.  No check looks at the
    number of channels; the restarts run, every GEV is 0, and the call
    ends in the UnboundLocalError of line 580. *)
Lemma fit_one_channel_no_dimension_error :
  n_rows Inputs.one_channel < 2 /\
  fst (fit Inputs.toy_seeded Inputs.toy_choice
         (Inputs.unfitted_model 1 (RS_int 42) 2) fit_Raw
         Inputs.one_channel [] Inputs.toy_world) = Raise UnboundLocalError /\
  Inputs.dimension_error UnboundLocalError = false.
Proof.
  split; [simpl; lia|]. split; [vm_compute; reflexivity|reflexivity].
Qed.

(** ** The boundary rule of _segment *)

Lemma set_nth_length {A} (i : nat) (a : A) (l : list A) :
  length (set_nth i a l) = length l.
Proof.
  revert i. induction l as [|x l IH]; intros [|i]; simpl; auto.
Qed.

Lemma set_nth_app_here {A} (pre : list A) (x a : A) (r : list A) :
  set_nth (length pre) a (pre ++ x :: r) = pre ++ a :: r.
Proof. induction pre as [|y pre IH]; simpl; [reflexivity|now rewrite IH]. Qed.

Lemma nth_app_here {A} (pre : list A) (x d : A) (r : list A) :
  nth (length pre) (pre ++ x :: r) d = x.
Proof. induction pre; simpl; auto. Qed.

Lemma repeat_snoc {A} (a : A) (n : nat) : repeat a n ++ [a] = repeat a (S n).
Proof. induction n; simpl; [reflexivity|now rewrite IHn]. Qed.

(* the first loop on a run of k labels a that something else follows *)
Lemma unlabel_first_run (k fuel i a b : nat) (rest : list nat) :
  b <> a -> k <= fuel ->
  unlabel_first fuel i a (repeat 0 i ++ repeat a k ++ b :: rest)
  = repeat 0 (i + k) ++ b :: rest.
Proof.
  intros Hb. revert fuel i. induction k as [|k IH]; intros fuel i Hk.
  - simpl. rewrite Nat.add_0_r. destruct fuel; simpl; [reflexivity|].
    replace i with (length (repeat 0 i)) at 1 by apply repeat_length.
    rewrite nth_app_here.
    apply Nat.eqb_neq in Hb. rewrite Hb. reflexivity.
  - destruct fuel as [|fuel]; [lia|]. simpl.
    replace i with (length (repeat 0 i)) at 1 by apply repeat_length.
    rewrite nth_app_here, Nat.eqb_refl. simpl.
    assert (Nat.ltb i (length (repeat 0 i ++ a :: repeat a k ++ b :: rest) - 1) = true) as ->.
    { apply Nat.ltb_lt. rewrite length_app, repeat_length. simpl.
      rewrite length_app. simpl. lia. }
    replace i with (length (repeat 0 i)) at 2 by apply repeat_length.
    rewrite set_nth_app_here.
    replace (repeat 0 i ++ 0 :: repeat a k ++ b :: rest)
      with (repeat 0 (S i) ++ repeat a k ++ b :: rest).
    + rewrite IH by lia. f_equal. f_equal. lia.
    + rewrite <- repeat_snoc, <- app_assoc. reflexivity.
Qed.

(* the first loop on a sequence that is one run: the last label stays *)
Lemma unlabel_first_constant (k fuel i a : nat) :
  a <> 0 -> k <= fuel ->
  unlabel_first fuel i a (repeat 0 i ++ repeat a (S k))
  = repeat 0 (i + k) ++ [a].
Proof.
  intros Ha. revert fuel i. induction k as [|k IH]; intros fuel i Hk.
  - rewrite Nat.add_0_r. destruct fuel; simpl; [reflexivity|].
    replace i with (length (repeat 0 i)) at 1 by apply repeat_length.
    rewrite nth_app_here, Nat.eqb_refl. simpl.
    assert (Nat.ltb i (length (repeat 0 i ++ [a]) - 1) = false) as ->.
    { apply Nat.ltb_ge. rewrite length_app, repeat_length. simpl. lia. }
    reflexivity.
  - destruct fuel as [|fuel]; [lia|].
    change (repeat a (S (S k))) with (a :: repeat a (S k)).
    cbn [unlabel_first].
    replace i with (length (repeat 0 i)) at 1 by apply repeat_length.
    rewrite nth_app_here, Nat.eqb_refl. cbn [andb].
    assert (Nat.ltb i (length (repeat 0 i ++ a :: repeat a (S k)) - 1) = true) as ->.
    { apply Nat.ltb_lt. rewrite length_app, repeat_length. simpl.
      rewrite repeat_length. lia. }
    replace i with (length (repeat 0 i)) at 2 by apply repeat_length.
    rewrite set_nth_app_here.
    replace (repeat 0 i ++ 0 :: repeat a (S k))
      with (repeat 0 (S i) ++ repeat a (S k)).
    + rewrite IH by lia. f_equal. f_equal. lia.
    + rewrite <- repeat_snoc, <- app_assoc. reflexivity.
Qed.

Lemma repeat_app_assoc_one {A} (a : A) (k : nat) (r : list A) :
  repeat a (S k) ++ r = repeat a k ++ a :: r.
Proof. rewrite <- repeat_snoc, <- app_assoc. reflexivity. Qed.

Lemma nth_last {A} (l : list A) (d : A) : nth (length l - 1) l d = last l d.
Proof.
  induction l as [|x [|y l] IH]; simpl in *; auto.
  rewrite Nat.sub_0_r in IH. exact IH.
Qed.

(* the second loop on a run of k labels c at the back, after something
   that does not end in c *)
Lemma unlabel_last_run (k fuel c j : nat) (pre : list nat) :
  pre <> [] -> last pre 0 <> c -> k <= fuel ->
  unlabel_last fuel (length pre + k - 1) c (pre ++ repeat c k ++ repeat 0 j)
  = pre ++ repeat 0 (k + j).
Proof.
  intros Hne Hlast. revert fuel j. induction k as [|k IH]; intros fuel j Hk.
  - simpl. destruct fuel; simpl; [reflexivity|].
    assert (nth (length pre + 0 - 1) (pre ++ repeat 0 j) 0 = last pre 0) as ->.
    { rewrite Nat.add_0_r. rewrite app_nth1.
      - apply nth_last.
      - destruct pre; [congruence|simpl; lia]. }
    apply Nat.eqb_neq in Hlast. rewrite Hlast. reflexivity.
  - destruct fuel as [|fuel]; [lia|].
    rewrite repeat_app_assoc_one. cbn [unlabel_last].
    replace (length pre + S k - 1) with (length (pre ++ repeat c k))
      by (rewrite length_app, repeat_length; lia).
    rewrite app_assoc. rewrite nth_app_here, Nat.eqb_refl. cbn [andb].
    assert (Nat.ltb 0 (length (pre ++ repeat c k)) = true) as ->.
    { apply Nat.ltb_lt. rewrite length_app. destruct pre; [congruence|simpl; lia]. }
    rewrite set_nth_app_here.
    rewrite <- app_assoc.
    change (0 :: repeat 0 j) with (repeat 0 (S j)).
    replace (length (pre ++ repeat c k) - 1) with (length pre + k - 1)
      by (rewrite length_app, repeat_length; lia).
    rewrite IH by lia. f_equal. f_equal. lia.
Qed.

Lemma leading_run_split (a : nat) (l : list nat) :
  l = repeat a (leading_run a l) ++ skipn (leading_run a l) l /\
  hd_error (skipn (leading_run a l) l) <> Some a.
Proof.
  induction l as [|x l [IH1 IH2]]; simpl.
  - split; [reflexivity|discriminate].
  - destruct (Nat.eqb x a) eqn:E.
    + apply Nat.eqb_eq in E. subst x. simpl. split; [now rewrite <- IH1|exact IH2].
    + apply Nat.eqb_neq in E. simpl. split; [reflexivity|congruence].
Qed.

Lemma leading_run_repeat (a n : nat) (r : list nat) :
  hd_error r <> Some a -> leading_run a (repeat a n ++ r) = n.
Proof.
  intros Hr. induction n as [|n IH]; simpl.
  - destruct r as [|b r]; simpl; [reflexivity|].
    destruct (Nat.eqb b a) eqn:E; [|reflexivity].
    apply Nat.eqb_eq in E. subst. simpl in Hr. congruence.
  - now rewrite Nat.eqb_refl, IH.
Qed.

Lemma rev_repeat_same {A} (a : A) (n : nat) : rev (repeat a n) = repeat a n.
Proof.
  induction n as [|n IH]; [reflexivity|].
  simpl. rewrite IH. apply repeat_snoc.
Qed.

Lemma hd_error_rev_last (l : list nat) (c : nat) :
  hd_error (rev l) <> Some c -> l = [] \/ last l 0 <> c.
Proof.
  destruct l as [|x l] using rev_ind; [now left|].
  intros H. right. rewrite rev_app_distr in H. simpl in H.
  rewrite last_last. congruence.
Qed.

Lemma hd_rev_last (l : list nat) : hd 0 (rev l) = last l 0.
Proof.
  destruct l as [|x l] using rev_ind; [reflexivity|].
  rewrite rev_app_distr, last_last. reflexivity.
Qed.

Lemma last_app_nonempty {A} (u v : list A) (d : A) :
  v <> [] -> last (u ++ v) d = last v d.
Proof.
  intros Hv. induction u as [|x u IH]; [reflexivity|].
  simpl. destruct (u ++ v) eqn:E; [|exact IH].
  apply app_eq_nil in E. destruct E; congruence.
Qed.

(* a sequence is one single run, or a front run, a middle and a back run *)
Lemma runs_split (l : list nat) :
  l <> [] ->
  (l = repeat (hd 0 l) (length l) /\ first_run l = length l)
  \/ exists mid,
       l = repeat (hd 0 l) (first_run l) ++ mid ++ repeat (last l 0) (last_run l) /\
       1 <= first_run l /\ 1 <= last_run l /\
       (mid = [] \/ last mid 0 <> last l 0) /\
       hd_error (mid ++ repeat (last l 0) (last_run l)) <> Some (hd 0 l).
Proof.
  intros Hne. unfold first_run.
  set (a := hd 0 l). set (n := leading_run a l).
  destruct (leading_run_split a l) as [Hl Hrest]. fold n in Hl, Hrest.
  destruct (skipn n l) as [|b r'] eqn:Er.
  - left. rewrite app_nil_r in Hl.
    assert (Hlen : length l = n).
    { apply (f_equal (@length nat)) in Hl. now rewrite repeat_length in Hl. }
    rewrite Hlen. split; [exact Hl|reflexivity].
  - right. simpl in Hrest.
    assert (Hba : b <> a) by congruence.
    assert (Hn : 1 <= n).
    { subst n a. destruct l as [|x l]; [congruence|]. simpl.
      rewrite Nat.eqb_refl. lia. }
    set (rest := b :: r') in *.
    assert (Hlast : last l 0 = last rest 0).
    { rewrite Hl. apply last_app_nonempty. discriminate. }
    set (c := last rest 0) in *.
    destruct (leading_run_split c (rev rest)) as [Hrev Hrest2].
    set (m := leading_run c (rev rest)) in *.
    set (rest2 := skipn m (rev rest)) in *.
    assert (Hrest_eq : rest = rev rest2 ++ repeat c m).
    { rewrite <- (rev_involutive rest), Hrev, rev_app_distr, rev_repeat_same.
      reflexivity. }
    assert (Hm : 1 <= m).
    { subst m. destruct (rev rest) as [|x xs] eqn:Ex.
      - apply (f_equal (@rev nat)) in Ex. rewrite rev_involutive in Ex.
        discriminate.
      - assert (x = c).
        { pose proof (hd_rev_last rest) as H. rewrite Ex in H. exact H. }
        subst x. simpl. rewrite Nat.eqb_refl. lia. }
    assert (Hac : rest2 = [] -> a <> c).
    { intros E. rewrite E in Hrest_eq. simpl in Hrest_eq.
      destruct m as [|m']; [lia|]. simpl in Hrest_eq.
      unfold rest in Hrest_eq. injection Hrest_eq as Hb _. congruence. }
    assert (Hlr : last_run l = m).
    { unfold last_run, first_run. rewrite hd_rev_last, Hlast.
      rewrite Hl at 1. rewrite rev_app_distr, Hrev, rev_repeat_same.
      rewrite <- app_assoc. apply leading_run_repeat.
      destruct rest2 as [|x xs] eqn:E2; [|exact Hrest2].
      destruct n as [|n']; [lia|]. simpl.
      specialize (Hac eq_refl). congruence. }
    exists (rev rest2). rewrite Hlr, Hlast.
    split; [rewrite Hl at 1; now rewrite Hrest_eq|].
    split; [exact Hn|]. split; [exact Hm|]. split.
    + destruct (@hd_error_rev_last (rev rest2) c) as [E|E]; auto.
      rewrite rev_involutive. exact Hrest2.
    + rewrite <- Hrest_eq. unfold rest. simpl. congruence.
Qed.

Lemma map_seq_nth {A} (f : nat -> A) (k : nat) (l : list A) (d : A) :
  length l = k ->
  (forall i, i < k -> f i = nth i l d) ->
  map f (seq 0 k) = l.
Proof.
  intros Hk H. apply nth_ext with (d := f 0) (d' := d).
  - now rewrite length_map, length_seq.
  - intros i Hi. rewrite length_map, length_seq in Hi.
    rewrite map_nth.
    rewrite seq_nth by exact Hi. simpl. now apply H.
Qed.

Lemma boundaries_unlabeled_one_run (l : list nat) :
  first_run l = length l -> boundaries_unlabeled l = repeat 0 (length l).
Proof.
  intros H. unfold boundaries_unlabeled. rewrite H.
  apply map_seq_nth with (d := 0); [apply repeat_length|].
  intros i Hi.
  apply Nat.ltb_lt in Hi. rewrite Hi. simpl.
  symmetry. apply nth_repeat.
Qed.

Lemma boundaries_unlabeled_split (l mid : list nat) (a c : nat) :
  l = repeat a (first_run l) ++ mid ++ repeat c (last_run l) ->
  boundaries_unlabeled l = repeat 0 (first_run l) ++ mid ++ repeat 0 (last_run l).
Proof.
  intros Hl. unfold boundaries_unlabeled.
  set (n := first_run l) in *. set (m := last_run l) in *.
  assert (Hlen : length l = n + length mid + m).
  { rewrite Hl at 1. rewrite !length_app, !repeat_length. lia. }
  apply map_seq_nth with (d := 0).
  { rewrite !length_app, !repeat_length. lia. }
  intros i Hi.
  destruct (Nat.ltb i n) eqn:E1.
  - apply Nat.ltb_lt in E1. simpl. rewrite app_nth1 by (rewrite repeat_length; lia).
    symmetry. apply nth_repeat.
  - apply Nat.ltb_ge in E1. simpl.
    rewrite (app_nth2 (repeat 0 n)) by (rewrite repeat_length; lia).
    rewrite repeat_length.
    destruct (Nat.leb (length l - m) i) eqn:E2.
    + apply Nat.leb_le in E2. rewrite app_nth2 by lia. symmetry. apply nth_repeat.
    + apply Nat.leb_gt in E2. rewrite app_nth1 by lia.
      rewrite Hl at 1.
      rewrite (app_nth2 (repeat a n)) by (rewrite repeat_length; lia).
      rewrite repeat_length. rewrite app_nth1 by lia. reflexivity.
Qed.

(* The two loops of lines 159-169 set the first and the last run to 0 as
   soon as there are two labels, none of them 0. *)
Lemma unlabel_loops_spec (l : list nat) :
  2 <= length l -> (forall x, In x l -> x <> 0) ->
  let labels1 := unlabel_first (length l) 0 (hd 0 l) l in
  unlabel_last (length labels1) (length labels1 - 1)
    (nth (length labels1 - 1) labels1 0) labels1
  = boundaries_unlabeled l.
Proof.
  intros HT Hpos.
  assert (Hne : l <> []) by (destruct l; [simpl in HT; lia|discriminate]).
  assert (Ha : hd 0 l <> 0).
  { apply Hpos. destruct l; [congruence|now left]. }
  assert (Hc : last l 0 <> 0).
  { apply Hpos. destruct l as [|x l] using rev_ind; [congruence|].
    rewrite last_last. apply in_or_app. right. now left. }
  destruct (@runs_split l Hne) as [[Hl Hfr] | [mid [Hl [Hn [Hm [Hmid Hhd]]]]]].
  - rewrite (@boundaries_unlabeled_one_run l Hfr).
    remember (hd 0 l) as a eqn:Ea. remember (length l) as T eqn:ET.
    clear Ea ET Hfr Hpos Hc Hne. subst l.
    destruct T as [|k]; [lia|]. cbv zeta.
    pose proof (@unlabel_first_constant k (S k) 0 a Ha (le_S _ _ (le_n k))) as H1.
    change (repeat 0 0 ++ repeat a (S k)) with (repeat a (S k)) in H1.
    change (0 + k) with k in H1. rewrite H1. clear H1.
    assert (Hlen1 : length (repeat 0 k ++ [a]) = S k)
      by (rewrite length_app, repeat_length; simpl; lia).
    rewrite Hlen1. replace (S k - 1) with (length (repeat 0 k))
      by (rewrite repeat_length; lia).
    rewrite nth_app_here.
    pose proof (@unlabel_last_run 1 (S k) a 0 (repeat 0 k)) as H.
    simpl (repeat a 1 ++ repeat 0 0) in H.
    replace (length (repeat 0 k) + 1 - 1) with (length (repeat 0 k)) in H by lia.
    rewrite H.
    + rewrite <- repeat_app. f_equal. lia.
    + destruct k; [lia|discriminate].
    + destruct k; [lia|]. rewrite <- repeat_snoc, last_last. auto.
    + lia.
  - rewrite (@boundaries_unlabeled_split l mid _ _ Hl).
    remember (hd 0 l) as a eqn:Ea. remember (last l 0) as c eqn:Ec.
    remember (first_run l) as n eqn:En. remember (last_run l) as m eqn:Em.
    remember (length l) as T eqn:ET.
    assert (HTn : n <= T).
    { rewrite ET, Hl, !length_app, !repeat_length. lia. }
    clear Ea Ec En Em Hpos Hne. 
    destruct (mid ++ repeat c m) as [|b rest] eqn:Erest.
    { destruct m; [lia|]. destruct mid; discriminate. }
    simpl in Hhd. assert (Hb : b <> a) by congruence.
    cbv zeta. rewrite Hl.
    pose proof (@unlabel_first_run n T 0 a b rest Hb HTn) as H1.
    change (repeat 0 0 ++ repeat a n ++ b :: rest)
      with (repeat a n ++ b :: rest) in H1.
    change (0 + n) with n in H1. rewrite H1. clear H1. rewrite <- Erest.
    assert (Hlen1 : length (repeat 0 n ++ mid ++ repeat c m)
                    = length (repeat 0 n ++ mid) + m)
      by (rewrite !length_app, !repeat_length; lia).
    rewrite Hlen1.
    assert (Hnth : nth (length (repeat 0 n ++ mid) + m - 1)
                     (repeat 0 n ++ mid ++ repeat c m) 0 = c).
    { destruct m as [|m']; [lia|].
      rewrite app_assoc, <- repeat_snoc, app_assoc.
      replace (length (repeat 0 n ++ mid) + S m' - 1)
        with (length ((repeat 0 n ++ mid) ++ repeat c m'))
        by (rewrite !length_app, !repeat_length; lia).
      apply nth_app_here. }
    rewrite Hnth.
    pose proof (@unlabel_last_run m (length (repeat 0 n ++ mid) + m) c 0
                  (repeat 0 n ++ mid)) as H.
    rewrite <- app_assoc in H. simpl (repeat c m ++ repeat 0 0) in H.
    rewrite app_nil_r in H. rewrite H.
    + rewrite <- app_assoc. f_equal. f_equal. f_equal. lia.
    + destruct n; [lia|discriminate].
    + destruct mid as [|x mid'].
      * rewrite app_nil_r. destruct n; [lia|].
        rewrite <- repeat_snoc, last_last. auto.
      * rewrite last_app_nonempty by discriminate.
        destruct Hmid as [E|E]; [discriminate|exact E].
    + lia.
Qed.

Lemma unlabel_boundaries_spec (labels_all : list nat) :
  2 <= length labels_all ->
  unlabel_boundaries labels_all = Ok (boundaries_unlabeled (map S labels_all)).
Proof.
  intros HT. unfold unlabel_boundaries.
  pose proof (@unlabel_loops_spec (map S labels_all)) as H.
  rewrite length_map in H. specialize (H HT).
  destruct (map S labels_all) as [|a0 l0] eqn:El.
  - destruct labels_all; [simpl in HT; lia|discriminate].
  - f_equal. rewrite <- El. rewrite <- El in H. 
    rewrite length_map. 
    replace a0 with (hd 0 (map S labels_all)) by (now rewrite El).
    apply H.
    intros x Hx. apply in_map_iff in Hx. destruct Hx as [y [<- _]]. lia.
Qed.

(* with one label the loops leave it alone *)
Lemma unlabel_boundaries_single (a : nat) : unlabel_boundaries [a] = Ok [S a].
Proof.
  unfold unlabel_boundaries. cbn. rewrite Nat.eqb_refl. cbn.
  rewrite Nat.eqb_refl. reflexivity.
Qed.

Lemma boundaries_unlabeled_length (l : list nat) :
  length (boundaries_unlabeled l) = length l.
Proof. unfold boundaries_unlabeled. now rewrite length_map, length_seq. Qed.


(** ** What _segment returns *)

Section SegmentFacts.
Context {F : Type} {NF : Num F}.

Lemma argmin_from_bound (l : list F) (i : nat) (mp : F) (mi : nat) :
  mi < i -> argmin_from l i mp mi < i + length l.
Proof.
  revert i mp mi. induction l as [|x l IH]; intros i mp mi H; simpl; [lia|].
  destruct (negb (fleb mp x)).
  - destruct (isnan x); [lia|].
    specialize (IH (S i) x i). lia.
  - specialize (IH (S i) mp mi). lia.
Qed.

Lemma argmin_bound (l : list F) : argmin l < Nat.max 1 (length l).
Proof.
  destruct l as [|x l]; simpl; [lia|].
  destruct (isnan x); [lia|].
  pose proof (@argmin_from_bound l 1 x 0). lia.
Qed.

Lemma zip_with_length {A B C} (f : A -> B -> C) (u : list A) (v : list B) :
  length (zip_with f u v) = Nat.min (length u) (length v).
Proof.
  revert v. induction u as [|a u IH]; intros [|b v]; simpl; auto.
Qed.

Lemma transpose_length (m : matrix F) : length (transpose m) = n_cols m.
Proof. unfold transpose. now rewrite length_map, length_seq. Qed.

Lemma n_cols_scale_rows (m : matrix F) : n_cols (scale_rows m) = n_cols m.
Proof.
  unfold n_cols, scale_rows. destruct m as [|r m]; simpl; [reflexivity|].
  unfold vdiv. now rewrite length_map.
Qed.

Lemma relabel_length (states : matrix F) (samples : list (list F)) (Vvar : list F)
    (Ne h : nat) (factor e : F) (w : matrix F) :
  length Vvar = length samples ->
  length (relabel states samples Vvar Ne h factor e w) = length samples.
Proof.
  intros H. unfold relabel.
  rewrite length_map, !length_combine, length_seq. lia.
Qed.

Lemma relabel_bound (states : matrix F) (samples : list (list F)) (Vvar : list F)
    (Ne h : nat) (factor e : F) (w : matrix F) :
  states <> [] ->
  Forall (fun k => k < length states)
         (relabel states samples Vvar Ne h factor e w).
Proof.
  intros Hs. unfold relabel. rewrite Forall_forall. intros k Hk.
  apply in_map_iff in Hk. destruct Hk as [[t [v x]] [<- _]].
  match goal with |- argmin ?l < _ => pose proof (argmin_bound l) as Hb;
    assert (length l <= length states) as Hl
      by (rewrite length_map, length_combine; apply Nat.le_min_l) end.
  assert (1 <= length states) by (destruct states; [congruence|simpl; lia]).
  lia.
Qed.

(* whatever the loop returns is the relabeling of some pass *)
Lemma segment_loop_some (fuel : nat) (states : matrix F) (samples : list (list F))
    (Vvar : list F) (Nt Ne h : nat) (factor crit e : F) (w : matrix F) (S0 : F)
    (dlt : list nat) :
  segment_loop fuel states samples Vvar Nt Ne h factor crit e w S0 = Some dlt ->
  exists w', dlt = relabel states samples Vvar Ne h factor e w'.
Proof.
  revert w S0. induction fuel as [|n IH]; intros w S0; simpl; [discriminate|].
  destruct (fleb _ _).
  - intros H. injection H as <-. now exists w.
  - apply IH.
Qed.

(* _segment returns the boundary rule applied to T labels below K *)
Lemma segment_returns (fuel : nat) (data states : matrix F) (h : nat)
    (factor crit : F) (out : list nat) :
  _segment fuel data states h factor crit = Some (Ok out) ->
  exists labels_all,
    length labels_all = n_cols data /\
    Forall (fun k => k < length states) labels_all /\
    unlabel_boundaries labels_all = Ok out.
Proof.
  unfold _segment.
  destruct (negb (forallb _ states)); [discriminate|].
  destruct (Nat.eqb (length states) 0) eqn:EK; [discriminate|].
  apply Nat.eqb_neq in EK.
  match goal with |- context [segment_loop ?f ?s ?sa ?v ?nt ?ne ?hh ?fa ?cr ?ee ?ww ?s0] =>
    destruct (segment_loop f s sa v nt ne hh fa cr ee ww s0) as [dlt|] eqn:El end;
    [|discriminate].
  intros H. injection H as H.
  apply segment_loop_some in El. destruct El as [w' ->].
  eexists. split; [|split; [|exact H]].
  - rewrite relabel_length by (now rewrite length_map).
    now rewrite transpose_length, n_cols_scale_rows.
  - assert (length (scale_rows states) = length states) as <-
      by (unfold scale_rows; now rewrite length_map).
    apply relabel_bound. unfold scale_rows.
    destruct states; [simpl in EK; congruence|discriminate].
Qed.

End SegmentFacts.

(** ** The loop of _segment *)

Section LoopFacts.
Context {F : Type} {NF : Num F}.

(* a pass that reproduces its own labels and unexplained variance, and
   does not meet the criterion, is repeated for ever *)
Lemma segment_loop_stuck (states : matrix F) (samples : list (list F))
    (Vvar : list F) (Nt Ne h : nat) (factor crit e : F) (w : matrix F) (S : F) :
  one_hot (length states) (relabel states samples Vvar Ne h factor e w) = w ->
  unexplained states w samples Vvar Nt Ne = S ->
  fleb (fabs (fsub S S)) (fabs (fmul crit S)) = false ->
  forall fuel,
    segment_loop fuel states samples Vvar Nt Ne h factor crit e w S = None.
Proof.
  intros Hw HS Hc fuel. induction fuel as [|n IH]; [reflexivity|].
  simpl. rewrite Hw, HS, Hc. exact IH.
Qed.

Lemma segment_loop_stuck_after_one (states : matrix F) (samples : list (list F))
    (Vvar : list F) (Nt Ne h : nat) (factor crit e : F) (w0 w : matrix F)
    (S0 S : F) :
  one_hot (length states) (relabel states samples Vvar Ne h factor e w0) = w ->
  unexplained states w samples Vvar Nt Ne = S ->
  fleb (fabs (fsub S S0)) (fabs (fmul crit S)) = false ->
  one_hot (length states) (relabel states samples Vvar Ne h factor e w) = w ->
  fleb (fabs (fsub S S)) (fabs (fmul crit S)) = false ->
  forall fuel,
    segment_loop fuel states samples Vvar Nt Ne h factor crit e w0 S0 = None.
Proof.
  intros Hw HS Hc Hw' Hc' [|n]; [reflexivity|].
  simpl. rewrite Hw, HS, Hc. now apply segment_loop_stuck.
Qed.

End LoopFacts.

Lemma one_hot_length {F} {NF : Num F} (Nu : nat) (l : list nat) :
  length (one_hot (F:=F) Nu l) = Nu.
Proof. unfold one_hot. now rewrite length_map, length_seq. Qed.


(* two passes are enough once the second one repeats the labels of the
   first and the test holds between two equal values of Su *)
Lemma segment_loop_two_passes {F} {NF : Num F} (states : matrix F)
    (samples : list (list F)) (Vvar : list F) (Nt Ne h : nat)
    (factor crit e : F) (w : matrix F) (S0 : F) (fuel : nat) :
  let dlt := relabel states samples Vvar Ne h factor e w in
  let w' := one_hot (length states) dlt in
  let Su := unexplained states w' samples Vvar Nt Ne in
  relabel states samples Vvar Ne h factor e w' = dlt ->
  settled crit Su = true ->
  2 <= fuel ->
  segment_loop fuel states samples Vvar Nt Ne h factor crit e w S0 = Some dlt.
Proof.
  intros dlt w' Su Hrep Hset Hfuel.
  destruct fuel as [|[|n]]; [lia|lia|].
  cbn [segment_loop]. fold dlt. fold w'. fold Su.
  destruct (fleb (fabs (fsub Su S0)) (fabs (fmul crit Su))); [reflexivity|].
  rewrite Hrep. fold w'. fold Su.
  unfold settled in Hset. rewrite Hset. reflexivity.
Qed.

Lemma segment_two_passes {F} {NF : Num F} (data states : matrix F) (h : nat)
    (factor crit : F) (fuel : nat) :
  forallb (fun r => Nat.eqb (length r) (n_rows data)) states = true ->
  states <> [] ->
  labels_2 (two_passes data states h factor)
  = labels_1 (two_passes data states h factor) ->
  settled crit (Su_1 (two_passes data states h factor)) = true ->
  2 <= fuel ->
  _segment fuel data states h factor crit
  = Some (unlabel_boundaries (labels_1 (two_passes data states h factor))).
Proof.
  intros Hshape Hne Hrep Hset Hfuel. unfold _segment.
  rewrite Hshape. cbn [negb].
  destruct (Nat.eqb (length states) 0) eqn:EK.
  { apply Nat.eqb_eq in EK. destruct states; [congruence|discriminate]. }
  cbv zeta. unfold two_passes in Hrep, Hset. cbv zeta in Hrep, Hset.
  cbn [labels_1 labels_2 Su_1] in Hrep, Hset.
  rewrite (segment_loop_two_passes _ _ _ _ _ _ _ _ _ _ _ Hrep Hset Hfuel).
  reflexivity.
Qed.


(** ** predict with excluded intervals *)

(** C5. The claim: every retained sub-interval of at least 2h+1 samples is
    segmented on its own and spliced back at its offsets.  The interval
    after the last excluded one is closed with onset = T - 1 (line 297)
    and sliced end:onset, so its last sample is left out.  With h = 3
    and the first sample excluded, nine samples leave the eight samples
    1..8: the code segments only 1..7 and differs at sample 7 from the
    segmentation of the eight; eight samples leave seven (= 2h+1), and
    the code segments nothing at all. *)
Theorem predict_drops_last_retained_sample :
  let self := Inputs.fitted 2 Inputs.centers_2x3 [] in
  let crit := Inputs.default_crit in
  predict 10 self Inputs.data_3x9 true [0] [1] 3 0%float crit
    = Some (Ok [0; 0; 2; 2; 1; 2; 1; 0; 0])
  /\ _segment 10 (slice_cols 1 9 Inputs.data_3x9) Inputs.centers_2x3 3 0%float crit
    = Some (Ok [0; 2; 2; 1; 2; 1; 2; 0])
  /\ predict 10 self (slice_cols 0 8 Inputs.data_3x9) true [0] [1] 3 0%float crit
    = Some (Ok [0; 0; 0; 0; 0; 0; 0; 0])
  /\ _segment 10 (slice_cols 1 8 Inputs.data_3x9) Inputs.centers_2x3 3 0%float crit
    = Some (Ok [0; 2; 2; 1; 2; 1; 0]).
Proof.
  repeat split; vm_compute; reflexivity.
Qed.

Open Scope R_scope.

(** ** Exact arithmetic: sums, products, norms *)

Lemma fold_Rplus_acc (l : list R) (a : R) :
  fold_left Rplus l a = a + fold_left Rplus l 0.
Proof.
  revert a. induction l as [|x l IH]; intros a; simpl; [lra|].
  rewrite (IH (a + x)), (IH (0 + x)). lra.
Qed.

Lemma fsum_nil : fsum (F:=R) [] = 0.
Proof. reflexivity. Qed.

Lemma fsum_cons (x : R) (l : list R) : fsum (x :: l) = x + fsum l.
Proof.
  unfold fsum. simpl. rewrite fold_Rplus_acc. lra.
Qed.

Lemma fsum_scale (c : R) (l : list R) : fsum (map (Rmult c) l) = c * fsum l.
Proof.
  induction l as [|x l IH]; simpl.
  - rewrite fsum_nil. lra.
  - rewrite !fsum_cons, IH. lra.
Qed.

Lemma fsum_squares_nonneg (v : list R) : 0 <= fsum (map fsq v).
Proof.
  induction v as [|x v IH]; simpl.
  - rewrite fsum_nil. lra.
  - rewrite fsum_cons. change (fsq x) with (x * x).
    pose proof (Rle_0_sqr x) as Hx. unfold Rsqr in Hx. lra.
Qed.

Lemma fsum_squares_div (v : list R) (c : R) :
  fsum (map fsq (vdiv v c)) = fsum (map fsq v) / (c * c).
Proof.
  induction v as [|x v IH]; simpl.
  - rewrite fsum_nil. unfold Rdiv. lra.
  - rewrite !fsum_cons, IH. unfold fsq. simpl.
    destruct (Req_dec c 0) as [->|Hc].
    + unfold Rdiv. rewrite Rmult_0_l, Rinv_0. lra.
    + field. exact Hc.
Qed.

(* a vector with a norm other than 0 has norm 1 once divided by it *)
Lemma norm_normalize (v : list R) : norm v <> 0 -> norm (normalize v) = 1.
Proof.
  intros Hn. unfold normalize. unfold norm at 1.
  rewrite fsum_squares_div. unfold norm in *. simpl in *.
  set (S := fsum (map fsq v)) in *.
  assert (HS : 0 <= S) by apply fsum_squares_nonneg.
  rewrite sqrt_sqrt by exact HS.
  assert (S <> 0) by (intros E; rewrite E, sqrt_0 in Hn; congruence).
  replace (S / S) with 1 by (field; assumption).
  apply sqrt_1.
Qed.

(** ** The centers _compute_maps returns *)

Close Scope R_scope.

Section KmeansFacts.
Context {F : Type} {NF : Num F}.

Lemma update_maps_length (data : matrix F) (samples : list (list F))
    (seg : list nat) (maps : matrix F) :
  length (update_maps data samples seg maps) = length maps.
Proof.
  unfold update_maps. rewrite length_map, length_combine, length_seq.
  apply Nat.min_id.
Qed.

Lemma combine_seq_nth_error {A} (l : list A) (a k : nat) :
  nth_error (combine (seq a (length l)) l) k
  = option_map (fun m => (a + k, m)) (nth_error l k).
Proof.
  revert a k. induction l as [|x l IH]; intros a [|k]; simpl; try reflexivity.
  - now rewrite Nat.add_0_r.
  - rewrite IH. destruct (nth_error l k); simpl; [|reflexivity].
    repeat f_equal. lia.
Qed.

Lemma update_maps_nth_error (data : matrix F) (samples : list (list F))
    (seg : list nat) (maps : matrix F) (k : nat) :
  nth_error (update_maps data samples seg maps) k
  = option_map (update_map data samples seg k) (nth_error maps k).
Proof.
  unfold update_maps. rewrite nth_error_map, combine_seq_nth_error.
  destruct (nth_error maps k); reflexivity.
Qed.

Lemma kmeans_iter_S (n : nat) (data : matrix F) (samples : list (list F))
    (thresh : F) (maps : matrix F) (pr : option F) :
  kmeans_iter (S n) data samples thresh maps pr
  = let segmentation := assign maps samples in
    let maps' := update_maps data samples segmentation maps in
    let residual := residual_of data maps' samples segmentation in
    if converged pr residual thresh then maps'
    else kmeans_iter n data samples thresh maps' (Some residual).
Proof. reflexivity. Qed.

(* after at least one pass the centers returned are those of the update
   of the last pass *)
Lemma kmeans_iter_last (n : nat) (data : matrix F) (samples : list (list F))
    (thresh : F) (maps : matrix F) (prev_residual : option F) :
  exists prev,
    length prev = length maps /\
    kmeans_iter (S n) data samples thresh maps prev_residual
    = update_maps data samples (assign prev samples) prev.
Proof.
  revert maps prev_residual. induction n as [|n IH]; intros maps pr.
  - exists maps. split; [reflexivity|]. simpl.
    destruct (converged pr _ thresh); reflexivity.
  - rewrite kmeans_iter_S. cbv zeta.
    destruct (converged pr _ thresh).
    + exists maps. split; reflexivity.
    + match goal with |- context [kmeans_iter (S n) _ _ _ ?m ?p] =>
        destruct (IH m p) as [prev [Hl He]] end.
      exists prev. split; [|exact He].
      rewrite Hl. apply update_maps_length.
Qed.

(* np.sum(idx) == 0 says that no sample was assigned to the state *)
Lemma no_sample_assigned (seg : list nat) (state : nat) :
  Nat.eqb (length (filter (fun b : bool => b)
                     (map (fun s => Nat.eqb s state) seg))) 0 = true
  <-> ~ In state seg.
Proof.
  induction seg as [|s seg IH]; simpl.
  - split; auto.
  - destruct (Nat.eqb s state) eqn:E; simpl.
    + apply Nat.eqb_eq in E. split; [discriminate|]. intros H. exfalso. auto.
    + apply Nat.eqb_neq in E. rewrite IH. tauto.
Qed.

End KmeansFacts.

Open Scope R_scope.

(* What line 75 achieves in exact arithmetic.  After at least one pass,
   every row of the centers that _compute_maps returns is, for the
   assignment of the last pass: all zero when no sample was assigned to
   its cluster, and of L2 norm 1 when samples were assigned and the norm
   of their weighted sum is not 0. *)
Lemma centers_unit_norm_in_exact_arithmetic :
  forall (data : matrix R) (init_times : list nat) (n : nat) (thresh : R),
    let samples := transpose data in
    let maps := kmeans_iter (S n) data samples thresh
                  (init_maps data init_times) None in
    exists prev,
      let segmentation := assign prev samples in
      length prev = length init_times /\
      length maps = length init_times /\
      forall k row,
        nth_error maps k = Some row ->
        exists m,
          nth_error prev k = Some m /\
          (~ In k segmentation -> row = repeat 0 (length m)) /\
          (In k segmentation ->
           norm (weighted_sum data samples segmentation k m) <> 0 ->
           norm row = 1).
Proof.
  intros data init_times n thresh samples maps.
  destruct (kmeans_iter_last n data samples thresh (init_maps data init_times) None)
    as [prev [Hl He]].
  exists prev. cbv zeta.
  assert (Hinit : length (init_maps data init_times) = length init_times)
    by (unfold init_maps; apply length_map).
  split; [congruence|]. split.
  { unfold maps. rewrite He, update_maps_length. congruence. }
  intros k row Hrow. unfold maps in Hrow.
  rewrite He, update_maps_nth_error in Hrow.
  destruct (nth_error prev k) as [m|] eqn:Em; [|discriminate].
  simpl in Hrow. injection Hrow as <-.
  exists m. split; [reflexivity|]. unfold update_map.
  split.
  - intros Hk. apply no_sample_assigned in Hk. rewrite Hk.
    clear. induction m; simpl; [reflexivity|]. now f_equal.
  - intros Hk Hn.
    destruct (Nat.eqb (length (filter _ _)) 0) eqn:E.
    + apply no_sample_assigned in E. contradiction.
    + now apply norm_normalize.
Qed.

Close Scope R_scope.

Section FitCenters.
Context {F : Type} {NF : Num F}.
Variable Gen : Type.
Variable seeded : Z -> Gen.
Variable choice : Gen -> nat -> nat -> list nat * Gen.

Lemma fit_loop_best_is_a_run (n : nat) (self : @ModKMeans F) (data : matrix F)
    (bg g : F) (b : option (@run F)) (r : @run F) (w w' : world Gen) :
  fit_loop seeded choice n self data bg b w = (Ok (g, Some r), w') ->
  b = Some r \/
  exists w1, fst (_run_mod_kmeans seeded choice self data w1) = Ok r.
Proof.
  revert bg b w. induction n as [|n IH]; intros bg b w; simpl.
  - intros H. injection H as _ -> _. now left.
  - destruct (_run_mod_kmeans seeded choice self data w) as [[r1|e] w1] eqn:E;
      [|discriminate].
    destruct (fltb bg (run_gev r1)); intros H; apply IH in H.
    + destruct H as [H|H]; [|now right].
      injection H as ->. right. exists w. now rewrite E.
    + exact H.
Qed.

Lemma run_maps_is_kmeans (self : @ModKMeans F) (data : matrix F)
    (w : world Gen) (r : @run F) :
  fst (_run_mod_kmeans seeded choice self data w) = Ok r ->
  exists init_times,
    run_maps r = kmeans_iter (max_iter self) data (transpose data) (tol self)
                   (init_maps data init_times) None.
Proof.
  unfold _run_mod_kmeans, _compute_maps.
  destruct (draw_init_times seeded choice (random_state self) (n_cols data)
              (n_clusters self) w) as [[ts|e] w1]; cbn [fst bind];
    [|discriminate].
  cbv zeta. destruct (_ && _); cbn [bind]; [discriminate|].
  destruct (Nat.eqb _ 0); [discriminate|].
  intros H. injection H as <-. exists ts. reflexivity.
Qed.

(* the centers a successful fit stores are those of one call of
   _compute_maps *)
Lemma fit_centers_from_compute_maps (self self' : @ModKMeans F)
    (kind : current_fit_t) (data : matrix F) (ch_names : list string)
    (w w' : world Gen) :
  fit seeded choice self kind data ch_names w = (Ok self', w') ->
  exists init_times,
    cluster_centers self'
    = Some (kmeans_iter (max_iter self) data (transpose data) (tol self)
              (init_maps data init_times) None).
Proof.
  unfold fit, _do_fit.
  destruct (fit_loop seeded choice (n_init self) self data fzero None w)
    as [[[g [r|]]|e] w1] eqn:E; try discriminate.
  intros H. injection H as <- _.
  apply fit_loop_best_is_a_run in E. destruct E as [E|[w2 E]]; [discriminate|].
  apply run_maps_is_kmeans in E. destruct E as [ts E].
  exists ts. simpl. now rewrite E.
Qed.

End FitCenters.

(* In binary64 the division by a norm that is 0 gives a row of NaN: a run
   started on an all-zero sample returns such a row next to a zero row, its
   GEV is 0, and fit does not store it. *)
Lemma zero_sample_run_is_not_stored :
  fst (_compute_maps Inputs.toy_seeded Inputs.toy_choice Inputs.zero_sample
         2 300 0x1p-20%float (RS_int 0) Inputs.toy_world)
  = Ok [[0; 0]; [nan; nan]]%float /\
  fst (fit Inputs.toy_seeded Inputs.toy_choice
         (Inputs.unfitted_model 2 (RS_int 0) 1) fit_Raw Inputs.zero_sample []
         Inputs.toy_world)
  = Raise UnboundLocalError.
Proof. split; vm_compute; reflexivity. Qed.

(** C6. The claim: after every fit each row of the stored centers has
    unit L2 norm, except the all-zero rows of clusters that received no
    sample in the last pass.  Line 75 divides the weighted sum of a
    cluster by np.linalg.norm of it and does not look at that norm.  On
    huge_data, in IEEE binary64, with the initial maps drawn from samples
    1 and 2: the first pass gives two rows of norm 1; the second pass
    assigns samples 0 and 1 to cluster 0 again, the squares under the
    norm of their weighted sum overflow, the norm is +inf and the row
    becomes all zero; the residual has grown, the loop stops, and fit
    stores that row: a row that is all zero, of norm 0, for a cluster
    that did receive samples in the last pass. *)
Theorem fit_stores_zero_row_for_a_cluster_with_samples :
  let data := Inputs.huge_data in
  let self := Inputs.unfitted_model 2 (RS_int 1) 3 in
  let samples := transpose data in
  let init := init_maps data [1; 2] in
  let prev := kmeans_iter 1 data samples (tol self) init None in
  let segmentation := assign prev samples in
  fst (draw_init_times Inputs.toy_seeded Inputs.toy_choice (random_state self)
         (n_cols data) (n_clusters self) Inputs.toy_world) = Ok [1; 2] /\
  kmeans_iter (max_iter self) data samples (tol self) init None
  = update_maps data samples segmentation prev /\
  segmentation = [0; 0; 1] /\
  norm (weighted_sum data samples segmentation 0 (nth 0 prev [])) = infinity /\
  exists (self' : @ModKMeans float) (row : list float),
    fst (fit Inputs.toy_seeded Inputs.toy_choice self fit_Raw data []
           Inputs.toy_world) = Ok self' /\
    cluster_centers self' = Some [[0; 0]%float; row] /\
    update_maps data samples segmentation prev = [[0; 0]%float; row] /\
    norm [0; 0]%float = 0%float.
Proof.
  cbv zeta.
  split; [vm_compute; reflexivity|].
  split; [vm_compute; reflexivity|].
  split; [vm_compute; reflexivity|].
  split; [vm_compute; reflexivity|].
  eexists. eexists.
  split; [vm_compute; reflexivity|].
  split; [reflexivity|].
  split; vm_compute; reflexivity.
Qed.

Open Scope R_scope.

(** ** Polarity: signs *)

Lemma is_sign_1 : is_sign 1.
Proof. now left. Qed.

Lemma is_sign_mult (a b : R) : is_sign a -> is_sign b -> is_sign (a * b).
Proof. intros [-> | ->] [-> | ->]; [left|right|right|left]; lra. Qed.

Lemma sign_square (c : R) : is_sign c -> c * c = 1.
Proof. intros [-> | ->]; lra. Qed.

Lemma sign_abs (c x : R) : is_sign c -> Rabs (c * x) = Rabs x.
Proof.
  intros [-> | ->].
  - now rewrite Rmult_1_l.
  - replace (-1 * x) with (- x) by lra. apply Rabs_Ropp.
Qed.

Lemma flip_at_sign (j t : nat) : is_sign (flip_at j t).
Proof. unfold flip_at. destruct (Nat.eqb t j); [now right|now left]. Qed.

(** ** Polarity: vectors *)

Lemma zip_scale_l (c : R) (u v : list R) :
  zip_with Rmult (map (Rmult c) u) v = map (Rmult c) (zip_with Rmult u v).
Proof.
  revert v. induction u as [|a u IH]; intros [|b v]; simpl; try reflexivity.
  rewrite IH. f_equal. lra.
Qed.

Lemma zip_scale_r (c : R) (u v : list R) :
  zip_with Rmult u (map (Rmult c) v) = map (Rmult c) (zip_with Rmult u v).
Proof.
  revert v. induction u as [|a u IH]; intros [|b v]; simpl; try reflexivity.
  rewrite IH. f_equal. lra.
Qed.

Lemma dot_scale_l (c : R) (u v : list R) :
  dot (map (Rmult c) u) v = c * dot u v.
Proof. unfold dot. simpl. now rewrite zip_scale_l, fsum_scale. Qed.

Lemma dot_scale_r (c : R) (u v : list R) :
  dot u (map (Rmult c) v) = c * dot u v.
Proof. unfold dot. simpl. now rewrite zip_scale_r, fsum_scale. Qed.

Lemma squares_scale_sign (c : R) (v : list R) :
  is_sign c -> map fsq (map (Rmult c) v) = map fsq v.
Proof.
  intros Hc. rewrite map_map. apply map_ext. intros x. unfold fsq. simpl.
  pose proof (sign_square Hc). nra.
Qed.

Lemma norm_scale_sign (c : R) (v : list R) :
  is_sign c -> norm (map (Rmult c) v) = norm v.
Proof. intros Hc. unfold norm. now rewrite squares_scale_sign. Qed.

Lemma vdiv_scale (c n : R) (v : list R) :
  vdiv (map (Rmult c) v) n = map (Rmult c) (vdiv v n).
Proof.
  unfold vdiv. rewrite !map_map. apply map_ext. intros x. simpl.
  unfold Rdiv. lra.
Qed.

Lemma normalize_scale_sign (c : R) (v : list R) :
  is_sign c -> normalize (map (Rmult c) v) = map (Rmult c) (normalize v).
Proof.
  intros Hc. unfold normalize. now rewrite norm_scale_sign, vdiv_scale.
Qed.

Lemma mean_scale (c : R) (v : list R) : mean (map (Rmult c) v) = c * mean v.
Proof.
  unfold mean. rewrite fsum_scale, length_map. simpl. unfold Rdiv. lra.
Qed.

Lemma demean_scale (c : R) (v : list R) :
  map (fun x => fsub x (mean (map (Rmult c) v))) (map (Rmult c) v)
  = map (Rmult c) (map (fun x => fsub x (mean v)) v).
Proof.
  rewrite mean_scale, !map_map. apply map_ext. intros x. simpl. lra.
Qed.

Lemma corr_pair_scale (a b : R) (u v : list R) :
  is_sign a -> is_sign b ->
  corr_pair (map (Rmult a) u) (map (Rmult b) v) = a * b * corr_pair u v.
Proof.
  intros Ha Hb. unfold corr_pair. cbv zeta.
  rewrite !demean_scale.
  rewrite !norm_scale_sign by assumption.
  rewrite !vdiv_scale, zip_scale_l, zip_scale_r, !fsum_scale.
  simpl. lra.
Qed.

(** ** Polarity: the flipped matrix *)

Lemma iscale_length (sigma : nat -> R) (a : nat) (l : list R) :
  length (iscale sigma a l) = length l.
Proof. revert a. induction l as [|x l IH]; intros a; simpl; auto. Qed.

Lemma iscale_nth (sigma : nat -> R) (a t : nat) (l : list R) :
  nth t (iscale sigma a l) 0 = sigma (a + t)%nat * nth t l 0.
Proof.
  revert a t. induction l as [|x l IH]; intros a [|t]; simpl; try lra.
  - now rewrite Nat.add_0_r.
  - rewrite IH. replace (S a + t)%nat with (a + S t)%nat by lia. reflexivity.
Qed.

Lemma iscale_id (sigma : nat -> R) (a : nat) (l : list R) :
  (forall t, (a <= t)%nat -> sigma t = 1) -> iscale sigma a l = l.
Proof.
  revert a. induction l as [|x l IH]; intros a H; simpl; [reflexivity|].
  rewrite (H a) by lia. rewrite IH by (intros; apply H; lia). f_equal. lra.
Qed.

Lemma negate_entry_iscale (j a : nat) (row : list R) :
  set_nth j (- nth j row 0) row = iscale (flip_at (a + j)) a row.
Proof.
  revert j a. induction row as [|x row IH]; intros j a; simpl.
  - destruct j; reflexivity.
  - destruct j as [|j]; simpl.
    + unfold flip_at at 1. rewrite Nat.add_0_r, Nat.eqb_refl.
      rewrite iscale_id.
      * f_equal. lra.
      * intros t Ht. unfold flip_at.
        assert (Nat.eqb t a = false) as -> by (apply Nat.eqb_neq; lia).
        reflexivity.
    + unfold flip_at at 1.
      assert (Nat.eqb a (a + S j) = false) as -> by (apply Nat.eqb_neq; lia).
      rewrite (IH j (S a)). replace (S a + j)%nat with (a + S j)%nat by lia.
      f_equal. lra.
Qed.

Lemma negate_col_iscale (j : nat) (data : matrix R) :
  negate_col j data = map (iscale (flip_at j) 0) data.
Proof.
  unfold negate_col. apply map_ext. intros row.
  apply (negate_entry_iscale j 0).
Qed.

Lemma n_cols_iscale (sigma : nat -> R) (data : matrix R) :
  n_cols (map (iscale sigma 0) data) = n_cols data.
Proof.
  unfold n_cols. destruct data as [|r data]; simpl; [reflexivity|].
  apply iscale_length.
Qed.

Lemma col_iscale (sigma : nat -> R) (t : nat) (data : matrix R) :
  col t (map (iscale sigma 0) data) = map (Rmult (sigma t)) (col t data).
Proof.
  unfold col. rewrite !map_map. apply map_ext. intros r.
  simpl. apply (iscale_nth sigma 0 t r).
Qed.

Lemma vscale_map_seq (sigma : nat -> R) (f : nat -> list R) (a n : nat) :
  map (fun t => map (Rmult (sigma t)) (f t)) (seq a n)
  = vscale sigma a (map f (seq a n)).
Proof.
  revert a. induction n as [|n IH]; intros a; simpl; [reflexivity|].
  now rewrite IH.
Qed.

Lemma transpose_iscale (sigma : nat -> R) (data : matrix R) :
  transpose (map (iscale sigma 0) data) = vscale sigma 0 (transpose data).
Proof.
  unfold transpose. rewrite n_cols_iscale.
  rewrite <- vscale_map_seq. apply map_ext. intros t. apply col_iscale.
Qed.

Lemma squares_iscale (sigma : nat -> R) (a : nat) (l : list R) :
  (forall t, is_sign (sigma t)) ->
  map fsq (iscale sigma a l) = map fsq l.
Proof.
  intros Hs. revert a. induction l as [|x l IH]; intros a; simpl; [reflexivity|].
  rewrite IH. f_equal. unfold fsq. simpl.
  pose proof (sign_square (Hs a)). nra.
Qed.

Lemma sum_sq_iscale (sigma : nat -> R) (data : matrix R) :
  (forall t, is_sign (sigma t)) ->
  sum_sq (map (iscale sigma 0) data) = sum_sq data.
Proof.
  intros Hs. unfold sum_sq. rewrite map_map.
  f_equal. f_equal. apply map_ext. intros r. now apply squares_iscale.
Qed.

Lemma vscale_up_to_sign (sigma : nat -> R) (a : nat) (vs : list (list R)) :
  (forall t, is_sign (sigma t)) ->
  Forall2 vec_eq_up_to_sign (vscale sigma a vs) vs.
Proof.
  intros Hs. revert a. induction vs as [|v vs IH]; intros a; simpl; constructor.
  - exists (sigma a). split; [apply Hs|reflexivity].
  - apply IH.
Qed.

Lemma iscale_up_to_sign (sigma : nat -> R) (a : nat) (l : list R) :
  (forall t, is_sign (sigma t)) ->
  Forall2 eq_up_to_sign (iscale sigma a l) l.
Proof.
  intros Hs. revert a. induction l as [|x l IH]; intros a; simpl; constructor.
  - exists (sigma a). split; [apply Hs|reflexivity].
  - apply IH.
Qed.

(** ** Polarity: one pass of the solver *)

Lemma abs_dot_up_to_sign (m' m x' x : list R) :
  vec_eq_up_to_sign m' m -> vec_eq_up_to_sign x' x ->
  Rabs (dot m' x') = Rabs (dot m x).
Proof.
  intros [d [Hd ->]] [c [Hc ->]].
  rewrite dot_scale_l, dot_scale_r. now rewrite !sign_abs.
Qed.

Lemma sq_dot_up_to_sign (m' m x' x : list R) :
  vec_eq_up_to_sign m' m -> vec_eq_up_to_sign x' x ->
  fsq (dot m' x') = fsq (dot m x).
Proof.
  intros [d [Hd ->]] [c [Hc ->]].
  rewrite dot_scale_l, dot_scale_r. unfold fsq.
  change (@fmul R Num_R) with Rmult.
  set (z := dot m x).
  replace (d * (c * z) * (d * (c * z))) with ((d * d) * (c * c) * (z * z))
    by ring.
  rewrite (sign_square Hd), (sign_square Hc). ring.
Qed.

Lemma assign_up_to_sign (maps' maps : matrix R) (samples' samples : list (list R)) :
  Forall2 vec_eq_up_to_sign maps' maps ->
  Forall2 vec_eq_up_to_sign samples' samples ->
  assign maps' samples' = assign maps samples.
Proof.
  intros Hm Hs. unfold assign.
  induction Hs as [|x' x samples' samples Hx Hs IH]; cbn [map]; [reflexivity|].
  f_equal; [|exact IH]. f_equal.
  unfold activation_col. rewrite !map_map.
  clear - Hm Hx.
  induction Hm as [|m' m maps' maps Hmm Hm IH]; cbn [map]; [reflexivity|].
  f_equal; [|exact IH]. now apply abs_dot_up_to_sign.
Qed.

Lemma nth_up_to_sign (maps' maps : matrix R) (s : nat) :
  Forall2 vec_eq_up_to_sign maps' maps ->
  vec_eq_up_to_sign (nth s maps' []) (nth s maps []).
Proof.
  intros Hm. revert s.
  induction Hm as [|m' m maps' maps Hmm Hm IH]; intros [|s]; simpl; auto.
  - exists 1. split; [apply is_sign_1|reflexivity].
  - exists 1. split; [apply is_sign_1|reflexivity].
Qed.

Lemma act_sum_sq_up_to_sign (maps' maps : matrix R)
    (samples' samples : list (list R)) (seg : list nat) :
  Forall2 vec_eq_up_to_sign maps' maps ->
  Forall2 vec_eq_up_to_sign samples' samples ->
  act_sum_sq maps' samples' seg = act_sum_sq maps samples seg.
Proof.
  intros Hm Hs. unfold act_sum_sq. f_equal. revert seg.
  induction Hs as [|x' x samples' samples Hx Hs IH]; intros [|s seg];
    cbn [zip_with]; try reflexivity.
  f_equal; [|apply IH]. apply sq_dot_up_to_sign; [|exact Hx].
  now apply nth_up_to_sign.
Qed.

Lemma dot_cons (x y : R) (u v : list R) : dot (x :: u) (y :: v) = x * y + dot u v.
Proof. unfold dot. simpl zip_with. apply fsum_cons. Qed.

Lemma dot_nil_l (v : list R) : dot [] v = 0.
Proof. reflexivity. Qed.

Lemma dot_nil_r (u : list R) : dot u [] = 0.
Proof. destruct u; reflexivity. Qed.

Lemma select_nil_r {A} (idx : list bool) : select idx (@nil A) = [].
Proof. destruct idx; reflexivity. Qed.

(* the activations of a center with sign c on the flipped samples *)
Lemma activation_row_scaled (sigma : nat -> R) (c : R) (m : list R) (a : nat)
    (samples : list (list R)) :
  map (fun x => dot (map (Rmult c) m) x) (vscale sigma a samples)
  = iscale (fun t => c * sigma t) a (map (fun x => dot m x) samples).
Proof.
  revert a. induction samples as [|x samples IH]; intros a;
    cbn [map vscale iscale]; [reflexivity|].
  f_equal; [|apply IH]. rewrite dot_scale_l, dot_scale_r. ring.
Qed.

Lemma dot_select_scaled (sigma : nat -> R) (c : R) (idx : list bool) (a : nat)
    (row act : list R) :
  (forall t, is_sign (sigma t)) ->
  dot (select idx (iscale sigma a row))
      (select idx (iscale (fun t => c * sigma t) a act))
  = c * dot (select idx row) (select idx act).
Proof.
  intros Hs. revert a row act.
  induction idx as [|b idx IH]; intros a row act; simpl.
  - rewrite !dot_nil_l. lra.
  - destruct row as [|x row]; simpl.
    { rewrite !dot_nil_l. lra. }
    destruct act as [|y act]; simpl.
    { destruct b; rewrite ?select_nil_r, ?dot_nil_r; lra. }
    destruct b.
    + rewrite !dot_cons, IH.
      replace (sigma a * x * (c * sigma a * y))
        with (c * (sigma a * sigma a) * (x * y)) by ring.
      rewrite (sign_square (Hs a)). ring.
    + apply IH.
Qed.

Lemma weighted_sum_scaled (sigma : nat -> R) (c : R) (data : matrix R)
    (samples : list (list R)) (seg : list nat) (k : nat) (m : list R) :
  (forall t, is_sign (sigma t)) ->
  weighted_sum (map (iscale sigma 0) data) (vscale sigma 0 samples) seg k
    (map (Rmult c) m)
  = map (Rmult c) (weighted_sum data samples seg k m).
Proof.
  intros Hs. unfold weighted_sum. cbv zeta.
  rewrite activation_row_scaled, !map_map. apply map_ext. intros row.
  now apply dot_select_scaled.
Qed.

Lemma update_map_scaled (sigma : nat -> R) (c : R) (data : matrix R)
    (samples : list (list R)) (seg : list nat) (k : nat) (m : list R) :
  (forall t, is_sign (sigma t)) -> is_sign c ->
  update_map (map (iscale sigma 0) data) (vscale sigma 0 samples) seg k
    (map (Rmult c) m)
  = map (Rmult c) (update_map data samples seg k m).
Proof.
  intros Hs Hc. unfold update_map. cbv zeta.
  destruct (Nat.eqb (length (filter _ _)) 0).
  - rewrite !map_map. apply map_ext. intros _. simpl. lra.
  - rewrite weighted_sum_scaled by assumption.
    now apply normalize_scale_sign.
Qed.

Lemma update_maps_up_to_sign (sigma : nat -> R) (data : matrix R)
    (samples : list (list R)) (seg : list nat) (maps' maps : matrix R) :
  (forall t, is_sign (sigma t)) ->
  Forall2 vec_eq_up_to_sign maps' maps ->
  Forall2 vec_eq_up_to_sign
    (update_maps (map (iscale sigma 0) data) (vscale sigma 0 samples) seg maps')
    (update_maps data samples seg maps).
Proof.
  intros Hs Hm. unfold update_maps.
  set (d' := map (iscale sigma 0) data). set (s' := vscale sigma 0 samples).
  generalize 0%nat as a.
  induction Hm as [|m' m maps' maps [c [Hc ->]] Hm IH]; intros a; simpl;
    constructor.
  - exists c. split; [exact Hc|]. now apply update_map_scaled.
  - apply IH.
Qed.

(** ** Polarity: the whole run *)

Lemma residual_up_to_sign (sigma : nat -> R) (data : matrix R)
    (maps' maps : matrix R) (samples : list (list R)) (seg : list nat) :
  (forall t, is_sign (sigma t)) ->
  Forall2 vec_eq_up_to_sign maps' maps ->
  residual_of (map (iscale sigma 0) data) maps' (vscale sigma 0 samples) seg
  = residual_of data maps samples seg.
Proof.
  intros Hs Hm. unfold residual_of.
  rewrite sum_sq_iscale by assumption.
  rewrite (@act_sum_sq_up_to_sign maps' maps (vscale sigma 0 samples) samples seg Hm)
    by (now apply vscale_up_to_sign).
  rewrite n_cols_iscale. unfold n_rows. now rewrite length_map.
Qed.

Lemma kmeans_iter_up_to_sign (sigma : nat -> R) (n : nat) (data : matrix R)
    (samples : list (list R)) (thresh : R) (maps' maps : matrix R)
    (prev : option R) :
  (forall t, is_sign (sigma t)) ->
  Forall2 vec_eq_up_to_sign maps' maps ->
  Forall2 vec_eq_up_to_sign
    (kmeans_iter n (map (iscale sigma 0) data) (vscale sigma 0 samples)
       thresh maps' prev)
    (kmeans_iter n data samples thresh maps prev).
Proof.
  intros Hs. revert maps' maps prev.
  induction n as [|n IH]; intros maps' maps prev Hm; [exact Hm|].
  rewrite !kmeans_iter_S. cbv zeta.
  assert (Ha : assign maps' (vscale sigma 0 samples) = assign maps samples)
    by (apply assign_up_to_sign; [exact Hm | now apply vscale_up_to_sign]).
  rewrite Ha.
  pose proof (@update_maps_up_to_sign sigma data samples (assign maps samples)
                maps' maps Hs Hm) as Hu.
  rewrite (@residual_up_to_sign sigma data _ _ samples (assign maps samples) Hs Hu).
  destruct (converged prev _ thresh); [exact Hu|].
  apply IH. exact Hu.
Qed.

Lemma init_maps_up_to_sign (sigma : nat -> R) (data : matrix R)
    (init_times : list nat) :
  (forall t, is_sign (sigma t)) ->
  Forall2 vec_eq_up_to_sign (init_maps (map (iscale sigma 0) data) init_times)
                            (init_maps data init_times).
Proof.
  intros Hs. unfold init_maps.
  induction init_times as [|t ts IH]; cbn [map]; constructor; [|exact IH].
  exists (sigma t). split; [apply Hs|].
  rewrite col_iscale. now apply normalize_scale_sign.
Qed.

Lemma map_corr_up_to_sign (maps' maps : matrix R)
    (samples' samples : list (list R)) (seg : list nat) :
  Forall2 vec_eq_up_to_sign maps' maps ->
  Forall2 vec_eq_up_to_sign samples' samples ->
  Forall2 eq_up_to_sign (map_corr maps' samples' seg) (map_corr maps samples seg).
Proof.
  intros Hm Hs. unfold map_corr. revert seg.
  induction Hs as [|x' x samples' samples Hx Hs IH]; intros [|s seg];
    cbn [zip_with]; constructor; [|apply IH].
  destruct Hx as [c [Hc ->]].
  destruct (@nth_up_to_sign maps' maps s Hm) as [d [Hd ->]].
  exists (c * d). split; [now apply is_sign_mult|].
  now apply corr_pair_scale.
Qed.

Lemma squares_zip_up_to_sign (u' u v' v : list R) :
  Forall2 eq_up_to_sign u' u -> Forall2 eq_up_to_sign v' v ->
  map fsq (zip_with Rmult u' v') = map fsq (zip_with Rmult u v).
Proof.
  intros Hu. revert v' v.
  induction Hu as [|x' x u' u [c [Hc ->]] Hu IH]; intros v' v Hv;
    [reflexivity|].
  destruct Hv as [|y' y v' v [d [Hd ->]] Hv]; [reflexivity|].
  cbn [zip_with map]. f_equal; [|now apply IH].
  unfold fsq. change (@fmul R Num_R) with Rmult.
  replace (c * x * (d * y) * (c * x * (d * y)))
    with ((c * c) * (d * d) * (x * y * (x * y))) by ring.
  rewrite (sign_square Hc), (sign_square Hd). ring.
Qed.

Lemma gev_up_to_sign (sigma : nat -> R) (data : matrix R) (corr' corr : list R) :
  (forall t, is_sign (sigma t)) ->
  Forall2 eq_up_to_sign corr' corr ->
  gev_of (map (iscale sigma 0) data) corr' = gev_of data corr.
Proof.
  intros Hs Hc. unfold gev_of.
  rewrite sum_sq_iscale by assumption. f_equal. f_equal. f_equal.
  rewrite map_map. apply map_ext. intros row.
  apply squares_zip_up_to_sign; [now apply iscale_up_to_sign|exact Hc].
Qed.

(* the scoring of lines 486-491 on the flipped data, for centers equal up
   to sign *)
Lemma score_maps_up_to_sign (sigma : nat -> R) (data : matrix R)
    (maps' maps : matrix R) :
  (forall t, is_sign (sigma t)) ->
  Forall2 vec_eq_up_to_sign maps' maps ->
  run_gev (score_maps (map (iscale sigma 0) data) maps')
    = run_gev (score_maps data maps) /\
  run_segmentation (score_maps (map (iscale sigma 0) data) maps')
    = run_segmentation (score_maps data maps).
Proof.
  intros Hs Hm. unfold score_maps. cbv zeta. cbn [run_gev run_segmentation].
  rewrite transpose_iscale.
  assert (Hv : Forall2 vec_eq_up_to_sign (vscale sigma 0 (transpose data))
                 (transpose data)) by (now apply vscale_up_to_sign).
  rewrite (assign_up_to_sign Hm Hv). split; [|reflexivity].
  apply gev_up_to_sign; [exact Hs|].
  now apply map_corr_up_to_sign.
Qed.

(** C1. Polarity invariance of fitting, in exact arithmetic: negating
    sample j of the observation matrix changes neither the assignment of
    the samples (in every pass, lemma assign_up_to_sign, and in the
    returned segmentation) nor the GEV of the run; the centers come out
    equal up to the sign of each row, and the random source is used the
    same way. *)
Theorem polarity_invariance_of_fitting :
  forall (Gen : Type) (seeded : Z -> Gen)
         (choice : Gen -> nat -> nat -> list nat * Gen)
         (self : @ModKMeans R) (data : matrix R) (j : nat) (w : world Gen),
    match _run_mod_kmeans seeded choice self data w,
          _run_mod_kmeans seeded choice self (negate_col j data) w with
    | (Ok r, w1), (Ok r', w1') =>
        run_segmentation r' = run_segmentation r /\
        run_gev r' = run_gev r /\
        Forall2 vec_eq_up_to_sign (run_maps r') (run_maps r) /\
        w1' = w1
    | (Raise e, w1), (Raise e', w1') => e' = e /\ w1' = w1
    | _, _ => False
    end.
Proof.
  intros Gen seeded choice self data j w.
  rewrite negate_col_iscale.
  pose proof (flip_at_sign j) as Hs.
  unfold _run_mod_kmeans, _compute_maps.
  rewrite n_cols_iscale.
  destruct (draw_init_times seeded choice (random_state self) (n_cols data)
              (n_clusters self) w) as [[ts|e] w1]; cbn [bind]; [|split; reflexivity].
  cbv zeta.
  pose proof (@init_maps_up_to_sign (flip_at j) data ts Hs) as Hi.
  rewrite (Forall2_length Hi).
  destruct (Nat.eqb (length (init_maps data ts)) 0 && Nat.ltb 0 (max_iter self));
    cbn [bind]; [split; reflexivity|].
  rewrite transpose_iscale.
  pose proof (@kmeans_iter_up_to_sign (flip_at j) (max_iter self) data
                (transpose data) (tol self) _ _ None Hs Hi) as Hk.
  rewrite (Forall2_length Hk).
  destruct (Nat.eqb (length (kmeans_iter (max_iter self) data (transpose data)
                               (tol self) (init_maps data ts) None)) 0);
    [split; reflexivity|].
  destruct (@score_maps_up_to_sign (flip_at j) data _ _ Hs Hk) as [Hg Hseg].
  split; [exact Hseg|]. split; [exact Hg|]. split; [exact Hk|reflexivity].
Qed.

Close Scope R_scope.

(** ** IEEE binary64: division by one, and x - x *)

Lemma Prim2SF_one : Prim2SF (f64_of_Z 1) = SF_one.
Proof. vm_compute. reflexivity. Qed.

Lemma Prim2SF_zero : Prim2SF PrimFloat.zero = S754_zero false.
Proof. vm_compute. reflexivity. Qed.

Lemma valid_finite_cases (m : positive) (e : Z) :
  SpecFloat.bounded prec emax m e = true ->
  (e <= 971)%Z /\
  ((Zpos (SpecFloat.digits2_pos m) = 53%Z /\ (-1074 <= e)%Z) \/
   (e = (-1074)%Z /\ (Zpos (SpecFloat.digits2_pos m) <= 53)%Z)).
Proof.
  unfold SpecFloat.bounded, SpecFloat.canonical_mantissa, SpecFloat.fexp, SpecFloat.emin, prec, emax.
  intros H. apply andb_true_iff in H. destruct H as [H1 H2].
  apply Z.eqb_eq in H1. apply Z.leb_le in H2.
  split; [lia|]. lia.
Qed.

Lemma round_exact_canonical (sx : bool) (m : positive) (e : Z) :
  SpecFloat.bounded prec emax m e = true ->
  SpecFloat.binary_round_aux prec emax sx (Zpos m) e loc_Exact = S754_finite sx m e.
Proof.
  intros H. pose proof H as Hb.
  unfold SpecFloat.bounded, SpecFloat.canonical_mantissa in H.
  apply andb_true_iff in H. destruct H as [H1 H2].
  apply Z.eqb_eq in H1.
  unfold SpecFloat.binary_round_aux, SpecFloat.shr_fexp. cbn [SpecFloat.Zdigits2 SpecFloat.shr_record_of_loc].
  rewrite H1, Z.sub_diag. cbn [SpecFloat.shr SpecFloat.shr_m SpecFloat.loc_of_shr_record SpecFloat.round_nearest_even].
  cbn [SpecFloat.Zdigits2 SpecFloat.shr_record_of_loc]. rewrite H1, Z.sub_diag.
  cbn [SpecFloat.shr SpecFloat.shr_m]. rewrite H2. reflexivity.
Qed.

Lemma round_exact_double (sx : bool) (m : positive) (e : Z) :
  Zpos (SpecFloat.digits2_pos m) = 53%Z -> (-1073 <= e <= 971)%Z ->
  SpecFloat.binary_round_aux prec emax sx (Zpos (xO m)) (e - 1) loc_Exact
  = S754_finite sx m e.
Proof.
  intros Hd He.
  unfold SpecFloat.binary_round_aux, SpecFloat.shr_fexp. cbn [SpecFloat.Zdigits2 SpecFloat.shr_record_of_loc SpecFloat.digits2_pos].
  rewrite Pos2Z.inj_succ, Hd.
  assert (H1 : (SpecFloat.fexp prec emax (Z.succ 53 + (e - 1)) - (e - 1) = 1)%Z).
  { unfold SpecFloat.fexp, SpecFloat.emin, prec, emax. lia. }
  rewrite H1.
  cbn [SpecFloat.shr SpecFloat.iter_pos SpecFloat.shr_1 SpecFloat.shr_m SpecFloat.loc_of_shr_record SpecFloat.round_nearest_even orb
       SpecFloat.Zdigits2 SpecFloat.shr_record_of_loc].
  rewrite Hd.
  assert (H2 : (SpecFloat.fexp prec emax (53 + (e - 1 + 1)) - (e - 1 + 1) = 0)%Z).
  { unfold SpecFloat.fexp, SpecFloat.emin, prec, emax. lia. }
  rewrite H2. cbn [SpecFloat.shr SpecFloat.shr_m].
  replace (e - 1 + 1)%Z with e by lia.
  assert (Z.leb e (emax - prec) = true) as ->
    by (apply Z.leb_le; unfold emax, prec; lia).
  reflexivity.
Qed.

Lemma div_eucl_exact (a b : Z) :
  (0 < b)%Z -> Z.div_eucl (a * b) b = (a, 0%Z).
Proof.
  intros Hb.
  pose proof (Z.div_mul a b ltac:(lia)) as Hq.
  pose proof (Z.mod_mul a b ltac:(lia)) as Hr.
  unfold Z.div, Z.modulo in *.
  destruct (Z.div_eucl (a * b) b) as [q r]. simpl in *. congruence.
Qed.

(* x / 1 = x for every finite binary64 number *)
Lemma SFdiv_one (s : bool) (m : positive) (e : Z) :
  SpecFloat.bounded prec emax m e = true ->
  SF64div (S754_finite s m e) SF_one = S754_finite s m e.
Proof.
  intros Hb. destruct (valid_finite_cases m e Hb) as [He Hcases].
  unfold SF64div, SpecFloat.SFdiv, SF_one, SpecFloat.SFdiv_core_binary.
  cbn [SpecFloat.Zdigits2]. rewrite xorb_false_r.
  change (Zpos (SpecFloat.digits2_pos 4503599627370496)) with 53%Z.
  assert (Hloc : SpecFloat.new_location 4503599627370496 0 = loc_Exact) by reflexivity.
  destruct Hcases as [[Hd Hemin] | [-> Hd]].
  - destruct (Z.eq_dec e (-1074)) as [-> | Hne].
    + (* normal number with the least exponent *)
      rewrite Hd.
      change (Z.min (SpecFloat.fexp prec emax (53 + -1074 - (53 + -52))) (-1074 - -52))
        with (-1074)%Z.
      change (-1074 - -52 - -1074)%Z with 52%Z.
      cbv iota beta.
      rewrite Z.shiftl_mul_pow2 by lia.
      change (2 ^ 52)%Z with 4503599627370496%Z.
      rewrite div_eucl_exact by lia. rewrite Hloc.
      now apply round_exact_canonical.
    + rewrite Hd.
      assert (He' : Z.min (SpecFloat.fexp prec emax (53 + e - (53 + -52))) (e - -52)
                    = (e - 1)%Z).
      { unfold SpecFloat.fexp, SpecFloat.emin, prec, emax. lia. }
      rewrite He'.
      replace (e - -52 - (e - 1))%Z with 53%Z by lia.
      cbv iota beta.
      rewrite Z.shiftl_mul_pow2 by lia.
      replace (Zpos m * 2 ^ 53)%Z with (Zpos (xO m) * 4503599627370496)%Z
        by (change (2 ^ 53)%Z with (2 * 4503599627370496)%Z;
            rewrite (Pos2Z.inj_xO m); ring).
      rewrite div_eucl_exact by lia. rewrite Hloc.
      apply round_exact_double; [exact Hd|lia].
  - (* subnormal *)
    assert (He' : Z.min (SpecFloat.fexp prec emax
                           (Zpos (SpecFloat.digits2_pos m) + -1074 - (53 + -52)))
                        (-1074 - -52) = (-1074)%Z).
    { unfold SpecFloat.fexp, SpecFloat.emin, prec, emax. lia. }
    rewrite He'.
    change (-1074 - -52 - -1074)%Z with 52%Z.
    cbv iota beta.
    rewrite Z.shiftl_mul_pow2 by lia.
    change (2 ^ 52)%Z with 4503599627370496%Z.
    rewrite div_eucl_exact by lia. rewrite Hloc.
    now apply round_exact_canonical.
Qed.

(* x - x = +0 for every finite binary64 number *)
Lemma SFsub_self (s : bool) (m : positive) (e : Z) :
  SF64sub (S754_finite s m e) (S754_finite s m e) = S754_zero false.
Proof.
  unfold SF64sub, SpecFloat.SFsub. cbv zeta.
  rewrite Z.min_id. unfold SpecFloat.shl_align. rewrite !Z.sub_diag. cbn [fst].
  rewrite ?Z.sub_diag. reflexivity.
Qed.

(** ** IEEE binary64: infinities and NaN through the operations *)

Section F64.

Lemma f64_add (a b : float) : Prim2SF (fadd a b) = SF64add (Prim2SF a) (Prim2SF b).
Proof. exact (add_spec a b). Qed.
Lemma f64_sub (a b : float) : Prim2SF (fsub a b) = SF64sub (Prim2SF a) (Prim2SF b).
Proof. exact (sub_spec a b). Qed.
Lemma f64_mul (a b : float) : Prim2SF (fmul a b) = SF64mul (Prim2SF a) (Prim2SF b).
Proof. exact (mul_spec a b). Qed.
Lemma f64_div (a b : float) : Prim2SF (fdiv a b) = SF64div (Prim2SF a) (Prim2SF b).
Proof. exact (div_spec a b). Qed.
Lemma f64_sqrt (a : float) : Prim2SF (fsqrt a) = SF64sqrt (Prim2SF a).
Proof. exact (sqrt_spec a). Qed.
Lemma f64_abs (a : float) : Prim2SF (fabs a) = SFabs (Prim2SF a).
Proof. exact (abs_spec a). Qed.
Lemma f64_leb (a b : float) : fleb a b = SFleb (Prim2SF a) (Prim2SF b).
Proof. exact (leb_spec a b). Qed.
Lemma f64_zero : Prim2SF (@fzero float _) = S754_zero false.
Proof. exact Prim2SF_zero. Qed.

Lemma mul_nonfinite_r (c y : float) : nonfinite y -> nonfinite (fmul c y).
Proof.
  unfold nonfinite. rewrite f64_mul.
  intros [-> | [s ->]]; destruct (Prim2SF c) as [sc|sc| |sc mc ec]; simpl; eauto.
Qed.

Lemma square_nonfinite (y : float) : nonfinite y -> pinf_or_nan (fsq y).
Proof.
  unfold nonfinite, pinf_or_nan, fsq. rewrite f64_mul.
  intros [-> | [s ->]]; simpl; [now left|]. right. now destruct s.
Qed.

Lemma add_nonfinite (a b : float) : nonfinite a -> nonfinite b -> nonfinite (fadd a b).
Proof.
  unfold nonfinite. rewrite f64_add.
  intros [-> | [s ->]] [-> | [t ->]]; simpl; eauto.
  destruct s, t; eauto.
Qed.

Lemma zero_add_nonfinite (b : float) : nonfinite b -> nonfinite (fadd fzero b).
Proof.
  unfold nonfinite. rewrite f64_add, f64_zero.
  intros [-> | [t ->]]; simpl; eauto.
Qed.

Lemma add_pinf_or_nan (a b : float) :
  pinf_or_nan a -> pinf_or_nan b -> pinf_or_nan (fadd a b).
Proof.
  unfold pinf_or_nan. rewrite f64_add.
  intros [-> | ->] [-> | ->]; simpl; auto.
Qed.

Lemma zero_add_pinf_or_nan (b : float) : pinf_or_nan b -> pinf_or_nan (fadd fzero b).
Proof.
  unfold pinf_or_nan. rewrite f64_add, f64_zero.
  intros [-> | ->]; simpl; auto.
Qed.

Lemma sub_pinf_or_nan (a b : float) :
  pinf_or_nan a -> pinf_or_nan b -> is_NaN (fsub a b).
Proof.
  unfold pinf_or_nan, is_NaN. rewrite f64_sub.
  intros [-> | ->] [-> | ->]; reflexivity.
Qed.

Lemma nonfinite_square_pinf (p : float) : nonfinite p -> pinf_or_nan (fsq p).
Proof. apply square_nonfinite. Qed.

Lemma zero_add_NaN (a : float) : is_NaN a -> is_NaN (fadd fzero a).
Proof. unfold is_NaN. rewrite f64_add, f64_zero. now intros ->. Qed.

Lemma div_NaN (a d : float) : is_NaN a -> is_NaN (fdiv a d).
Proof. unfold is_NaN. rewrite f64_div. now intros ->. Qed.

Lemma sub_NaN (a b : float) : is_NaN a -> is_NaN (fsub a b).
Proof. unfold is_NaN. rewrite f64_sub. now intros ->. Qed.

Lemma abs_NaN (a : float) : is_NaN a -> is_NaN (fabs a).
Proof. unfold is_NaN. rewrite f64_abs. now intros ->. Qed.

Lemma leb_NaN (a b : float) : is_NaN a -> fleb a b = false.
Proof. unfold is_NaN. rewrite f64_leb. now intros ->. Qed.

(* a sum of at least one term, all infinite or NaN, is infinite or NaN *)
Lemma fold_add_nonfinite (l : list float) (acc : float) :
  nonfinite acc -> Forall nonfinite l -> nonfinite (fold_left fadd l acc).
Proof.
  revert acc. induction l as [|x l IH]; intros acc Ha Hl; simpl; [exact Ha|].
  inversion Hl; subst. apply IH; [|assumption]. now apply add_nonfinite.
Qed.

Lemma fsum_nonfinite (l : list float) :
  l <> [] -> Forall nonfinite l -> nonfinite (fsum l).
Proof.
  destruct l as [|x l]; [congruence|]. intros _ Hl. inversion Hl; subst.
  unfold fsum. simpl. apply fold_add_nonfinite; [|assumption].
  now apply zero_add_nonfinite.
Qed.

Lemma fold_add_pinf_or_nan (l : list float) (acc : float) :
  pinf_or_nan acc -> Forall pinf_or_nan l -> pinf_or_nan (fold_left fadd l acc).
Proof.
  revert acc. induction l as [|x l IH]; intros acc Ha Hl; simpl; [exact Ha|].
  inversion Hl; subst. apply IH; [|assumption]. now apply add_pinf_or_nan.
Qed.

Lemma fsum_pinf_or_nan (l : list float) :
  l <> [] -> Forall pinf_or_nan l -> pinf_or_nan (fsum l).
Proof.
  destruct l as [|x l]; [congruence|]. intros _ Hl. inversion Hl; subst.
  unfold fsum. simpl. apply fold_add_pinf_or_nan; [|assumption].
  now apply zero_add_pinf_or_nan.
Qed.

(* the one sample of a channel divided by the standard deviation of that
   channel: the deviation is 0 (or NaN), the quotient infinite or NaN *)
Lemma single_sample_scaled (x : float) : nonfinite (fdiv x (std [x])).
Proof.
  unfold nonfinite, std, mean, fsum, fsq.
  cbn [map fold_left length Z.of_nat Pos.of_succ_nat].
  change (@of_Z float _ 1%Z) with (f64_of_Z 1).
  rewrite f64_div, f64_sqrt, f64_div, f64_add, f64_mul, f64_abs, f64_sub,
          f64_div, f64_add, f64_zero, Prim2SF_one.
  pose proof (Prim2SF_valid x) as Hv.
  destruct (Prim2SF x) as [s|s| |s m e].
  - left. destruct s; reflexivity.
  - left. destruct s; reflexivity.
  - left. reflexivity.
  - cbn [valid_binary] in Hv.
    change (SF64add (S754_zero false) (S754_finite s m e)) with (S754_finite s m e).
    rewrite (@SFdiv_one s m e Hv), SFsub_self.
    right. exists s. destruct s; reflexivity.
Qed.

End F64.

(** ** The loop of _segment at the defaults of predict, binary64 *)

Lemma f64_sub_zero (a : float) : fsub a fzero = a.
Proof.
  apply Prim2SF_inj. rewrite f64_sub, f64_zero.
  destruct (Prim2SF a) as [s|s| |s m e]; try reflexivity.
  now destruct s.
Qed.













(** ** A recording of one sample is never labelled *)

Lemma zip_mul_nonfinite (center ys : list float) :
  Forall nonfinite ys -> Forall nonfinite (zip_with fmul center ys).
Proof.
  intros Hy. revert center.
  induction Hy as [|y ys Hy Hys IH]; intros [|c center]; simpl; constructor.
  - now apply mul_nonfinite_r.
  - apply IH.
Qed.

Lemma fitted_proj_nonfinite (states : matrix float) (wt ys : list float) :
  ys <> [] -> Forall nonfinite ys -> nonfinite (fitted_proj states wt ys).
Proof.
  intros Hne Hy. unfold fitted_proj. cbv zeta.
  apply fsum_nonfinite; [|now apply zip_mul_nonfinite].
  destruct ys as [|y ys]; [congruence|]. simpl. discriminate.
Qed.

Lemma squares_pinf_or_nan (ys : list float) :
  Forall nonfinite ys -> Forall pinf_or_nan (map fsq ys).
Proof.
  intros Hy. induction Hy; simpl; constructor; auto.
  now apply square_nonfinite.
Qed.

Lemma unexplained_single_sample (states : matrix float) (ys : list float)
    (Nt Ne : nat) (l : nat) :
  states <> [] -> ys <> [] -> Forall nonfinite ys ->
  is_NaN (unexplained states (one_hot (length states) [l]) [ys]
            [fsum (map fsq ys)] Nt Ne).
Proof.
  intros Hs Hne Hy. unfold unexplained.
  assert (Ht : exists wt, transpose (one_hot (F:=float) (length states) [l]) = [wt]).
  { destruct states as [|s states]; [congruence|].
    eexists. unfold transpose, one_hot, n_cols. simpl. reflexivity. }
  destruct Ht as [wt ->]. cbn [zip_with].
  apply div_NaN. unfold fsum at 1. cbn [fold_left].
  apply zero_add_NaN. apply sub_pinf_or_nan.
  - apply fsum_pinf_or_nan; [|now apply squares_pinf_or_nan].
    destruct ys; [congruence|discriminate].
  - apply square_nonfinite. now apply fitted_proj_nonfinite.
Qed.

Lemma segment_loop_single_sample (fuel : nat) (states : matrix float)
    (ys : list float) (Nt Ne h : nat) (factor crit e : float)
    (w : matrix float) (S0 : float) :
  states <> [] -> ys <> [] -> Forall nonfinite ys ->
  segment_loop fuel states [ys] [fsum (map fsq ys)] Nt Ne h factor crit e w S0
  = None.
Proof.
  intros Hs Hne Hy. revert w S0.
  induction fuel as [|n IH]; intros w S0; [reflexivity|].
  cbn [segment_loop].
  assert (Hd : exists l, relabel states [ys] [fsum (map fsq ys)] Ne h factor e w = [l]).
  { unfold relabel. simpl. eexists. reflexivity. }
  destruct Hd as [l ->].
  rewrite leb_NaN; [apply IH|].
  apply abs_NaN, sub_NaN. now apply unexplained_single_sample.
Qed.

(* with one sample _segment either raises on the shapes or never leaves
   its loop *)
Lemma segment_single_sample (fuel : nat) (data states : matrix float)
    (h : nat) (factor crit : float) (out : list nat) :
  n_cols data = 1 -> Forall (fun r => length r = n_cols data) data ->
  _segment fuel data states h factor crit <> Some (Ok out).
Proof.
  intros HT Hrect. unfold _segment.
  destruct (negb (forallb _ states)); [discriminate|].
  destruct (Nat.eqb (length states) 0) eqn:EK; [discriminate|].
  apply Nat.eqb_neq in EK. cbv zeta.
  assert (Hsamples : exists ys, transpose (scale_rows data) = [ys] /\
                                ys <> [] /\ Forall nonfinite ys).
  { unfold transpose. rewrite n_cols_scale_rows, HT. cbn [seq map].
    eexists. split; [reflexivity|]. split.
    - destruct data as [|r data]; [discriminate|]. discriminate.
    - unfold col, scale_rows. rewrite map_map.
      rewrite Forall_forall. intros y Hy. apply in_map_iff in Hy.
      destruct Hy as [r [<- Hr]].
      rewrite Forall_forall in Hrect. specialize (Hrect r Hr). rewrite HT in Hrect.
      destruct r as [|x [|x' r]]; try discriminate.
      simpl. apply single_sample_scaled. }
  destruct Hsamples as [ys [-> [Hne Hy]]]. cbn [map].
  rewrite segment_loop_single_sample; [discriminate| |exact Hne|exact Hy].
  unfold scale_rows. destruct states; [simpl in EK; congruence|discriminate].
Qed.

(** ** The output of predict *)

Lemma boundaries_unlabeled_values (l : list nat) (K : nat) :
  Forall (fun x => x <= K) l -> Forall (fun x => x <= K) (boundaries_unlabeled l).
Proof.
  intros Hl. unfold boundaries_unlabeled. rewrite Forall_forall.
  intros x Hx. apply in_map_iff in Hx. destruct Hx as [i [<- Hi]].
  destruct (_ || _); [lia|].
  apply in_seq in Hi. rewrite Forall_forall in Hl. apply Hl, nth_In. lia.
Qed.

(** C4, as amended.  predict on a single contiguous segment (no rejection
    by annotation, or no BAD annotation) of T >= 2 samples with K centers,
    in any arithmetic, IEEE binary64 included.  Whenever it returns a label
    sequence, the sequence has length T, its values lie in 0..K, and it is
    a sequence of labels 1..K whose first and last maximal runs have been
    set to 0.  And it does return one, the same for every number of passes
    from two on, when the model is fitted, the K >= 1 centers have one
    entry per channel, the second pass of _segment repeats the labels of
    the first and its test holds between two equal values of Su. *)
Theorem predict_output_contract :
  forall {F : Type} {NF : Num F} (self : @ModKMeans F) (centers data : matrix F)
         (reject_by_annotation : bool) (onsets _ends : list nat)
         (half_window_size : nat) (factor crit : F),
    cluster_centers self = Some centers ->
    reject_by_annotation = false \/ onsets = [] ->
    2 <= n_cols data ->
    (forall (fuel : nat) (out : list nat),
       predict fuel self data reject_by_annotation onsets _ends
         half_window_size factor crit = Some (Ok out) ->
       length out = n_cols data /\
       Forall (fun x => x <= length centers) out /\
       exists labels,
         length labels = n_cols data /\
         Forall (fun x => 1 <= x <= length centers) labels /\
         out = boundaries_unlabeled labels)
    /\
    (current_fit self <> unfitted ->
     centers <> [] ->
     Forall (fun c => length c = n_rows data) centers ->
     labels_2 (two_passes data centers half_window_size factor)
     = labels_1 (two_passes data centers half_window_size factor) ->
     settled crit (Su_1 (two_passes data centers half_window_size factor)) = true ->
     exists out, forall fuel, 2 <= fuel ->
       predict fuel self data reject_by_annotation onsets _ends
         half_window_size factor crit = Some (Ok out)).
Proof.
  intros F NF self centers data rej onsets ends h factor crit Hc Hsingle HT.
  assert (Hlabels : forall la out,
            length la = n_cols data ->
            Forall (fun k => k < length centers) la ->
            unlabel_boundaries la = Ok out ->
            length out = n_cols data /\
            Forall (fun x => x <= length centers) out /\
            exists labels,
              length labels = n_cols data /\
              Forall (fun x => 1 <= x <= length centers) labels /\
              out = boundaries_unlabeled labels).
  { intros la out Hlen Hk Hu.
    rewrite (unlabel_boundaries_spec la) in Hu by lia. injection Hu as <-.
    assert (HS : Forall (fun x => 1 <= x <= length centers) (map S la)).
    { rewrite Forall_forall in *. intros x Hx. apply in_map_iff in Hx.
      destruct Hx as [y [<- Hy]]. specialize (Hk y Hy). lia. }
    split; [now rewrite boundaries_unlabeled_length, length_map|].
    split.
    - apply boundaries_unlabeled_values.
      eapply Forall_impl; [|exact HS]. simpl. intros; lia.
    - exists (map S la).
      split; [now rewrite length_map|]. split; [exact HS|reflexivity]. }
  split.
  - intros fuel out Hp.
    assert (Hseg : _segment fuel data centers h factor crit = Some (Ok out)).
    { unfold predict in Hp. destruct (_check_fit self); [|discriminate].
      rewrite Hc in Hp.
      destruct Hsingle as [-> | ->]; [exact Hp|].
      destruct rej; exact Hp. }
    destruct (segment_returns _ _ _ _ _ _ Hseg) as [la [Hlen [Hk Hu]]].
    exact (Hlabels la out Hlen Hk Hu).
  - intros Hfit Hne Hshape Hrep Hset.
    assert (Hf : forallb (fun r => Nat.eqb (length r) (n_rows data)) centers = true).
    { apply forallb_forall. intros c Hin. rewrite Forall_forall in Hshape.
      apply Nat.eqb_eq. now apply Hshape. }
    assert (Hseg : forall fuel, 2 <= fuel ->
              _segment fuel data centers h factor crit
              = Some (unlabel_boundaries (labels_1 (two_passes data centers h factor)))).
    { intros fuel Hfuel. now apply segment_two_passes. }
    assert (Hlen : length (labels_1 (two_passes data centers h factor)) = n_cols data).
    { unfold two_passes. cbv zeta. cbn [labels_1].
      rewrite relabel_length by (now rewrite length_map).
      now rewrite transpose_length, n_cols_scale_rows. }
    rewrite (unlabel_boundaries_spec _) in Hseg by lia.
    eexists. intros fuel Hfuel.
    unfold predict, _check_fit.
    destruct (current_fit self); [congruence| | |]; rewrite Hc;
      (destruct Hsingle as [-> | ->]; [|destruct rej]); now apply Hseg.
Qed.

Lemma predict_output_contract_witness :
  let self := Inputs.fitted 2 Inputs.centers_2x3 [] in
  exists out,
    (forall fuel, 2 <= fuel ->
       predict fuel self Inputs.data_3x9 false [] [] 3 0%float Inputs.default_crit
       = Some (Ok out)) /\
    length out = 9 /\
    Forall (fun x => x <= 2) out /\
    exists labels,
      length labels = 9 /\
      Forall (fun x => 1 <= x <= 2) labels /\
      out = boundaries_unlabeled labels.
Proof.
  intros self.
  destruct (@predict_output_contract float _ self Inputs.centers_2x3
              Inputs.data_3x9 false [] [] 3 0%float Inputs.default_crit
              eq_refl (or_introl eq_refl)) as [Hcontract Hreturns].
  - cbv. lia.
  - destruct Hreturns as [out Hout].
    + discriminate.
    + discriminate.
    + repeat constructor.
    + vm_compute. reflexivity.
    + vm_compute. reflexivity.
    + exists out. split; [exact Hout|].
      apply (Hcontract 2 out). apply Hout. lia.
Defined.

(** C4, the claim as stated fails: not every single-segment input has a
    returned label sequence.  With a channel that stays constant the row is
    divided by a standard deviation of 0, the unexplained variance is NaN
    in every pass, and predict on the nine samples never returns. *)
Lemma predict_flat_channel_never_returns :
  n_cols Inputs.flat_channel = 9 /\
  forall fuel,
    predict fuel (Inputs.fitted 2 Inputs.centers_2x3 []) Inputs.flat_channel
      false [] [] 3 0%float Inputs.default_crit = None.
Proof.
  split; [reflexivity|].
  intros fuel.
  change (_segment fuel Inputs.flat_channel Inputs.centers_2x3 3 0%float
            Inputs.default_crit = None).
  unfold _segment.
  replace (negb (forallb (fun r => Nat.eqb (length r) (n_rows Inputs.flat_channel))
                   Inputs.centers_2x3))
    with false by (vm_compute; reflexivity).
  replace (Nat.eqb (length Inputs.centers_2x3) 0) with false by reflexivity.
  cbv zeta.
  erewrite segment_loop_stuck_after_one; [reflexivity| | | | | ].
  - reflexivity.
  - reflexivity.
  - vm_compute. reflexivity.
  - vm_compute. reflexivity.
  - vm_compute. reflexivity.
Qed.

(** * Further properties *)

(** ** reorder with a valid order, and the ends of a segmentation *)

(* a valid order is accepted, and row i of the result is row order[i] *)
Lemma reorder_valid_order :
  forall (F : Type) (NF : Num F) (self : @ModKMeans F) (order : list Z)
         (c : matrix F),
    current_fit self <> unfitted ->
    cluster_centers self = Some c ->
    length c = n_clusters self ->
    Permutation order (arange (n_clusters self)) ->
    exists c',
      reorder self order = (Ok tt, set_cluster_centers self c') /\
      map Some c' = map (fun i => nth_error c (Z.to_nat i)) order /\
      Permutation c' c.
Proof.
  intros F NF self order c Hfit Hc Hlen Hperm.
  assert (Hall : Forall (fun i => (0 <= i < Z.of_nat (length c))%Z) order).
  { rewrite Hlen. apply Forall_forall. intros i Hi.
    apply (Permutation_in _ Hperm) in Hi. unfold arange in Hi.
    apply in_map_iff in Hi. destruct Hi as [k [<- Hk]].
    apply in_seq in Hk. lia. }
  destruct (take_rows_ok c Hall) as [c' [Ht Hm]].
  exists c'. split; [|split; [exact Hm|]].
  - unfold reorder, _check_fit.
    destruct (current_fit self); [contradiction| | |];
      (apply np_sort_eq_arange in Hperm; rewrite Hperm;
       unfold ne_broadcast; rewrite Nat.eqb_refl;
       assert (He : existsb (fun b : bool => b)
                      (zip_with (fun x y => negb (Z.eqb x y))
                         (arange (n_clusters self)) (arange (n_clusters self))) = false)
         by (apply zip_ne_none; reflexivity);
       rewrite He, Hc, Ht; reflexivity).
  - rewrite <- Hlen in Hperm.
    destruct (take_rows_permutation c Hperm) as [c2 [Ht2 Hp]].
    rewrite Ht in Ht2. injection Ht2 as <-. exact Hp.
Qed.


(** X1. reorder with a valid order.  On a fitted model that holds its
    n_clusters centers, an order that is a permutation of 0..n_clusters-1
    is accepted: row i of the new centers is row order[i] of the old
    ones, so the new rows are a permutation of the old rows, and nothing
    else of the object changes. *)
Theorem reorder_valid_order_selects_rows :
  forall (F : Type) (NF : Num F) (self : @ModKMeans F) (order : list Z)
         (c : matrix F),
    current_fit self <> unfitted ->
    cluster_centers self = Some c ->
    length c = n_clusters self ->
    Permutation order (arange (n_clusters self)) ->
    exists c',
      reorder self order = (Ok tt, set_cluster_centers self c') /\
      map Some c' = map (fun i => nth_error c (Z.to_nat i)) order /\
      Permutation c' c.
Proof. exact reorder_valid_order. Qed.

Lemma reorder_valid_order_selects_rows_witness :
  exists c',
    reorder (Inputs.fitted 2 Inputs.centers_2x3 []) [1; 0]%Z
    = (Ok tt, set_cluster_centers (Inputs.fitted 2 Inputs.centers_2x3 []) c') /\
    map Some c' = map (fun i => nth_error Inputs.centers_2x3 (Z.to_nat i)) [1; 0]%Z /\
    Permutation c' Inputs.centers_2x3.
Proof.
  apply (@reorder_valid_order_selects_rows float _
           (Inputs.fitted 2 Inputs.centers_2x3 []) [1; 0]%Z Inputs.centers_2x3).
  - discriminate.
  - reflexivity.
  - reflexivity.
  - apply perm_swap.
Defined.

(** X2. For two clusters or more, reorder raises exactly when the order
    is not a permutation of 0..n_clusters-1, and a call that raises
    leaves the object as it was. *)
Theorem reorder_validates_order_of_two_or_more :
  forall (F : Type) (NF : Num F) (self : @ModKMeans F) (order : list Z)
         (c : matrix F),
    2 <= n_clusters self ->
    current_fit self <> unfitted ->
    cluster_centers self = Some c ->
    length c = n_clusters self ->
    ((exists e, fst (reorder self order) = Raise e) <->
     ~ Permutation order (arange (n_clusters self))) /\
    (forall e, fst (reorder self order) = Raise e ->
               snd (reorder self order) = self).
Proof.
  intros F NF self order c HK Hfit Hc Hlen. split.
  - exact (reorder_raises_iff self order HK Hfit Hc Hlen).
  - intros e. apply reorder_raise_unchanged.
Qed.

Lemma reorder_validates_order_of_two_or_more_witness :
  let self := Inputs.fitted 2 Inputs.centers_2x3 [] in
  ((exists e, fst (reorder self [0; 0]%Z) = Raise e) <->
   ~ Permutation [0; 0]%Z (arange (n_clusters self))) /\
  (forall e, fst (reorder self [0; 0]%Z) = Raise e ->
             snd (reorder self [0; 0]%Z) = self).
Proof.
  apply (@reorder_validates_order_of_two_or_more float _
           (Inputs.fitted 2 Inputs.centers_2x3 []) [0; 0]%Z Inputs.centers_2x3).
  - simpl. lia.
  - discriminate.
  - reflexivity.
  - reflexivity.
Defined.

Lemma first_run_pos (l : list nat) : l <> [] -> 1 <= first_run l.
Proof.
  destruct l as [|x r]; [congruence|]. intros _.
  unfold first_run. simpl. rewrite Nat.eqb_refl. lia.
Qed.

Lemma last_run_pos (l : list nat) : l <> [] -> 1 <= last_run l.
Proof.
  intros H. unfold last_run. apply first_run_pos.
  intros E. apply H. apply (f_equal (@rev nat)) in E.
  rewrite rev_involutive in E. exact E.
Qed.

Lemma boundaries_unlabeled_nth (l : list nat) (i : nat) :
  i < length l ->
  nth_error (boundaries_unlabeled l) i
  = Some (if Nat.ltb i (first_run l) || Nat.leb (length l - last_run l) i
          then 0 else nth i l 0).
Proof.
  intros Hi. unfold boundaries_unlabeled.
  rewrite nth_error_map, nth_error_seq.
  destruct (Nat.ltb_spec i (length l)); [reflexivity|lia].
Qed.

Lemma leading_run_map_S (a : nat) (l : list nat) :
  leading_run (S a) (map S l) = leading_run a l.
Proof.
  induction l as [|x r IH]; simpl; [reflexivity|].
  destruct (Nat.eqb x a); [now rewrite IH|reflexivity].
Qed.

Lemma first_run_map_S (l : list nat) : first_run (map S l) = first_run l.
Proof.
  unfold first_run. destruct l as [|x r]; [reflexivity|].
  exact (leading_run_map_S x (x :: r)).
Qed.

Lemma last_run_map_S (l : list nat) : last_run (map S l) = last_run l.
Proof. unfold last_run. rewrite <- map_rev. apply first_run_map_S. Qed.

(** X3. The boundary rule of _segment (lines 157-170) on a label
    sequence of at least two samples: the output has the same length, its
    first and its last entry are 0, and entry i is 0 inside the first and
    the last run of equal labels and label + 1 everywhere else. *)
Theorem segment_unlabels_both_ends :
  forall (labels_all : list nat),
    2 <= length labels_all ->
    exists out,
      unlabel_boundaries labels_all = Ok out /\
      length out = length labels_all /\
      nth_error out 0 = Some 0 /\
      nth_error out (length labels_all - 1) = Some 0 /\
      forall i, i < length labels_all ->
        nth_error out i
        = Some (if Nat.ltb i (first_run labels_all)
                   || Nat.leb (length labels_all - last_run labels_all) i
                then 0 else S (nth i labels_all 0)).
Proof.
  intros l Hl.
  exists (boundaries_unlabeled (map S l)).
  assert (Hne : l <> []) by (destruct l; simpl in Hl; [lia|discriminate]).
  assert (Hlen : length (boundaries_unlabeled (map S l)) = length l)
    by (rewrite boundaries_unlabeled_length; apply length_map).
  assert (Hnth : forall i, i < length l ->
            nth_error (boundaries_unlabeled (map S l)) i
            = Some (if Nat.ltb i (first_run l) || Nat.leb (length l - last_run l) i
                    then 0 else S (nth i l 0))).
  { intros i Hi. rewrite boundaries_unlabeled_nth by (rewrite length_map; exact Hi).
    rewrite first_run_map_S, last_run_map_S, length_map.
    destruct (_ || _); [reflexivity|].
    f_equal. rewrite (nth_indep _ 0 (S 0)) by (rewrite length_map; exact Hi).
    apply map_nth. }
  split; [apply unlabel_boundaries_spec; exact Hl|].
  split; [exact Hlen|].
  pose proof (first_run_pos Hne) as Hf. pose proof (last_run_pos Hne) as Hr.
  split; [|split; [|exact Hnth]].
  - rewrite Hnth by lia.
    destruct (Nat.ltb_spec 0 (first_run l)); [reflexivity|lia].
  - rewrite Hnth by lia.
    destruct (Nat.leb_spec (length l - last_run l) (length l - 1));
      [now rewrite orb_true_r|lia].
Qed.

Lemma segment_unlabels_both_ends_witness :
  exists out,
    unlabel_boundaries [0; 0; 1; 1; 0] = Ok out /\
    length out = 5 /\
    nth_error out 0 = Some 0 /\
    nth_error out 4 = Some 0 /\
    forall i, i < 5 ->
      nth_error out i
      = Some (if Nat.ltb i (first_run [0; 0; 1; 1; 0])
                 || Nat.leb (5 - last_run [0; 0; 1; 1; 0]) i
              then 0 else S (nth i [0; 0; 1; 1; 0] 0)).
Proof.
  apply (segment_unlabels_both_ends [0; 0; 1; 1; 0]). simpl. lia.
Defined.

(** X4. On a recording of one sample _segment never leaves its loop
    (binary64): every channel is divided by its standard deviation 0, the
    unexplained variance is NaN and the stopping test is never true.
    Whatever the fuel, there is no result. *)
Theorem segment_one_sample_never_returns :
  forall (data states : matrix float) (h : nat) (factor crit : float),
    n_cols data = 1 ->
    Forall (fun r => length r = 1) data ->
    states <> [] ->
    Forall (fun s => length s = n_rows data) states ->
    forall fuel : nat, _segment fuel data states h factor crit = None.
Proof.
  intros data states h factor crit HT Hrect Hne Hshape fuel. unfold _segment.
  assert (Hf : forallb (fun r => Nat.eqb (length r) (n_rows data)) states = true).
  { apply forallb_forall. intros s Hs. rewrite Forall_forall in Hshape.
    apply Nat.eqb_eq. now apply Hshape. }
  rewrite Hf. cbn [negb].
  destruct (Nat.eqb (length states) 0) eqn:EK.
  { apply Nat.eqb_eq in EK. destruct states; [congruence|discriminate]. }
  cbv zeta.
  assert (Hsamples : exists ys, transpose (scale_rows data) = [ys] /\
                                ys <> [] /\ Forall nonfinite ys).
  { unfold transpose. rewrite n_cols_scale_rows, HT. cbn [seq map].
    eexists. split; [reflexivity|]. split.
    - destruct data as [|r data]; [discriminate|]. discriminate.
    - unfold col, scale_rows. rewrite map_map.
      rewrite Forall_forall. intros y Hy. apply in_map_iff in Hy.
      destruct Hy as [r [<- Hr]].
      rewrite Forall_forall in Hrect. specialize (Hrect r Hr).
      destruct r as [|x [|x' r]]; try discriminate.
      simpl. apply single_sample_scaled. }
  destruct Hsamples as [ys [-> [Hys Hy]]]. cbn [map].
  rewrite segment_loop_single_sample; [reflexivity| |exact Hys|exact Hy].
  unfold scale_rows. destruct states; [congruence|discriminate].
Qed.

Lemma segment_one_sample_never_returns_witness :
  n_cols [[1]; [2]]%float = 1 /\
  forall fuel : nat,
    _segment fuel [[1]; [2]]%float [[1; -1]; [1; 2]]%float 3 0%float
      Inputs.default_crit = None.
Proof.
  split; [reflexivity|].
  apply (@segment_one_sample_never_returns [[1]; [2]]%float
           [[1; -1]; [1; 2]]%float 3 0%float Inputs.default_crit).
  - reflexivity.
  - repeat constructor.
  - discriminate.
  - repeat constructor.
Defined.

(** ** smart_reorder: few channels, and the centers it keeps *)

Lemma template_names_distinct : NoDup (map lower ch_names_template_src).
Proof.
  apply (NoDup_count_occ' string_dec).
  intros x Hx. vm_compute in Hx.
  repeat (destruct Hx as [<-|Hx]; [vm_compute; reflexivity|]).
  contradiction.
Qed.

Lemma common_names_bound (template_names names : list string) :
  NoDup template_names ->
  length (filter (fun n => existsb (String.eqb n) names) template_names)
  <= length names.
Proof.
  intros Hnd. apply NoDup_incl_length.
  - now apply NoDup_filter.
  - intros n Hn. apply filter_In in Hn. destruct Hn as [_ Hn].
    apply existsb_exists in Hn. destruct Hn as [m [Hm E]].
    apply String.eqb_eq in E. now subst.
Qed.

(** X5. smart_reorder on a model with at most ten channel names: fewer
    than eleven names can be shared with the template, and the object is
    returned as it is. *)
Theorem smart_reorder_needs_eleven_channels :
  forall (F : Type) (NF : Num F) (self : @ModKMeans F) (c : matrix F)
         (names : list string),
    current_fit self <> unfitted ->
    cluster_centers self = Some c ->
    info self = Some names ->
    length names <= 10 ->
    smart_reorder self = (Ok tt, self).
Proof.
  intros F NF self c names Hfit Hc Hi Hlen.
  unfold smart_reorder, _check_fit.
  destruct (current_fit self); [contradiction| | |];
    rewrite Hc, Hi; cbv zeta;
    match goal with
    | |- (if Nat.leb (length ?l) 10 then _ else _) = _ =>
        assert (Hl : Nat.leb (length l) 10 = true)
    end;
    try (apply Nat.leb_le;
         etransitivity; [apply common_names_bound, template_names_distinct|];
         rewrite length_map; exact Hlen);
    rewrite Hl; reflexivity.
Qed.

Lemma smart_reorder_needs_eleven_channels_witness :
  smart_reorder (Inputs.fitted 2 Inputs.centers_2x3 ["Fp1"; "Fp2"; "Cz"]%string)
  = (Ok tt, Inputs.fitted 2 Inputs.centers_2x3 ["Fp1"; "Fp2"; "Cz"]%string).
Proof.
  apply (@smart_reorder_needs_eleven_channels float _
           (Inputs.fitted 2 Inputs.centers_2x3 ["Fp1"; "Fp2"; "Cz"]%string)
           Inputs.centers_2x3 ["Fp1"; "Fp2"; "Cz"]%string).
  - discriminate.
  - reflexivity.
  - reflexivity.
  - simpl. lia.
Defined.

Lemma take_rows_of_nat {A} (m : list A) (order : list nat) (c : list A) :
  take_rows (map Z.of_nat order) m = Ok c ->
  map Some c = map (nth_error m) order.
Proof.
  revert c. induction order as [|k order IH]; intros c; simpl.
  - intros H. injection H as <-. reflexivity.
  - destruct (Z.ltb_spec (Z.of_nat k) 0) as [Hk|Hk]; [lia|].
    destruct (Z.ltb_spec (Z.of_nat k) 0); [lia|].
    rewrite Nat2Z.id.
    destruct (nth_error m k) as [r|] eqn:E; [|discriminate].
    destruct (take_rows (map Z.of_nat order) m) as [rs|e]; [|discriminate].
    simpl. intros Hc. injection Hc as <-. simpl. f_equal. now apply IH.
Qed.

Lemma matched_order_covers (rows columns : list nat) (K k : nat) :
  k < K -> In k (matched_order rows columns K).
Proof.
  intros Hk. unfold matched_order. cbv zeta.
  set (order := map snd (sorted_pairs (combine rows columns))).
  apply in_or_app.
  destruct (existsb (Nat.eqb k) order) eqn:E.
  - left. apply existsb_exists in E. destruct E as [x [Hx E]].
    apply Nat.eqb_eq in E. now subst.
  - right. apply filter_In. split; [apply in_seq; lia|]. now rewrite E.
Qed.

(** X6. A smart_reorder that returns keeps every center: each old row is
    among the new rows, each new row is an old one, and there are at least
    as many rows as before. *)
Theorem smart_reorder_keeps_every_center :
  forall (F : Type) (NF : Num F) (self self' : @ModKMeans F) (c : matrix F),
    cluster_centers self = Some c ->
    smart_reorder self = (Ok tt, self') ->
    exists c',
      cluster_centers self' = Some c' /\
      incl c c' /\ incl c' c /\ length c <= length c'.
Proof.
  intros F NF self self' c Hc. unfold smart_reorder.
  destruct (_check_fit self) as [u|e0]; [|intros H; discriminate].
  rewrite Hc. destruct (info self) as [names|]; [|intros H; discriminate].
  cbv zeta.
  destruct (Nat.leb _ 10).
  { intros H. injection H as <-. exists c. repeat split; auto using incl_refl. }
  destruct (greedy_match _ _ _ _) as [[rows columns]|e]; [|intros H; discriminate].
  destruct (take_rows _ c) as [c'|e] eqn:Et; [|intros H; discriminate].
  intros H. injection H as <-. exists c'. split; [reflexivity|].
  apply take_rows_of_nat in Et.
  assert (Hin : forall r, In r c' <-> exists k, In k (matched_order rows columns (length c))
                                       /\ nth_error c k = Some r).
  { intros r. split.
    - intros Hr. apply (in_map Some) in Hr. rewrite Et in Hr.
      apply in_map_iff in Hr. destruct Hr as [k [E Hk]]. now exists k.
    - intros [k [Hk E]]. apply (in_map (nth_error c)) in Hk.
      rewrite <- Et, E in Hk. apply in_map_iff in Hk.
      destruct Hk as [r' [E' Hr']]. now injection E' as ->. }
  split; [|split].
  - intros r Hr. apply Hin. apply In_nth_error in Hr. destruct Hr as [k Hk].
    exists k. split; [|exact Hk]. apply matched_order_covers.
    apply nth_error_Some. congruence.
  - intros r Hr. apply Hin in Hr. destruct Hr as [k [_ Hk]].
    now apply nth_error_In in Hk.
  - apply (f_equal (@length _)) in Et. rewrite !length_map in Et. rewrite Et.
    transitivity (length (seq 0 (length c))); [rewrite length_seq; lia|].
    apply NoDup_incl_length; [apply seq_NoDup|].
    intros k Hk. apply in_seq in Hk. apply matched_order_covers. lia.
Qed.

Lemma smart_reorder_keeps_every_center_witness :
  exists c',
    cluster_centers (Inputs.fitted 2 [Inputs.center_a; Inputs.center_a; Inputs.center_b]
                       Inputs.names11) = Some c' /\
    incl [Inputs.center_a; Inputs.center_b] c' /\
    incl c' [Inputs.center_a; Inputs.center_b] /\
    length [Inputs.center_a; Inputs.center_b] <= length c'.
Proof.
  apply (@smart_reorder_keeps_every_center float _
           (Inputs.fitted 2 [Inputs.center_a; Inputs.center_b] Inputs.names11)).
  - reflexivity.
  - vm_compute. reflexivity.
Defined.

(** ** Shapes of a run and of the stored centers *)

Section ShapeFacts.
Context {F : Type} {NF : Num F}.

Lemma argmax_from_bound (l : list F) (i : nat) (mp : F) (mi : nat) :
  mi < i -> argmax_from l i mp mi < i + length l.
Proof.
  revert i mp mi. induction l as [|x r IH]; intros i mp mi Hmi; simpl; [lia|].
  destruct (negb (fleb x mp)).
  - destruct (isnan x); [lia|].
    specialize (IH (S i) x i). lia.
  - specialize (IH (S i) mp mi). lia.
Qed.

Lemma argmax_bound (l : list F) : argmax l < Nat.max 1 (length l).
Proof.
  destruct l as [|x r]; simpl; [lia|].
  destruct (isnan x); [lia|].
  pose proof (@argmax_from_bound r 1 x 0). lia.
Qed.

Lemma assign_length (maps : matrix F) (samples : list (list F)) :
  length (assign maps samples) = length samples.
Proof. unfold assign. apply length_map. Qed.

Lemma assign_bound (maps : matrix F) (samples : list (list F)) :
  maps <> [] -> Forall (fun s => s < length maps) (assign maps samples).
Proof.
  intros Hne. unfold assign. apply Forall_forall. intros s Hs.
  apply in_map_iff in Hs. destruct Hs as [x [<- _]].
  pose proof (argmax_bound (map fabs (activation_col maps x))) as Hb.
  assert (L : length (map fabs (activation_col maps x)) = length maps)
    by (unfold activation_col; now rewrite !length_map).
  rewrite L in Hb.
  destruct maps as [|m0 maps]; [congruence|]. cbn [length] in *. lia.
Qed.

Lemma update_maps_rows (data : matrix F) (samples : list (list F))
    (seg : list nat) (maps : matrix F) :
  Forall (fun m => length m = n_rows data) maps ->
  Forall (fun m => length m = n_rows data) (update_maps data samples seg maps).
Proof.
  intros H. unfold update_maps. apply Forall_forall. intros m Hm.
  apply in_map_iff in Hm. destruct Hm as [[k m0] [<- Hk]].
  apply in_combine_r in Hk. rewrite Forall_forall in H. specialize (H m0 Hk).
  unfold update_map. cbn [fst snd]. cbv zeta.
  destruct (Nat.eqb _ 0).
  - rewrite length_map. exact H.
  - unfold normalize, vdiv, weighted_sum. now rewrite !length_map.
Qed.

Lemma kmeans_iter_shape (n : nat) (data : matrix F) (samples : list (list F))
    (thresh : F) (maps : matrix F) (prev : option F) :
  Forall (fun m => length m = n_rows data) maps ->
  length (kmeans_iter n data samples thresh maps prev) = length maps /\
  Forall (fun m => length m = n_rows data)
         (kmeans_iter n data samples thresh maps prev).
Proof.
  revert maps prev. induction n as [|n IH]; intros maps prev H.
  - simpl. auto.
  - rewrite kmeans_iter_S. cbv zeta.
    pose proof (update_maps_rows data samples (assign maps samples) H) as H'.
    pose proof (update_maps_length data samples (assign maps samples) maps) as L.
    destruct (converged _ _ _); [auto|].
    destruct (IH _ (Some (residual_of data
                (update_maps data samples (assign maps samples) maps)
                samples (assign maps samples))) H') as [L2 R2].
    split; [congruence|exact R2].
Qed.

Lemma init_maps_shape (data : matrix F) (init_times : list nat) :
  length (init_maps data init_times) = length init_times /\
  Forall (fun m => length m = n_rows data) (init_maps data init_times).
Proof.
  unfold init_maps. split; [apply length_map|].
  apply Forall_forall. intros m Hm. apply in_map_iff in Hm.
  destruct Hm as [t [<- _]]. unfold normalize, vdiv, col. now rewrite !length_map.
Qed.

End ShapeFacts.

Lemma run_shapes (F : Type) (NF : Num F) (Gen : Type) (seeded : Z -> Gen)
    (choice : Gen -> nat -> nat -> list nat * Gen)
    (self : @ModKMeans F) (data : matrix F) (w : world Gen) (r : @run F) :
  (forall g n k, length (fst (choice g n k)) = k) ->
  fst (_run_mod_kmeans seeded choice self data w) = Ok r ->
  length (run_maps r) = n_clusters self /\
  Forall (fun m => length m = n_rows data) (run_maps r) /\
  length (run_segmentation r) = n_cols data /\
  Forall (fun s => s < n_clusters self) (run_segmentation r).
Proof.
  intros Hchoice.
  unfold _run_mod_kmeans, _compute_maps, draw_init_times.
  destruct (resolve_random_state seeded (random_state self) w) as [g store].
  destruct (Nat.ltb (n_cols data) (n_clusters self)); [discriminate|].
  pose proof (Hchoice g (n_cols data) (n_clusters self)) as Hlen.
  destruct (choice g (n_cols data) (n_clusters self)) as [ts g'].
  cbn [fst] in Hlen. cbn [fst bind]. cbv zeta.
  destruct (init_maps_shape data ts) as [Li Ri].
  destruct (kmeans_iter_shape (max_iter self) data (transpose data) (tol self)
              None Ri) as [Lk Rk].
  destruct (_ && _); cbn [bind]; [discriminate|].
  destruct (Nat.eqb _ 0) eqn:E0; [discriminate|].
  intros H. injection H as <-. unfold score_maps. cbv zeta. cbn [run_maps run_segmentation].
  split; [congruence|]. split; [exact Rk|].
  split; [rewrite assign_length; apply transpose_length|].
  assert (LK : length (kmeans_iter (max_iter self) data (transpose data) (tol self)
                         (init_maps data ts) None) = n_clusters self) by congruence.
  rewrite <- LK. apply assign_bound.
  apply Nat.eqb_neq in E0. intros Hnil. rewrite Hnil in E0. now apply E0.
Qed.


(** X7. The shapes of one run (_run_mod_kmeans), when
    RandomState.choice returns as many indices as it is asked for:
    n_clusters maps of one entry per channel, and one label per sample,
    each of them below n_clusters. *)
Theorem run_has_the_documented_shapes :
  forall (F : Type) (NF : Num F) (Gen : Type) (seeded : Z -> Gen)
         (choice : Gen -> nat -> nat -> list nat * Gen)
         (self : @ModKMeans F) (data : matrix F) (w : world Gen) (r : @run F),
    (forall g n k, length (fst (choice g n k)) = k) ->
    fst (_run_mod_kmeans seeded choice self data w) = Ok r ->
    length (run_maps r) = n_clusters self /\
    Forall (fun m => length m = n_rows data) (run_maps r) /\
    length (run_segmentation r) = n_cols data /\
    Forall (fun s => s < n_clusters self) (run_segmentation r).
Proof.
  intros F NF Gen seeded choice self data w r Hchoice Hrun.
  exact (@run_shapes F NF Gen seeded choice self data w r Hchoice Hrun).
Qed.

Lemma toy_choice_length (g n k : nat) : length (fst (Inputs.toy_choice g n k)) = k.
Proof. unfold Inputs.toy_choice. cbn [fst]. now rewrite length_map, length_seq. Qed.

Lemma run_has_the_documented_shapes_witness :
  exists r,
    fst (_run_mod_kmeans Inputs.toy_seeded Inputs.toy_choice
           (Inputs.unfitted_model 2 (RS_int 1) 1) Inputs.data_3x9 Inputs.toy_world)
    = Ok r /\
    length (run_maps r) = 2 /\
    Forall (fun m => length m = n_rows Inputs.data_3x9) (run_maps r) /\
    length (run_segmentation r) = n_cols Inputs.data_3x9 /\
    Forall (fun s => s < 2) (run_segmentation r).
Proof.
  eexists. split; [vm_compute; reflexivity|].
  apply (@run_has_the_documented_shapes float _ nat Inputs.toy_seeded
           Inputs.toy_choice (Inputs.unfitted_model 2 (RS_int 1) 1)
           Inputs.data_3x9 Inputs.toy_world).
  - exact toy_choice_length.
  - vm_compute. reflexivity.
Defined.

(** X8. A fit that returns stores centers of shape
    (n_clusters, n_channels), a GEV, the info and the kind of the
    instance; n_clusters and labels are as before (the segmentation of
    the best run is not stored). *)
Theorem fit_stores_centers_of_the_documented_shape :
  forall (F : Type) (NF : Num F) (Gen : Type) (seeded : Z -> Gen)
         (choice : Gen -> nat -> nat -> list nat * Gen)
         (self self' : @ModKMeans F) (kind : current_fit_t) (data : matrix F)
         (ch_names : list string) (w w' : world Gen),
    (forall g n k, length (fst (choice g n k)) = k) ->
    fit seeded choice self kind data ch_names w = (Ok self', w') ->
    (exists c g,
       cluster_centers self' = Some c /\ GEV self' = Some g /\
       length c = n_clusters self /\
       Forall (fun m => length m = n_rows data) c) /\
    current_fit self' = kind /\
    info self' = Some ch_names /\
    n_clusters self' = n_clusters self /\
    labels self' = labels self.
Proof.
  intros F NF Gen seeded choice self self' kind data ch_names w w' Hchoice.
  unfold fit, _do_fit.
  destruct (fit_loop seeded choice (n_init self) self data fzero None w)
    as [[[g [r|]]|e] w1] eqn:E; try discriminate.
  intros H. injection H as <- _. cbn.
  apply fit_loop_best_is_a_run in E. destruct E as [E|[w2 E]]; [discriminate|].
  destruct (@run_shapes F NF Gen seeded choice self data w2 r Hchoice E) as [L [R _]].
  repeat split; auto. exists (run_maps r), (run_gev r). auto.
Qed.

Lemma fit_stores_centers_of_the_documented_shape_witness :
  exists self',
    fst (fit Inputs.toy_seeded Inputs.toy_choice
           (Inputs.unfitted_model 2 (RS_int 1) 1) fit_Raw Inputs.data_3x9
           ["Fz"; "Cz"; "Pz"]%string Inputs.toy_world) = Ok self' /\
    (exists c g,
       cluster_centers self' = Some c /\ GEV self' = Some g /\
       length c = 2 /\
       Forall (fun m => length m = n_rows Inputs.data_3x9) c) /\
    current_fit self' = fit_Raw /\
    info self' = Some ["Fz"; "Cz"; "Pz"]%string /\
    n_clusters self' = 2 /\
    labels self' = None.
Proof.
  eexists. split; [vm_compute; reflexivity|].
  apply (@fit_stores_centers_of_the_documented_shape float _ nat Inputs.toy_seeded
           Inputs.toy_choice (Inputs.unfitted_model 2 (RS_int 1) 1) _ fit_Raw
           Inputs.data_3x9 ["Fz"; "Cz"; "Pz"]%string Inputs.toy_world
           Inputs.toy_world).
  - exact toy_choice_length.
  - vm_compute. reflexivity.
Defined.

(** ** predict with annotations *)

Lemma unlabel_boundaries_ok (labels_all out : list nat) (K : nat) :
  Forall (fun k => k < K) labels_all ->
  unlabel_boundaries labels_all = Ok out ->
  1 <= length labels_all /\ length out = length labels_all /\
  Forall (fun x => x <= K) out.
Proof.
  intros HK H.
  destruct labels_all as [|a [|b rest]].
  - discriminate.
  - rewrite unlabel_boundaries_single in H. injection H as <-.
    inversion HK; subst. simpl. repeat split; auto.
  - assert (Hl2 : 2 <= length (a :: b :: rest)) by (simpl; lia).
    remember (a :: b :: rest) as l.
    rewrite unlabel_boundaries_spec in H by exact Hl2. injection H as <-.
    split; [lia|]. split.
    + rewrite boundaries_unlabeled_length. apply length_map.
    + apply boundaries_unlabeled_values. apply Forall_forall. intros x Hx.
      apply in_map_iff in Hx. destruct Hx as [y [<- Hy]].
      rewrite Forall_forall in HK. specialize (HK y Hy). lia.
Qed.

Section PredictFacts.
Context {F : Type} {NF : Num F}.

Lemma n_cols_slice_cols (a b : nat) (data : matrix F) :
  n_cols (slice_cols a b data) = Nat.min (b - a) (n_cols data - a).
Proof.
  unfold n_cols, slice_cols. destruct data as [|r data]; simpl.
  - lia.
  - rewrite length_firstn, length_skipn. reflexivity.
Qed.

Lemma splice_length {A} (a : nat) (seg out : list A) :
  a + length seg <= length out ->
  length (splice a seg out) = length out.
Proof.
  intros H. unfold splice.
  rewrite !length_app, length_firstn, length_skipn. lia.
Qed.

Lemma splice_Forall {A} (P : A -> Prop) (a : nat) (seg out : list A) :
  Forall P seg -> Forall P out -> Forall P (splice a seg out).
Proof.
  intros Hs Ho. unfold splice. apply Forall_app. split.
  - apply Forall_forall. intros x Hx. rewrite Forall_forall in Ho.
    apply Ho. rewrite <- (firstn_skipn a out). apply in_or_app. now left.
  - apply Forall_app. split; [exact Hs|].
    apply Forall_forall. intros x Hx. rewrite Forall_forall in Ho.
    apply Ho. rewrite <- (firstn_skipn (a + length seg) out).
    apply in_or_app. now right.
Qed.

Lemma predict_segments_output (fuel : nat) (data centers : matrix F)
    (h : nat) (factor crit : F) (pairs : list (nat * nat))
    (segmentation out : list nat) :
  length segmentation = n_cols data ->
  Forall (fun x => x <= length centers) segmentation ->
  predict_segments fuel data centers h factor crit pairs segmentation
  = Some (Ok out) ->
  length out = n_cols data /\ Forall (fun x => x <= length centers) out.
Proof.
  revert segmentation. induction pairs as [|[onset end_] rest IH];
    intros segmentation Hlen Hval; cbn [predict_segments].
  - intros H. injection H as <-. auto.
  - destruct (Nat.leb (2 * h + 1) (onset - end_)); [|now apply IH].
    destruct (_segment fuel (slice_cols end_ onset data) centers h factor crit)
      as [[l|e]|] eqn:Es; try discriminate.
    apply segment_returns in Es. destruct Es as [la [Hla [Hb Hu]]].
    destruct (unlabel_boundaries_ok Hb Hu) as [H1 [Hl Hv]].
    rewrite n_cols_slice_cols in Hla.
    apply IH.
    + rewrite splice_length; [exact Hlen|]. lia.
    + now apply splice_Forall.
Qed.

End PredictFacts.

(** X9. predict with BAD annotations: when it returns, the sequence has
    one entry per sample of the recording, each between 0 and the number
    of centers. *)
Theorem predict_with_annotations_output :
  forall (F : Type) (NF : Num F) (fuel : nat) (self : @ModKMeans F)
         (centers data : matrix F) (onsets _ends : list nat)
         (half_window_size : nat) (factor crit : F) (out : list nat),
    cluster_centers self = Some centers ->
    onsets <> [] ->
    predict fuel self data true onsets _ends half_window_size factor crit
      = Some (Ok out) ->
    length out = n_cols data /\
    Forall (fun x => x <= length centers) out.
Proof.
  intros F NF fuel self centers data onsets _ends h factor crit out Hc Hne.
  unfold predict. destruct (_check_fit self); [|discriminate].
  rewrite Hc.
  destruct (Nat.eqb (length onsets) 0) eqn:E.
  { apply Nat.eqb_eq in E. destruct onsets; [congruence|discriminate]. }
  cbv zeta. apply predict_segments_output.
  - apply repeat_length.
  - apply Forall_forall. intros x Hx. apply repeat_spec in Hx. lia.
Qed.

Lemma predict_with_annotations_output_witness :
  length [0; 0; 2; 2; 1; 2; 1; 0; 0] = n_cols Inputs.data_3x9 /\
  Forall (fun x => x <= length Inputs.centers_2x3) [0; 0; 2; 2; 1; 2; 1; 0; 0].
Proof.
  apply (@predict_with_annotations_output float _ 10
           (Inputs.fitted 2 Inputs.centers_2x3 []) Inputs.centers_2x3
           Inputs.data_3x9 [0] [1] 3 0%float Inputs.default_crit).
  - reflexivity.
  - discriminate.
  - vm_compute. reflexivity.
Defined.

Lemma predict_segments_all_short {F : Type} {NF : Num F} (fuel : nat)
    (data centers : matrix F) (h : nat) (factor crit : F)
    (pairs : list (nat * nat)) (segmentation : list nat) :
  Forall (fun p => fst p - snd p < 2 * h + 1) pairs ->
  predict_segments fuel data centers h factor crit pairs segmentation
  = Some (Ok segmentation).
Proof.
  intros H. induction H as [|[onset end_] rest Hp H IH];
    cbn [predict_segments]; [reflexivity|].
  cbn [fst snd] in Hp.
  destruct (Nat.leb_spec (2 * h + 1) (onset - end_)); [lia|exact IH].
Qed.

(** X21. predict with BAD annotations when every retained stretch is
    shorter than 2 * half_window_size + 1: _segment is never called and
    every sample is left unlabeled, whatever the fuel. *)
Theorem predict_leaves_short_stretches_unlabeled :
  forall (F : Type) (NF : Num F) (fuel : nat) (self : @ModKMeans F)
         (centers data : matrix F) (onsets _ends : list nat)
         (half_window_size : nat) (factor crit : F),
    current_fit self <> unfitted ->
    cluster_centers self = Some centers ->
    onsets <> [] ->
    Forall (fun p => fst p - snd p < 2 * half_window_size + 1)
           (combine (onsets ++ [n_cols data - 1]) (0 :: _ends)) ->
    predict fuel self data true onsets _ends half_window_size factor crit
    = Some (Ok (repeat 0 (n_cols data))).
Proof.
  intros F NF fuel self centers data onsets _ends h factor crit Hfit Hc Hne Hs.
  unfold predict, _check_fit.
  destruct (current_fit self); [contradiction| | |];
    (rewrite Hc;
     destruct (Nat.eqb (length onsets) 0) eqn:E;
     [apply Nat.eqb_eq in E; destruct onsets; [congruence|discriminate]|];
     cbv zeta; now apply predict_segments_all_short).
Qed.

Lemma predict_leaves_short_stretches_unlabeled_witness :
  predict 0 (Inputs.fitted 2 Inputs.centers_2x3 []) Inputs.data_3x9 true
    [4] [5] 3 0%float Inputs.default_crit
  = Some (Ok (repeat 0 (n_cols Inputs.data_3x9))).
Proof.
  apply (@predict_leaves_short_stretches_unlabeled float _ 0
           (Inputs.fitted 2 Inputs.centers_2x3 []) Inputs.centers_2x3
           Inputs.data_3x9 [4] [5] 3 0%float Inputs.default_crit).
  - discriminate.
  - reflexivity.
  - discriminate.
  - cbv. repeat constructor.
Defined.

(** ** The order of binary64 *)

Lemma SFcompare_antisym (x y : spec_float) :
  SFcompare y x = option_map CompOpp (SFcompare x y).
Proof.
  destruct x as [sx|sx| |sx mx ex], y as [sy|sy| |sy my ey]; simpl;
    try reflexivity;
    try (destruct sx; reflexivity); try (destruct sy; reflexivity);
    try (destruct sx, sy; reflexivity).
  destruct sx, sy; try reflexivity; f_equal;
    rewrite (Z.compare_antisym ex ey);
    destruct (Z.compare ex ey) eqn:E; simpl; try reflexivity;
    change (Pos.compare_cont Eq my mx) with (Pos.compare my mx);
    change (Pos.compare_cont Eq mx my) with (Pos.compare mx my);
    rewrite (Pos.compare_antisym mx my); try reflexivity;
    now rewrite CompOpp_involutive.
Qed.

Lemma SFcompare_refl (x : spec_float) :
  SFcompare x x = None \/ SFcompare x x = Some Eq.
Proof.
  destruct x as [s|s| |s m e]; simpl; auto.
  - right. now destruct s.
  - right. destruct s; rewrite Z.compare_refl;
      change (Pos.compare_cont Eq m m) with (Pos.compare m m);
      now rewrite Pos.compare_refl.
Qed.

Lemma f64_ltb (a b : float) : fltb a b = SFltb (Prim2SF a) (Prim2SF b).
Proof. apply ltb_spec. Qed.

Lemma f64_ltb_irrefl (x : float) : fltb x x = false.
Proof.
  rewrite f64_ltb. unfold SFltb.
  destruct (SFcompare_refl (Prim2SF x)) as [-> | ->]; reflexivity.
Qed.

Section IntegerSeed.
Variable Gen : Type.
Variable seeded : Z -> Gen.
Variable choice : Gen -> nat -> nat -> list nat * Gen.

Lemma run_int_seed_world (self : @ModKMeans float) (data : matrix float)
    (seed : Z) (w : world Gen) :
  random_state self = RS_int seed ->
  snd (_run_mod_kmeans seeded choice self data w) = w.
Proof.
  intros Hrs. unfold _run_mod_kmeans, _compute_maps.
  rewrite Hrs, draw_init_times_int. reflexivity.
Qed.

Lemma fit_loop_nothing_better (n : nat) (self : @ModKMeans float)
    (data : matrix float) (bg : float) (b : option (@run float))
    (r : @run float) (w : world Gen) :
  _run_mod_kmeans seeded choice self data w = (Ok r, w) ->
  fltb bg (run_gev r) = false ->
  fit_loop seeded choice n self data bg b w = (Ok (bg, b), w).
Proof.
  intros Hrun Hlt. induction n as [|n IH]; [reflexivity|].
  cbn [fit_loop]. rewrite Hrun, Hlt. exact IH.
Qed.

Lemma do_fit_int_seed (self : @ModKMeans float) (data : matrix float)
    (seed : Z) (w : world Gen) :
  random_state self = RS_int seed ->
  1 <= n_init self ->
  _do_fit seeded choice self data w
  = match fst (_run_mod_kmeans seeded choice self data w) with
    | Raise e => (Raise e, w)
    | Ok r => if fltb fzero (run_gev r) then (Ok r, w)
              else (Raise UnboundLocalError, w)
    end.
Proof.
  intros Hrs Hn. unfold _do_fit.
  destruct (n_init self) as [|n]; [lia|].
  cbn [fit_loop].
  pose proof (run_int_seed_world self data w Hrs) as Hw.
  destruct (_run_mod_kmeans seeded choice self data w) as [[r|e] w1] eqn:E;
    cbn [fst snd] in *; subst w1; [|reflexivity].
  destruct (fltb fzero (run_gev r)) eqn:E0.
  - rewrite (@fit_loop_nothing_better n self data (run_gev r) (Some r) r w E
               (f64_ltb_irrefl _)). reflexivity.
  - rewrite (@fit_loop_nothing_better n self data fzero None r w E E0). reflexivity.
Qed.

End IntegerSeed.

(** X10. With an integer random_state the restarts of _do_fit
    (n_jobs = 1, binary64) are redundant: every restart draws the same
    initial times, a later run never compares above the first, and
    n_init = n + 1 gives what n_init = 1 gives, the state of the random
    sources included. *)
Theorem integer_seed_makes_restarts_redundant :
  forall (Gen : Type) (seeded : Z -> Gen)
         (choice : Gen -> nat -> nat -> list nat * Gen)
         (K : nat) (kind : current_fit_t) (cc : option (matrix float))
         (g : option float) (names : option (list string)) (seed : Z)
         (ni mi : nat) (tl : float) (lb : option (list nat))
         (data : matrix float) (w : world Gen),
    let self n := mkModKMeans K kind cc g names (RS_int seed) n mi tl lb in
    _do_fit seeded choice (self (S ni)) data w
    = _do_fit seeded choice (self 1) data w.
Proof.
  intros. unfold self.
  pose proof (@do_fit_int_seed Gen seeded choice
                (mkModKMeans K kind cc g names (RS_int seed) (S ni) mi tl lb)
                data seed w eq_refl) as H1.
  pose proof (@do_fit_int_seed Gen seeded choice
                (mkModKMeans K kind cc g names (RS_int seed) 1 mi tl lb)
                data seed w eq_refl) as H2.
  cbn [n_init] in H1, H2.
  rewrite H1 by lia. rewrite H2 by lia. reflexivity.
Qed.

(** ** The distances of transform *)

Lemma f64_leb' (a b : float) : fleb a b = SFleb (Prim2SF a) (Prim2SF b).
Proof. apply leb_spec. Qed.

Lemma SFcompare_None (x y : spec_float) :
  SFcompare x y = None -> x = S754_nan \/ y = S754_nan.
Proof.
  destruct x as [sx|sx| |sx mx ex], y as [sy|sy| |sy my ey]; simpl;
    auto; discriminate.
Qed.

Lemma SFleb_refl_not_nan (x : spec_float) : SFleb x x = true -> x <> S754_nan.
Proof. intros H E. subst. discriminate. Qed.

(* on numbers the order is total *)
Lemma f64_ltb_false_leb (x y : float) :
  isnan x = false -> isnan y = false -> fltb x y = false -> fleb y x = true.
Proof.
  unfold isnan. rewrite !negb_false_iff, !f64_leb', f64_ltb.
  intros Hx Hy. apply SFleb_refl_not_nan in Hx. apply SFleb_refl_not_nan in Hy.
  unfold SFltb, SFleb. rewrite (SFcompare_antisym (Prim2SF x) (Prim2SF y)).
  destruct (SFcompare (Prim2SF x) (Prim2SF y)) as [[| |]|] eqn:E; simpl;
    try reflexivity; try discriminate.
  apply SFcompare_None in E. tauto.
Qed.

Lemma Prim2SF_minus_one : Prim2SF (fneg (@fone float _)) = SF_minus_one.
Proof. vm_compute. reflexivity. Qed.

Lemma Prim2SF_fone : Prim2SF (@fone float _) = SF_one.
Proof. vm_compute. reflexivity. Qed.

Lemma SFabs_between (p : positive) (q : Z) (y : spec_float) :
  SFleb (S754_finite true p q) y = true ->
  SFleb y (S754_finite false p q) = true ->
  SFleb (S754_zero false) (SFabs y) = true /\
  SFleb (SFabs y) (S754_finite false p q) = true.
Proof.
  destruct y as [s|s| |s m e]; try discriminate.
  - intros _ _. split; reflexivity.
  - destruct s; discriminate.
  - destruct s.
    + intros H _. split; [reflexivity|]. revert H.
      unfold SFleb, SFabs, SFcompare.
      rewrite (Z.compare_antisym q e).
      destruct (Z.compare q e); cbn [CompOpp]; try discriminate; try reflexivity.
      change (Pos.compare_cont Eq m p) with (Pos.compare m p).
      change (Pos.compare_cont Eq p m) with (Pos.compare p m).
      rewrite (Pos.compare_antisym p m).
      destruct (Pos.compare p m); cbn [CompOpp]; try discriminate; reflexivity.
    + intros _ H. split; [reflexivity|exact H].
Qed.

Lemma SFabs_unit (y : spec_float) :
  SFleb SF_minus_one y = true -> SFleb y SF_one = true ->
  SFleb (S754_zero false) (SFabs y) = true /\ SFleb (SFabs y) SF_one = true.
Proof. apply SFabs_between. Qed.

Lemma isnan_SF (x : float) : isnan x = true -> Prim2SF x = S754_nan.
Proof.
  unfold isnan. rewrite negb_true_iff, f64_leb'. unfold SFleb.
  destruct (SFcompare_refl (Prim2SF x)) as [E|E]; rewrite E; [|discriminate].
  intros _. apply SFcompare_None in E. tauto.
Qed.

Lemma SF_isnan (x : float) : Prim2SF x = S754_nan -> isnan x = true.
Proof.
  intros E. unfold isnan. now rewrite negb_true_iff, f64_leb', E.
Qed.

Lemma clip_unit_range (x : float) :
  isnan (clip_unit x) = true \/
  (fleb (fneg fone) (clip_unit x) = true /\ fleb (clip_unit x) fone = true).
Proof.
  unfold clip_unit.
  destruct (isnan x) eqn:En; [now left|].
  destruct (fltb x (fneg fone)) eqn:E1.
  { right. split; vm_compute; reflexivity. }
  destruct (fltb fone x) eqn:E2.
  { right. split; vm_compute; reflexivity. }
  right. split.
  - apply f64_ltb_false_leb; [exact En|vm_compute; reflexivity|exact E1].
  - apply f64_ltb_false_leb; [vm_compute; reflexivity|exact En|exact E2].
Qed.

Lemma abs_clip_unit_range (x : float) : unit_or_nan (fabs (clip_unit x)).
Proof.
  destruct (clip_unit_range x) as [H|[H1 H2]].
  - left. apply SF_isnan. rewrite f64_abs, (isnan_SF _ H). reflexivity.
  - right. rewrite f64_leb', Prim2SF_minus_one in H1.
    rewrite f64_leb', Prim2SF_fone in H2.
    destruct (SFabs_unit _ H1 H2) as [A B].
    rewrite !f64_leb', f64_abs, Prim2SF_fone, f64_zero. auto.
Qed.

Lemma fmax_cases (a b : float) : fmax a b = a \/ fmax a b = b.
Proof. unfold fmax. destruct (_ || _); auto. Qed.

Lemma fold_fmax_range (l : list float) (a : float) :
  unit_or_nan a -> Forall unit_or_nan l -> unit_or_nan (fold_left fmax l a).
Proof.
  revert a. induction l as [|x l IH]; intros a Ha Hl; simpl; [exact Ha|].
  inversion Hl; subst. apply IH; [|assumption].
  destruct (fmax_cases a x) as [-> | ->]; assumption.
Qed.

Lemma np_max_range (l : list float) (m : float) :
  Forall unit_or_nan l -> np_max l = Ok m -> unit_or_nan m.
Proof.
  destruct l as [|x l]; [discriminate|]. intros Hl H. injection H as <-.
  inversion Hl; subst. now apply fold_fmax_range.
Qed.

Lemma map_result_Forall {A B} (P : B -> Prop) (f : A -> result B)
    (l : list A) (out : list B) :
  (forall a b, f a = Ok b -> P b) ->
  map_result f l = Ok out -> Forall P out /\ length out = length l.
Proof.
  intros Hf. revert out. induction l as [|a l IH]; intros out; simpl.
  - intros H. injection H as <-. auto.
  - destruct (f a) as [b|e] eqn:E; [|discriminate]. simpl.
    destruct (map_result f l) as [bs|e]; [|discriminate]. simpl.
    intros H. injection H as <-. destruct (IH bs eq_refl) as [H1 H2].
    split; [constructor; eauto|simpl; congruence].
Qed.

(** X11. transform on a fitted model that holds its n_clusters centers
    (binary64): one distance per sample, and every distance is a NaN or
    lies between 0 and 1. *)
Theorem transform_gives_one_distance_per_sample :
  forall (self : @ModKMeans float) (centers data : matrix float)
         (distances : list float),
    cluster_centers self = Some centers ->
    length centers = n_clusters self ->
    transform self data = Ok distances ->
    length distances = n_cols data /\
    Forall (fun x => isnan x = true \/
                     (fleb fzero x = true /\ fleb x fone = true)) distances.
Proof.
  intros self centers data distances Hc Hlen. unfold transform.
  destruct (_check_fit self); [|discriminate]. rewrite Hc.
  unfold cluster_distances. destruct (negb _); [discriminate|]. cbv zeta.
  rewrite <- Hlen, firstn_app, skipn_app, Nat.sub_diag, firstn_all, skipn_all.
  cbn [firstn skipn app]. rewrite app_nil_r.
  intros H.
  apply (@map_result_Forall _ _ unit_or_nan) in H.
  - destruct H as [H1 H2]. split; [|exact H1].
    rewrite H2. apply transpose_length.
  - intros v m. apply np_max_range.
    apply Forall_forall. intros x Hx. apply in_map_iff in Hx.
    destruct Hx as [u [<- _]]. unfold corrcoef_entry. apply abs_clip_unit_range.
Qed.

Lemma transform_gives_one_distance_per_sample_witness :
  exists distances,
    transform (Inputs.fitted 2 Inputs.centers_2x3 []) Inputs.data_3x9
    = Ok distances /\
    length distances = n_cols Inputs.data_3x9 /\
    Forall (fun x => isnan x = true \/
                     (fleb fzero x = true /\ fleb x fone = true)) distances.
Proof.
  eexists. split; [vm_compute; reflexivity|].
  apply (@transform_gives_one_distance_per_sample
           (Inputs.fitted 2 Inputs.centers_2x3 []) Inputs.centers_2x3
           Inputs.data_3x9).
  - reflexivity.
  - reflexivity.
  - vm_compute. reflexivity.
Defined.

(** ** An object that was not fitted *)

(** X17. A new object refuses every method: transform, predict,
    reorder and smart_reorder raise the ValueError of _check_fit, and
    reorder and smart_reorder leave the object as it is. *)
Theorem new_model_refuses_every_method :
  forall (F : Type) (NF : Num F) (rs : random_state_t) (ni mi K : nat) (tl : F)
         (data : matrix F) (order : list Z) (fuel : nat) (rba : bool)
         (onsets _ends : list nat) (h : nat) (factor crit : F),
    let self := __init__ rs ni mi tl K in
    transform self data = Raise ValueError_not_fitted /\
    predict fuel self data rba onsets _ends h factor crit
      = Some (Raise ValueError_not_fitted) /\
    reorder self order = (Raise ValueError_not_fitted, self) /\
    smart_reorder self = (Raise ValueError_not_fitted, self).
Proof. intros. repeat split. Qed.

(** ** GFP peaks *)

Section PeakFacts.
Context {F : Type} {NF : Num F}.

Lemma plateau_end_bounds (fuel i_ahead i_max : nat) (xi : F) (x : list F) :
  i_ahead <= plateau_end fuel i_ahead i_max xi x /\
  (i_ahead <= i_max -> plateau_end fuel i_ahead i_max xi x <= i_max).
Proof.
  revert i_ahead. induction fuel as [|n IH]; intros i_ahead; simpl; [lia|].
  destruct (Nat.ltb_spec i_ahead i_max); simpl; [|lia].
  destruct (feqb _ xi); [|lia].
  destruct (IH (S i_ahead)). lia.
Qed.

Lemma midpoint_bounds (i j : nat) : i <= j -> i <= (i + j) / 2 <= j.
Proof.
  intros H. split.
  - apply Nat.div_le_lower_bound; lia.
  - apply Nat.Div0.div_le_upper_bound; lia.
Qed.

(* the peaks found from index i on: none before i, none at the last
   sample, and at least two samples from one to the next *)
Lemma local_maxima_from_spec (fuel i : nat) (x : list F) :
  Forall (fun m => i <= m /\ m + 2 <= length x) (local_maxima_from fuel i x) /\
  StronglySorted (fun a b => a + 2 <= b) (local_maxima_from fuel i x).
Proof.
  revert i. induction fuel as [|n IH]; intros i; cbn [local_maxima_from].
  - split; constructor.
  - cbv zeta. destruct (Nat.ltb_spec i (length x - 1)) as [Hi|Hi];
      [|split; constructor].
    assert (Hnext : forall i', i <= i' ->
              Forall (fun m => i <= m /\ m + 2 <= length x)
                     (local_maxima_from n i' x)).
    { intros i' Hi'. destruct (IH i') as [H _].
      eapply Forall_impl; [|exact H]. cbv beta. intros m Hm. lia. }
    destruct (fltb (nth (i - 1) x fzero) (nth i x fzero)).
    2:{ split; [apply Hnext; lia|apply IH]. }
    destruct (plateau_end_bounds (length x) (S i) (length x - 1) (nth i x fzero) x)
      as [B1 B2].
    set (i_ahead := plateau_end _ _ _ _ _) in *.
    destruct (fltb (nth i_ahead x fzero) (nth i x fzero)).
    2:{ split; [apply Hnext; lia|apply IH]. }
    pose proof (@midpoint_bounds i (i_ahead - 1)) as Hm.
    destruct (IH (S i_ahead)) as [HF HS].
    split.
    + constructor; [lia|]. apply Hnext. lia.
    + constructor; [exact HS|].
      eapply Forall_impl; [|exact HF]. cbv beta. intros m Hm'. lia.
Qed.

Lemma local_maxima_spec (x : list F) :
  Forall (fun m => 1 <= m /\ m + 2 <= length x) (_local_maxima_1d x) /\
  StronglySorted (fun a b => a + 2 <= b) (_local_maxima_1d x).
Proof. apply local_maxima_from_spec. Qed.

Lemma sorted_gap_nth (peaks : list nat) (k j : nat) :
  StronglySorted (fun a b => a + 2 <= b) peaks ->
  k < j -> j < length peaks ->
  nth k peaks 0 + 2 <= nth j peaks 0.
Proof.
  intros Hs. revert k j. induction Hs as [|p peaks Hs IH Hp]; intros k j Hkj Hj.
  - simpl in Hj. lia.
  - destruct j as [|j]; [lia|]. simpl in Hj.
    destruct k as [|k]; simpl.
    + rewrite Forall_forall in Hp. apply Hp. apply nth_In. lia.
    + apply IH; lia.
Qed.

Lemma clear_before_far (peaks : list nat) (keep : list bool) (j : nat) :
  StronglySorted (fun a b => a + 2 <= b) peaks ->
  j < length peaks ->
  clear_before j (nth j peaks 0) 2 peaks keep = keep.
Proof.
  intros Hs Hj. destruct j as [|k]; [reflexivity|]. cbn [clear_before].
  pose proof (@sorted_gap_nth peaks k (S k) Hs) as H.
  destruct (Nat.ltb_spec (nth (S k) peaks 0 - nth k peaks 0) 2); [lia|reflexivity].
Qed.

Lemma clear_after_far (peaks : list nat) (keep : list bool) (fuel j : nat) :
  StronglySorted (fun a b => a + 2 <= b) peaks ->
  clear_after fuel (S j) (nth j peaks 0) 2 peaks keep = keep.
Proof.
  intros Hs. destruct fuel as [|n]; [reflexivity|]. cbn [clear_after].
  destruct (Nat.ltb_spec (S j) (length peaks)) as [H|H]; [|reflexivity].
  pose proof (@sorted_gap_nth peaks j (S j) Hs) as G.
  destruct (Nat.ltb_spec (nth (S j) peaks 0 - nth j peaks 0) 2); [lia|reflexivity].
Qed.

(* peaks that are two samples apart all pass distance = 2 *)
Lemma select_by_distance_two (peaks order : list nat) :
  StronglySorted (fun a b => a + 2 <= b) peaks ->
  Forall (fun j => j < length peaks) order ->
  _select_by_peak_distance peaks order 2 = repeat true (length peaks).
Proof.
  intros Hs Ho. unfold _select_by_peak_distance.
  apply Forall_rev in Ho. induction Ho as [|j l Hj Hl IH]; [reflexivity|].
  cbn [fold_left]. rewrite nth_repeat. cbn [negb]. cbv zeta.
  rewrite clear_before_far, clear_after_far by assumption. exact IH.
Qed.

Lemma select_all {A} (l : list A) : select (repeat true (length l)) l = l.
Proof. induction l as [|a l IH]; simpl; [reflexivity|]. now rewrite IH. Qed.

Lemma peaks_count (peaks : list nat) (a T : nat) :
  StronglySorted (fun a b => a + 2 <= b) peaks ->
  Forall (fun m => a <= m /\ m + 2 <= T) peaks ->
  peaks = [] \/ a + 2 * length peaks <= T.
Proof.
  intros Hs. revert a. induction Hs as [|p peaks Hs IH Hp]; intros a Hb;
    [now left|]. right.
  inversion Hb as [|? ? [H1 H2] Hb']; subst.
  destruct (IH (p + 2)) as [-> | H].
  - rewrite Forall_forall in *. intros m Hm. specialize (Hp m Hm).
    specialize (Hb' m Hm). lia.
  - simpl. lia.
  - simpl. lia.
Qed.

End PeakFacts.

Lemma extract_gfps_keeps_interior_peaks_aux :
  forall (F : Type) (NF : Num F) (argsort : list F -> list nat)
         (data : matrix F),
    (forall l, Forall (fun j => j < length l) (argsort l)) ->
    let gfp := map (fun t => std (col t data)) (seq 0 (n_cols data)) in
    let peaks := _local_maxima_1d gfp in
    _extract_gfps argsort data
      = map (fun row => map (fun p => nth p row fzero) peaks) data /\
    Forall (fun p => 1 <= p /\ p + 2 <= n_cols data) peaks /\
    StronglySorted (fun a b => a + 2 <= b) peaks /\
    2 * length peaks <= n_cols data - 1.
Proof.
  intros F NF argsort data Hsort gfp peaks.
  destruct (local_maxima_spec gfp) as [Hb Hs]. fold peaks in Hb, Hs.
  assert (Hlen : length gfp = n_cols data)
    by (unfold gfp; now rewrite length_map, length_seq).
  rewrite Hlen in Hb.
  split; [|split; [exact Hb|split; [exact Hs|]]].
  - unfold _extract_gfps, find_peaks. cbv zeta. fold gfp. fold peaks.
    rewrite select_by_distance_two.
    + now rewrite select_all.
    + exact Hs.
    + pose proof (Hsort (map (fun p => nth p gfp fzero) peaks)) as H.
      now rewrite length_map in H.
  - destruct (peaks_count Hs Hb) as [-> | H]; simpl; lia.
Qed.

(** X18. _extract_gfps, when np.argsort returns positions of its
    argument: the columns kept are those of the local maxima of the GFP
    (the standard deviation over the channels).  The first and the last
    sample are never kept, two kept samples are at least two apart (so
    the default min_peak_dist = 2 removes nothing), and at most
    (n_samples - 1) / 2 columns are kept. *)
Theorem extract_gfps_keeps_interior_peaks :
  forall (F : Type) (NF : Num F) (argsort : list F -> list nat)
         (data : matrix F),
    (forall l, Forall (fun j => j < length l) (argsort l)) ->
    let gfp := map (fun t => std (col t data)) (seq 0 (n_cols data)) in
    let peaks := _local_maxima_1d gfp in
    _extract_gfps argsort data
      = map (fun row => map (fun p => nth p row fzero) peaks) data /\
    Forall (fun p => 1 <= p /\ p + 2 <= n_cols data) peaks /\
    StronglySorted (fun a b => a + 2 <= b) peaks /\
    2 * length peaks <= n_cols data - 1.
Proof. exact extract_gfps_keeps_interior_peaks_aux. Qed.

Lemma insert_by_value_perm (p : float * nat) (l : list (float * nat)) :
  Permutation (MoreInputs.insert_by_value p l) (p :: l).
Proof.
  induction l as [|q r IH]; simpl; [reflexivity|].
  destruct (PrimFloat.leb (fst p) (fst q)); [reflexivity|].
  rewrite IH. apply perm_swap.
Qed.

Lemma argsort_in_range (l : list float) :
  Forall (fun j => j < length l) (MoreInputs.argsort l).
Proof.
  unfold MoreInputs.argsort.
  assert (H : Permutation
                (fold_right MoreInputs.insert_by_value []
                   (combine l (seq 0 (length l))))
                (combine l (seq 0 (length l)))).
  { induction (combine l (seq 0 (length l))) as [|p c IH]; simpl; [reflexivity|].
    rewrite insert_by_value_perm. now constructor. }
  apply Forall_forall. intros j Hj. apply in_map_iff in Hj.
  destruct Hj as [[v j'] [E Hin]]. simpl in E. subst j'.
  apply (Permutation_in _ H) in Hin. apply in_combine_r in Hin.
  apply in_seq in Hin. lia.
Qed.

Lemma extract_gfps_keeps_interior_peaks_witness :
  let gfp := map (fun t => std (col t Inputs.data_3x9))
                 (seq 0 (n_cols Inputs.data_3x9)) in
  let peaks := _local_maxima_1d gfp in
  _extract_gfps MoreInputs.argsort Inputs.data_3x9
    = map (fun row => map (fun p => nth p row fzero) peaks) Inputs.data_3x9 /\
  Forall (fun p => 1 <= p /\ p + 2 <= n_cols Inputs.data_3x9) peaks /\
  StronglySorted (fun a b => a + 2 <= b) peaks /\
  2 * length peaks <= n_cols Inputs.data_3x9 - 1.
Proof.
  apply (@extract_gfps_keeps_interior_peaks float _ MoreInputs.argsort
           Inputs.data_3x9).
  exact argsort_in_range.
Defined.

(** ** Fitting on GFP peaks *)

Section GfpFit.
Context {F : Type} {NF : Num F}.
Variable Gen : Type.
Variable seeded : Z -> Gen.
Variable choice : Gen -> nat -> nat -> list nat * Gen.
Variable argsort : list F -> list nat.
Hypothesis argsort_in_range :
  forall l, Forall (fun j => j < length l) (argsort l).

Lemma fit_few_samples (self : @ModKMeans F) (kind : current_fit_t)
    (data : matrix F) (ch_names : list string) (w : world Gen) :
  n_cols data < n_clusters self ->
  1 <= n_init self ->
  fst (fit seeded choice self kind data ch_names w)
  = Raise ValueError_sample_larger.
Proof.
  intros HT Hn.
  assert (Hrun : fst (_run_mod_kmeans seeded choice self data w)
                 = Raise ValueError_sample_larger).
  { unfold _run_mod_kmeans.
    pose proof (compute_maps_too_few_samples seeded choice data
                  (max_iter self) (tol self) (random_state self) w HT) as Hc.
    destruct (_compute_maps seeded choice data (n_clusters self)
                (max_iter self) (tol self) (random_state self) w) as [r w2].
    simpl in *. rewrite Hc. reflexivity. }
  unfold fit, _do_fit.
  destruct (n_init self) as [|n] eqn:En; [lia|].
  pose proof (fit_loop_first_raises seeded choice n self data fzero None w
                Hrun) as H.
  destruct (fit_loop seeded choice (S n) self data fzero None w)
    as [[[g o]|e] w1]; simpl in H; [discriminate|].
  simpl. congruence.
Qed.

Lemma extract_gfps_n_cols (data : matrix F) :
  2 * n_cols (_extract_gfps argsort data) <= n_cols data - 1.
Proof.
  destruct (@extract_gfps_keeps_interior_peaks_aux F NF argsort data
              argsort_in_range) as [E [_ [_ H]]].
  rewrite E. unfold n_cols at 1. destruct data as [|row data]; simpl; [lia|].
  rewrite length_map. exact H.
Qed.

End GfpFit.

(** X19. Fitting a Raw or an Evoked instance on its GFP peaks
    (gfp=True) with at most 2 * n_clusters samples raises the ValueError
    of the initial draw: fewer than n_clusters peaks are left to draw
    from. *)
Theorem gfp_fit_needs_more_than_twice_the_clusters :
  forall (F : Type) (NF : Num F) (Gen : Type) (seeded : Z -> Gen)
         (choice : Gen -> nat -> nat -> list nat * Gen)
         (argsort : list F -> list nat)
         (self : @ModKMeans F) (data : matrix F) (ch_names : list string)
         (w : world Gen),
    (forall l, Forall (fun j => j < length l) (argsort l)) ->
    1 <= n_clusters self ->
    1 <= n_init self ->
    n_cols data <= 2 * n_clusters self ->
    fst (fit_instance seeded choice argsort self (Raw_data data) true ch_names w)
      = Raise ValueError_sample_larger /\
    fst (fit_instance seeded choice argsort self (Evoked_data data) true
           ch_names w)
      = Raise ValueError_sample_larger.
Proof.
  intros F NF Gen seeded choice argsort self data ch_names w Hs HK Hn HT.
  pose proof (@extract_gfps_n_cols F NF argsort Hs data) as Hc.
  unfold fit_instance, fit_data.
  split; apply fit_few_samples; try exact Hn; lia.
Qed.

Lemma gfp_fit_needs_more_than_twice_the_clusters_witness :
  fst (fit_instance Inputs.toy_seeded Inputs.toy_choice MoreInputs.argsort
         (Inputs.unfitted_model 5 (RS_int 42) 2) (Raw_data Inputs.data_3x9)
         true [] Inputs.toy_world)
    = Raise ValueError_sample_larger /\
  fst (fit_instance Inputs.toy_seeded Inputs.toy_choice MoreInputs.argsort
         (Inputs.unfitted_model 5 (RS_int 42) 2) (Evoked_data Inputs.data_3x9)
         true [] Inputs.toy_world)
    = Raise ValueError_sample_larger.
Proof.
  apply (@gfp_fit_needs_more_than_twice_the_clusters float _ nat
           Inputs.toy_seeded Inputs.toy_choice MoreInputs.argsort
           (Inputs.unfitted_model 5 (RS_int 42) 2) Inputs.data_3x9 []
           Inputs.toy_world).
  - exact argsort_in_range.
  - simpl. lia.
  - simpl. lia.
  - cbv. lia.
Defined.

(** ** The matrix of an Epochs instance *)

Lemma firstn_concat_rows {A} (T k : nat) (rows : list (list A)) :
  Forall (fun r => length r = T) rows ->
  firstn (k * T) (concat rows) = concat (firstn k rows).
Proof.
  intros H. revert k. induction H as [|r rows Hr H IH]; intros k.
  - rewrite !firstn_nil. reflexivity.
  - destruct k as [|k]; [reflexivity|].
    cbn [concat firstn]. cbn [Nat.mul]. rewrite <- Hr at 1.
    rewrite firstn_app_2. now rewrite IH.
Qed.

Lemma skipn_concat_rows {A} (T k : nat) (rows : list (list A)) :
  Forall (fun r => length r = T) rows ->
  skipn (k * T) (concat rows) = concat (skipn k rows).
Proof.
  intros H. revert k. induction H as [|r rows Hr H IH]; intros k.
  - rewrite !skipn_nil. reflexivity.
  - destruct k as [|k]; [reflexivity|].
    cbn [concat skipn]. cbn [Nat.mul]. subst T.
    rewrite skipn_app, skipn_all2 by lia. cbn [app].
    replace (length r + k * length r - length r) with (k * length r) by lia.
    apply IH.
Qed.

Lemma Forall_skipn {A} (P : A -> Prop) (k : nat) (l : list A) :
  Forall P l -> Forall P (skipn k l).
Proof.
  intros H. apply Forall_forall. intros x Hx. rewrite Forall_forall in H.
  apply H. rewrite <- (firstn_skipn k l). apply in_or_app. now right.
Qed.

Lemma chunks_concat_rows {A} (T n k : nat) (rows : list (list A)) :
  Forall (fun r => length r = T) rows ->
  chunks n (k * T) (concat rows) = map (@concat A) (chunks n k rows).
Proof.
  revert rows. induction n as [|n IH]; intros rows H; [reflexivity|].
  cbn [chunks map]. rewrite (firstn_concat_rows k H), (skipn_concat_rows k H).
  f_equal. apply IH. now apply Forall_skipn.
Qed.

Lemma chunks_of_one {A} (rows : list A) :
  chunks (length rows) 1 rows = map (fun r => [r]) rows.
Proof. induction rows as [|r rows IH]; simpl; [reflexivity|]. now rewrite IH. Qed.

Lemma length_concat_rows {A} (T : nat) (rows : list (list A)) :
  Forall (fun r => length r = T) rows ->
  length (concat rows) = length rows * T.
Proof.
  intros H. induction H as [|r rows Hr H IH]; simpl; [reflexivity|].
  rewrite length_app, IH, Hr. reflexivity.
Qed.

Lemma epochs_rows {A} (C T : nat) (epochs : list (list (list A))) :
  Forall (fun m => length m = C /\ Forall (fun r => length r = T) m) epochs ->
  length (concat epochs) = length epochs * C /\
  Forall (fun r => length r = T) (concat epochs).
Proof.
  intros H. induction H as [|m epochs [Hm Hr] H [IH1 IH2]]; simpl.
  - split; [reflexivity|constructor].
  - split; [rewrite length_app; lia|]. apply Forall_app. now split.
Qed.

Lemma concat_map_concat {A} (l : list (list (list A))) :
  concat (map (@concat A) l) = concat (concat l).
Proof.
  induction l as [|m l IH]; simpl; [reflexivity|].
  now rewrite concat_app, IH.
Qed.

Lemma epochs_matrix (F : Type) (NF : Num F) (argsort : list F -> list nat)
    (C T : nat) (epochs : list (matrix F)) :
  1 <= C ->
  Forall (fun m => length m = C /\ Forall (fun r => length r = T) m) epochs ->
  fit_data argsort (Epochs_data C T epochs) false
  = Ok (fit_Epochs, map (@concat F) (chunks C (length epochs) (concat epochs))).
Proof.
  intros HC H. unfold matrix in *. destruct (epochs_rows H) as [L R].
  unfold fit_data, reshape_rows. rewrite concat_map_concat.
  rewrite (length_concat_rows R), L.
  destruct (Nat.eqb_spec C 0) as [|_]; [lia|].
  match goal with
  | |- context [Nat.modulo ?n C] =>
      replace n with (length epochs * T * C) by lia
  end.
  rewrite Nat.Div0.mod_mul, Nat.div_mul by lia. cbn [Nat.eqb negb bind].
  now rewrite (chunks_concat_rows C (length epochs) R).
Qed.

(** X20. The matrix of an Epochs instance (gfp=False), for E epochs of
    n_channels >= 1 channels and n_times samples:
    data.reshape((n_channels, -1)) keeps the row-major order of the array,
    so row r is the concatenation of the traces r*E .. r*E+E-1 of the
    list of all channel traces, epoch after epoch.  With one epoch the
    matrix is that epoch. *)
Theorem epochs_are_reshaped_not_concatenated :
  forall (F : Type) (NF : Num F) (argsort : list F -> list nat)
         (n_channels n_times : nat) (epochs : list (matrix F)),
    1 <= n_channels ->
    Forall (fun m => length m = n_channels /\
                     Forall (fun r => length r = n_times) m) epochs ->
    fit_data argsort (Epochs_data n_channels n_times epochs) false
    = Ok (fit_Epochs,
          map (@concat F) (chunks n_channels (length epochs) (concat epochs)))
    /\
    (forall m, epochs = [m] ->
       fit_data argsort (Epochs_data n_channels n_times epochs) false
       = Ok (fit_Epochs, m)).
Proof.
  intros F NF argsort C T epochs HC H. split; [now apply epochs_matrix|].
  intros m ->. rewrite (@epochs_matrix F NF argsort C T [m] HC H). f_equal. f_equal.
  inversion H as [|? ? [Hm _] _]; subst.
  cbn [length concat]. rewrite app_nil_r, chunks_of_one, map_map.
  cbn [concat]. rewrite <- (map_id m) at 2. apply map_ext. intros r.
  apply app_nil_r.
Qed.

Lemma epochs_are_reshaped_not_concatenated_witness :
  fit_data MoreInputs.argsort
    (Epochs_data 2 2 [[[1; 2]; [3; 4]]; [[5; 6]; [7; 8]]]%float) false
  = Ok (fit_Epochs,
        map (@concat float)
            (chunks 2 2 (concat [[[1; 2]; [3; 4]]; [[5; 6]; [7; 8]]]%float)))
  /\
  (forall m, [[[1; 2]; [3; 4]]; [[5; 6]; [7; 8]]]%float = [m] ->
     fit_data MoreInputs.argsort
       (Epochs_data 2 2 [[[1; 2]; [3; 4]]; [[5; 6]; [7; 8]]]%float) false
     = Ok (fit_Epochs, m)).
Proof.
  apply (@epochs_are_reshaped_not_concatenated float _ MoreInputs.argsort 2 2
           [[[1; 2]; [3; 4]]; [[5; 6]; [7; 8]]]%float).
  - lia.
  - repeat constructor.
Defined.

(** ** Two reorders in a row *)

Lemma compose_orders_permutation (o1 o2 : list Z) (K : nat) :
  Permutation o1 (arange K) -> Permutation o2 (arange K) ->
  Permutation (map (fun j => nth (Z.to_nat j) o1 0%Z) o2) (arange K).
Proof.
  intros H1 H2.
  transitivity (map (fun j => nth (Z.to_nat j) o1 0%Z) (arange K)).
  - now apply Permutation_map.
  - transitivity o1; [|exact H1].
    assert (L : length o1 = K).
    { apply Permutation_length in H1. now rewrite arange_length in H1. }
    unfold arange. rewrite map_map.
    rewrite (@map_seq_nth Z (fun k => nth (Z.to_nat (Z.of_nat k)) o1 0%Z) K o1 0%Z L).
    + reflexivity.
    + intros i _. now rewrite Nat2Z.id.
Qed.

Lemma selected_row {A} (c c1 : list A) (o1 : list Z) (p : nat) :
  map Some c1 = map (fun i => nth_error c (Z.to_nat i)) o1 ->
  p < length o1 ->
  nth_error c1 p = nth_error c (Z.to_nat (nth p o1 0%Z)).
Proof.
  intros H Hp.
  assert (E : nth_error (map Some c1) p
              = nth_error (map (fun i => nth_error c (Z.to_nat i)) o1) p)
    by now rewrite H.
  rewrite !nth_error_map in E.
  rewrite (nth_error_nth' o1 0%Z Hp) in E. cbn [option_map] in E.
  destruct (nth_error c1 p) as [x|]; cbn [option_map] in E; [|discriminate].
  now injection E as <-.
Qed.

Lemma set_cluster_centers_same {F : Type} (self : @ModKMeans F) (c : matrix F) :
  cluster_centers self = Some c -> set_cluster_centers self c = self.
Proof. destruct self. simpl. now intros ->. Qed.

(** X24. Two reorders in a row are one.  On a fitted model that holds
    its n_clusters centers, reorder(o1) followed by reorder(o2) leaves
    what reorder([o1[j] for j in o2]) leaves, and the identity order
    changes nothing. *)
Theorem reorder_twice_is_one_reorder :
  forall (F : Type) (NF : Num F) (self : @ModKMeans F) (o1 o2 : list Z)
         (c : matrix F),
    current_fit self <> unfitted ->
    cluster_centers self = Some c ->
    length c = n_clusters self ->
    Permutation o1 (arange (n_clusters self)) ->
    Permutation o2 (arange (n_clusters self)) ->
    reorder (snd (reorder self o1)) o2
      = reorder self (map (fun j => nth (Z.to_nat j) o1 0%Z) o2) /\
    reorder self (arange (n_clusters self)) = (Ok tt, self).
Proof.
  intros F NF self o1 o2 c Hfit Hc Hlen H1 H2. split.
  - destruct (@reorder_valid_order F NF self o1 c Hfit Hc Hlen H1)
      as [c1 [E1 [M1 P1]]].
    rewrite E1. cbn [snd].
    assert (L1 : length c1 = n_clusters self)
      by (apply Permutation_length in P1; congruence).
    destruct (@reorder_valid_order F NF (set_cluster_centers self c1) o2 c1
                Hfit eq_refl L1 H2) as [c2 [E2 [M2 _]]].
    rewrite E2.
    destruct (@reorder_valid_order F NF self _ c Hfit Hc Hlen
                (@compose_orders_permutation o1 o2 (n_clusters self) H1 H2))
      as [c3 [E3 [M3 _]]].
    rewrite E3. f_equal.
    assert (E : c2 = c3).
    { apply map_Some_inj. rewrite M2, M3, map_map.
      apply map_ext_in. intros j Hj.
      apply (@selected_row _ c c1 o1 (Z.to_nat j) M1).
      apply (Permutation_in _ H2) in Hj. unfold arange in Hj.
      apply in_map_iff in Hj. destruct Hj as [k [<- Hk]]. apply in_seq in Hk.
      rewrite Nat2Z.id. apply Permutation_length in H1.
      rewrite arange_length in H1. lia. }
    now rewrite E.
  - destruct (@reorder_valid_order F NF self (arange (n_clusters self)) c Hfit
                Hc Hlen (Permutation_refl _)) as [c' [E [M _]]].
    rewrite E. f_equal.
    assert (Hcc : c' = c).
    { apply map_Some_inj. rewrite M, <- Hlen. unfold arange.
      exact (nth_error_seq_all [] c). }
    rewrite Hcc. now apply set_cluster_centers_same.
Qed.

Lemma reorder_twice_is_one_reorder_witness :
  let self := Inputs.fitted 2 Inputs.centers_2x3 [] in
  reorder (snd (reorder self [1; 0]%Z)) [1; 0]%Z
    = reorder self (map (fun j => nth (Z.to_nat j) [1; 0]%Z 0%Z) [1; 0]%Z) /\
  reorder self (arange (n_clusters self)) = (Ok tt, self).
Proof.
  apply (@reorder_twice_is_one_reorder float _
           (Inputs.fitted 2 Inputs.centers_2x3 []) [1; 0]%Z [1; 0]%Z
           Inputs.centers_2x3).
  - discriminate.
  - reflexivity.
  - reflexivity.
  - apply perm_swap.
  - apply perm_swap.
Defined.

(** ** A fitted model applied to the data it was fitted on *)

Section FitThenUse.
Context {F : Type} {NF : Num F}.
Variable Gen : Type.
Variable seeded : Z -> Gen.
Variable choice : Gen -> nat -> nat -> list nat * Gen.

Hypothesis choice_length : forall g n k, length (fst (choice g n k)) = k.



End FitThenUse.




(** ** The selection among restarts in binary64 *)

(* below, then below or equal, is below *)
Lemma SFcompare_lt_le_trans (x y z : spec_float) :
  SFcompare x y = Some Lt ->
  SFcompare y z = Some Lt \/ SFcompare y z = Some Eq ->
  SFcompare x z = Some Lt.
Proof.
  destruct x as [sx|sx| |sx mx ex], y as [sy|sy| |sy my ey],
           z as [sz|sz| |sz mz ez]; simpl;
    try discriminate; intros Hxy [Hyz|Hyz];
    try discriminate;
    try (destruct sx; discriminate); try (destruct sy; discriminate);
    try (destruct sz; discriminate);
    try (destruct sx, sy; discriminate); try (destruct sy, sz; discriminate);
    try (destruct sx, sz; try discriminate; reflexivity);
    try (destruct sx; try discriminate; reflexivity);
    try (destruct sz; try discriminate; reflexivity);
    try (destruct sx, sy, sz; try discriminate; reflexivity).
  all: destruct sx, sy, sz; try discriminate; try reflexivity.
  all: f_equal; injection Hxy as Hxy; injection Hyz as Hyz.
  all: change (Pos.compare_cont Eq mx my) with (Pos.compare mx my) in Hxy.
  all: change (Pos.compare_cont Eq my mz) with (Pos.compare my mz) in Hyz.
  all: change (Pos.compare_cont Eq mx mz) with (Pos.compare mx mz).
  all: destruct (Z.compare_spec ex ey), (Z.compare_spec ey ez),
         (Z.compare_spec ex ez); try discriminate; try reflexivity; try lia.
  all: destruct (Pos.compare_spec mx my), (Pos.compare_spec my mz),
         (Pos.compare_spec mx mz); try discriminate; try reflexivity; try lia.
Qed.

Lemma f64_lt_le_trans (a b c : float) :
  fltb a b = true -> fleb b c = true -> fltb a c = true.
Proof.
  rewrite !f64_ltb, f64_leb'. unfold SFltb, SFleb. intros Hab Hbc.
  rewrite (@SFcompare_lt_le_trans (Prim2SF a) (Prim2SF b) (Prim2SF c)); [reflexivity| |].
  - destruct (SFcompare (Prim2SF a) (Prim2SF b)) as [[| |]|]; try discriminate.
    reflexivity.
  - destruct (SFcompare (Prim2SF b) (Prim2SF c)) as [[| |]|]; try discriminate; auto.
Qed.

Lemma f64_lt_le (a b : float) : fltb a b = true -> fleb a b = true.
Proof.
  rewrite f64_ltb, f64_leb'. unfold SFltb, SFleb.
  destruct (SFcompare (Prim2SF a) (Prim2SF b)) as [[| |]|]; try discriminate.
  reflexivity.
Qed.

Lemma f64_lt_not_ge (a b : float) : fltb a b = true -> fleb b a = false.
Proof.
  rewrite f64_ltb, f64_leb'. unfold SFltb, SFleb.
  rewrite (SFcompare_antisym (Prim2SF a) (Prim2SF b)).
  destruct (SFcompare (Prim2SF a) (Prim2SF b)) as [[| |]|]; try discriminate.
  reflexivity.
Qed.

Lemma f64_lt_trans (a b c : float) :
  fltb a b = true -> fltb b c = true -> fltb a c = true.
Proof. intros Hab Hbc. eapply f64_lt_le_trans; [exact Hab|now apply f64_lt_le]. Qed.

(* not above a bound, while a third value is above it: the third value
   is not below or equal *)
Lemma f64_not_above (bg x r : float) :
  fltb bg x = false -> fltb bg r = true -> fleb r x = false.
Proof.
  intros Hx Hr. destruct (fleb r x) eqn:E; [|reflexivity].
  rewrite (@f64_lt_le_trans _ _ _ Hr E) in Hx. discriminate.
Qed.

(* The comparison of lines 569-570 in binary64: either nothing was above
   the running best, or the run kept is above it, no earlier run is
   greater than or equal to it, and no later run is above it. *)
Lemma select_best_f64 (l : list (@run float)) (bg : float)
    (b : option (@run float)) :
  (select_best bg b l = (bg, b) /\
   forall x, In x l -> fltb bg (run_gev x) = false) \/
  exists pre r post,
    l = pre ++ r :: post /\
    select_best bg b l = (run_gev r, Some r) /\
    fltb bg (run_gev r) = true /\
    (forall x, In x pre -> fleb (run_gev r) (run_gev x) = false) /\
    (forall x, In x post -> fltb (run_gev r) (run_gev x) = false).
Proof.
  revert bg b. induction l as [|x l IH]; intros bg b.
  - left. split; [reflexivity|]. intros x [].
  - cbn [select_best]. destruct (fltb bg (run_gev x)) eqn:E.
    + right.
      destruct (IH (run_gev x) (Some x))
        as [[Hs Hall] | [pre [r [post [-> [Hs [Hlt [Hpre Hpost]]]]]]]].
      * exists [], x, l. repeat split; auto. intros y [].
      * exists (x :: pre), r, post. repeat split; auto.
        -- now apply (@f64_lt_trans bg (run_gev x)).
        -- intros y [<-|Hy]; [now apply f64_lt_not_ge | now apply Hpre].
    + destruct (IH bg b)
        as [[Hs Hall] | [pre [r [post [-> [Hs [Hlt [Hpre Hpost]]]]]]]].
      * left. split; [exact Hs|]. intros y [<-|Hy]; [exact E | now apply Hall].
      * right. exists (x :: pre), r, post. repeat split; auto.
        intros y [<-|Hy]; [now apply (@f64_not_above bg) | now apply Hpre].
Qed.

(** X22. _do_fit with n_jobs = 1, IEEE binary64: when the restarts all
    return and one of them has a GEV above 0, the run returned is one of
    them, its GEV is above 0, no earlier run has a GEV greater than or
    equal to it (each is below it, or NaN), and no later run has a GEV
    above it: the first run of highest GEV. *)
Theorem sequential_fit_returns_the_first_best_run :
  forall (Gen : Type) (seeded : Z -> Gen)
         (choice : Gen -> nat -> nat -> list nat * Gen)
         (self : @ModKMeans float) (data : matrix float) (w w' : world Gen)
         (l : list (@run float)),
    restarts seeded choice (n_init self) self data w = (Ok l, w') ->
    (exists x, In x l /\ fltb fzero (run_gev x) = true) ->
    exists pre r post,
      l = pre ++ r :: post /\
      _do_fit seeded choice self data w = (Ok r, w') /\
      fltb fzero (run_gev r) = true /\
      (forall x, In x pre -> fleb (run_gev r) (run_gev x) = false) /\
      (forall x, In x post -> fltb (run_gev r) (run_gev x) = false).
Proof.
  intros Gen seeded choice self data w w' l Hr [x [Hx Hpos]].
  unfold _do_fit. rewrite fit_loop_restarts, Hr.
  destruct (@select_best_f64 l fzero None)
    as [[Hs Hall] | [pre [r [post [-> [Hs [Hlt [Hpre Hpost]]]]]]]].
  - rewrite (Hall x Hx) in Hpos. discriminate.
  - exists pre, r, post. rewrite Hs. repeat split; auto.
Qed.

Lemma sequential_fit_returns_the_first_best_run_witness :
  let self := Inputs.unfitted_model 2 RS_instance 5 in
  exists l pre r post,
    fst (restarts Inputs.toy_seeded Inputs.toy_choice 5 self Inputs.data_3x9
           Inputs.toy_world) = Ok l /\
    length l = 5 /\
    nth_error l 3 = Some r /\
    l = pre ++ r :: post /\
    fst (_do_fit Inputs.toy_seeded Inputs.toy_choice self Inputs.data_3x9
           Inputs.toy_world) = Ok r /\
    fltb fzero (run_gev r) = true /\
    (forall x, In x pre -> fleb (run_gev r) (run_gev x) = false) /\
    (forall x, In x post -> fltb (run_gev r) (run_gev x) = false).
Proof.
  intros self.
  destruct (restarts Inputs.toy_seeded Inputs.toy_choice (n_init self) self
              Inputs.data_3x9 Inputs.toy_world) as [res w'] eqn:E.
  assert (Hres : exists l r0,
            res = Ok l /\ length l = 5 /\ nth_error l 3 = Some r0 /\
            fst (_do_fit Inputs.toy_seeded Inputs.toy_choice self Inputs.data_3x9
                   Inputs.toy_world) = Ok r0 /\
            fltb fzero (run_gev r0) = true).
  { apply (f_equal fst) in E. cbn [fst] in E. subst res.
    vm_compute. eexists. eexists. repeat split; reflexivity. }
  destruct Hres as [l [r0 [-> [Hlen [Hnth [Hfit0 Hpos0]]]]]].
  destruct (@sequential_fit_returns_the_first_best_run nat Inputs.toy_seeded
              Inputs.toy_choice self Inputs.data_3x9 Inputs.toy_world w' l E)
    as [pre [r [post [Hl [Hfit [H0 [Hpre Hpost]]]]]]].
  - exists r0. split; [|exact Hpos0]. eapply nth_error_In. exact Hnth.
  - rewrite Hfit in Hfit0. cbn [fst] in Hfit0. injection Hfit0 as <-.
    exists l, pre, r, post.
    change (n_init self) with 5 in E. rewrite E, Hfit. cbn [fst].
    repeat split; auto.
Defined.

Section StoredGev.
Variable Gen : Type.
Variable seeded : Z -> Gen.
Variable choice : Gen -> nat -> nat -> list nat * Gen.

Lemma do_fit_gev_positive (self : @ModKMeans float) (data : matrix float)
    (w w' : world Gen) (r : @run float) :
  _do_fit seeded choice self data w = (Ok r, w') ->
  fltb fzero (run_gev r) = true.
Proof.
  unfold _do_fit. rewrite fit_loop_restarts.
  destruct (restarts seeded choice (n_init self) self data w) as [[l|e] w1];
    [|discriminate].
  destruct (@select_best_f64 l fzero None)
    as [[Hs Hall] | [pre [r' [post [-> [Hs [Hlt [Hpre Hpost]]]]]]]];
    rewrite Hs; [discriminate|].
  intros H. injection H as <- _. exact Hlt.
Qed.

End StoredGev.

(** X14. The GEV that a fit stores (n_jobs = 1, IEEE binary64) is a
    number above 0: a run is kept only when its GEV exceeds best_gev,
    which starts at 0, so a GEV that is 0, negative or NaN is never
    stored. *)
Theorem fit_stores_a_positive_gev :
  forall (Gen : Type) (seeded : Z -> Gen)
         (choice : Gen -> nat -> nat -> list nat * Gen)
         (self self' : @ModKMeans float) (kind : current_fit_t)
         (data : matrix float) (ch_names : list string) (w : world Gen),
    fst (fit seeded choice self kind data ch_names w) = Ok self' ->
    exists g, GEV self' = Some g /\ fltb fzero g = true /\ isnan g = false.
Proof.
  intros Gen seeded choice self self' kind data ch_names w. unfold fit.
  destruct (_do_fit seeded choice self data w) as [[r|e] w'] eqn:E; [|discriminate].
  cbn [fst]. intros H. injection H as <-. cbn [GEV].
  exists (run_gev r). split; [reflexivity|].
  pose proof (@do_fit_gev_positive _ _ _ _ _ _ _ _ E) as Hpos.
  split; [exact Hpos|].
  unfold isnan. apply negb_false_iff.
  rewrite f64_leb'. rewrite f64_ltb in Hpos. unfold SFltb in Hpos. unfold SFleb.
  destruct (Prim2SF (run_gev r)) as [s|s| |s m e]; try discriminate.
  - now destruct s.
  - simpl. destruct s; rewrite Z.compare_refl;
      change (Pos.compare_cont Eq m m) with (Pos.compare m m);
      now rewrite Pos.compare_refl.
Qed.

Lemma fit_stores_a_positive_gev_witness :
  exists self' g,
    fst (fit Inputs.toy_seeded Inputs.toy_choice
           (Inputs.unfitted_model 2 RS_instance 5) fit_Raw Inputs.data_3x9 []
           Inputs.toy_world) = Ok self' /\
    GEV self' = Some g /\ fltb fzero g = true /\ isnan g = false.
Proof.
  assert (H : exists self',
            fst (fit Inputs.toy_seeded Inputs.toy_choice
                   (Inputs.unfitted_model 2 RS_instance 5) fit_Raw
                   Inputs.data_3x9 [] Inputs.toy_world) = Ok self').
  { vm_compute. eexists. reflexivity. }
  destruct H as [self' H].
  destruct (@fit_stores_a_positive_gev nat Inputs.toy_seeded Inputs.toy_choice
              (Inputs.unfitted_model 2 RS_instance 5) self' fit_Raw
              Inputs.data_3x9 [] Inputs.toy_world H) as [g Hg].
  exists self', g. split; [exact H|exact Hg].
Defined.

(** ** Correlation of two vectors in binary64 *)

Lemma f64_mul_comm (a b : float) : fmul a b = fmul b a.
Proof.
  apply Prim2SF_inj. rewrite !f64_mul.
  destruct (Prim2SF a) as [sa|sa| |sa ma ea], (Prim2SF b) as [sb|sb| |sb mb eb];
    cbn [SF64mul SFmul]; rewrite ?(xorb_comm sb sa); try reflexivity.
  now rewrite (Pos.mul_comm mb ma), (Z.add_comm eb ea).
Qed.

Lemma zip_mul_comm (u v : list float) : zip_with fmul u v = zip_with fmul v u.
Proof.
  revert v. induction u as [|x u IH]; intros [|y v]; simpl; try reflexivity.
  f_equal; [apply f64_mul_comm | apply IH].
Qed.

Lemma nan_to_num_is_a_number (x : float) :
  PrimFloat.is_nan (nan_to_num x) = false /\
  PrimFloat.is_infinity (nan_to_num x) = false.
Proof.
  change (nan_to_num x) with (f64_nan_to_num x). unfold f64_nan_to_num.
  destruct (PrimFloat.is_nan x) eqn:En; [split; reflexivity|].
  destruct (PrimFloat.is_infinity x) eqn:Ei; [split; reflexivity|].
  split; assumption.
Qed.

(** X12. _corr_vectors on one pair of columns, IEEE binary64: the
    correlation does not depend on the order of the two arguments, and
    it is always a number, NaN and the infinities being replaced by 0
    (line 120). *)
Theorem corr_vectors_is_symmetric_and_a_number :
  forall (a b : list float),
    corr_pair a b = corr_pair b a /\
    PrimFloat.is_nan (corr_pair a b) = false /\
    PrimFloat.is_infinity (corr_pair a b) = false.
Proof.
  intros a b. split.
  - unfold corr_pair. cbv zeta. now rewrite zip_mul_comm.
  - unfold corr_pair. cbv zeta. apply nan_to_num_is_a_number.
Qed.

Open Scope R_scope.

(** ** transform does not depend on polarity *)

Lemma demean_scaled (c : R) (v : list R) :
  demean (map (Rmult c) v) = map (Rmult c) (demean v).
Proof. unfold demean. apply demean_scale. Qed.

Lemma cov_entry_scale_r (c : R) (u v : list R) :
  cov_entry u (map (Rmult c) v) = c * cov_entry u v.
Proof.
  unfold cov_entry. rewrite demean_scaled, dot_scale_r.
  change (@fmul R Num_R) with Rmult. ring.
Qed.

Lemma cov_entry_scale_l (c : R) (u v : list R) :
  cov_entry (map (Rmult c) u) v = c * cov_entry u v.
Proof.
  unfold cov_entry. rewrite demean_scaled, dot_scale_l, length_map.
  change (@fmul R Num_R) with Rmult. ring.
Qed.

Lemma cov_entry_scale_sign (c : R) (u : list R) :
  is_sign c -> cov_entry (map (Rmult c) u) (map (Rmult c) u) = cov_entry u u.
Proof.
  intros Hc. rewrite cov_entry_scale_l, cov_entry_scale_r, <- Rmult_assoc.
  rewrite (sign_square Hc). ring.
Qed.

Lemma clip_unit_sign (c x : R) :
  is_sign c -> clip_unit (c * x) = c * clip_unit x.
Proof.
  intros Hc. unfold clip_unit, isnan.
  cbn [fleb fltb fneg fone Num_R].
  assert (Hr : forall y, Rleb y y = true) by (intros y; apply Rleb_le; lra).
  rewrite !Hr. cbn [negb]. unfold Rltb.
  destruct Hc as [-> | ->];
    repeat (match goal with |- context [Rlt_dec ?a ?b] => destruct (Rlt_dec a b) end);
    lra.
Qed.

Lemma abs_corrcoef_up_to_sign (u' u v' v : list R) :
  vec_eq_up_to_sign u' u -> vec_eq_up_to_sign v' v ->
  Rabs (corrcoef_entry u' v') = Rabs (corrcoef_entry u v).
Proof.
  intros [a [Ha ->]] [b [Hb ->]]. unfold corrcoef_entry.
  rewrite !cov_entry_scale_sign by assumption.
  rewrite cov_entry_scale_l, cov_entry_scale_r.
  change (@fdiv R Num_R) with Rdiv.
  replace (a * (b * cov_entry u v) / fsqrt (cov_entry u u) / fsqrt (cov_entry v v))
    with ((a * b) * (cov_entry u v / fsqrt (cov_entry u u) / fsqrt (cov_entry v v)))
    by (unfold Rdiv; ring).
  rewrite clip_unit_sign by now apply is_sign_mult.
  apply sign_abs. now apply is_sign_mult.
Qed.

Lemma column_distances_up_to_sign (rows' rows : matrix R) (v' v : list R) :
  Forall2 vec_eq_up_to_sign rows' rows -> vec_eq_up_to_sign v' v ->
  map (fun u => fabs (corrcoef_entry u v')) rows'
  = map (fun u => fabs (corrcoef_entry u v)) rows.
Proof.
  intros Hr Hv. induction Hr as [|u' u rows' rows Hu Hr IH]; simpl; [reflexivity|].
  f_equal; [|exact IH]. now apply abs_corrcoef_up_to_sign.
Qed.

Lemma distances_up_to_sign (rows' rows columns' columns : matrix R) :
  Forall2 vec_eq_up_to_sign rows' rows ->
  Forall2 vec_eq_up_to_sign columns' columns ->
  map_result (fun v => np_max (map (fun u => fabs (corrcoef_entry u v)) rows'))
             columns'
  = map_result (fun v => np_max (map (fun u => fabs (corrcoef_entry u v)) rows))
               columns.
Proof.
  intros Hr Hc. induction Hc as [|v' v columns' columns Hv Hc IH];
    cbn [map_result]; [reflexivity|].
  now rewrite IH, (column_distances_up_to_sign Hr Hv).
Qed.

Lemma vscale_length (sigma : nat -> R) (a : nat) (vs : list (list R)) :
  length (vscale sigma a vs) = length vs.
Proof.
  revert a. induction vs as [|v vs IH]; intros a; simpl; [reflexivity|].
  now rewrite IH.
Qed.

Lemma vscale_row_lengths (sigma : nat -> R) (n a : nat) (vs : list (list R)) :
  forallb (fun r => Nat.eqb (length r) n) (vscale sigma a vs)
  = forallb (fun r => Nat.eqb (length r) n) vs.
Proof.
  revert a. induction vs as [|v vs IH]; intros a; simpl; [reflexivity|].
  now rewrite length_map, IH.
Qed.

Lemma firstn_skipn_app_exact {A} (u v : list A) :
  firstn (length u) (u ++ v) = u /\ skipn (length u) (u ++ v) = v.
Proof.
  split.
  - rewrite firstn_app, Nat.sub_diag, firstn_all. cbn [firstn]. apply app_nil_r.
  - rewrite skipn_app, Nat.sub_diag, skipn_all. reflexivity.
Qed.

(** X15. transform ignores polarity, exact arithmetic: with sample j of
    the data negated and center k of the model negated, every distance
    is what it was. *)
Theorem transform_ignores_polarity :
  forall (self : @ModKMeans R) (c data : matrix R) (j k : nat),
    cluster_centers self = Some c ->
    length c = n_clusters self ->
    transform (set_cluster_centers self (vscale (flip_at k) 0 c))
              (negate_col j data)
    = transform self data.
Proof.
  intros self c data j k Hc Hlen. unfold transform, _check_fit.
  cbn [set_cluster_centers current_fit cluster_centers n_clusters].
  destruct (current_fit self); [reflexivity| | |];
    (rewrite Hc; unfold cluster_distances;
     assert (Hn : n_rows (negate_col j data) = n_rows data)
       by (unfold n_rows, negate_col; apply length_map);
     rewrite Hn, vscale_row_lengths;
     destruct (negb _); [reflexivity|]; cbv zeta;
     rewrite negate_col_iscale, transpose_iscale;
     rewrite <- Hlen;
     destruct (firstn_skipn_app_exact c (transpose data)) as [-> ->];
     pose proof (firstn_skipn_app_exact (vscale (flip_at k) 0 c)
                   (vscale (flip_at j) 0 (transpose data))) as [H1 H2];
     rewrite vscale_length in H1, H2; rewrite H1, H2;
     apply distances_up_to_sign; apply vscale_up_to_sign; apply flip_at_sign).
Qed.

Lemma transform_ignores_polarity_witness :
  transform (set_cluster_centers
               (mkModKMeans 1 fit_Raw (Some [[1; 0]]) (Some 1) (Some [])
                  (RS_int 0) 1 0 (1 / 1000000) None)
               (vscale (flip_at 0) 0 [[1; 0]]))
            (negate_col 0 [[1; 2]; [0; 1]])
  = transform (mkModKMeans 1 fit_Raw (Some [[1; 0]]) (Some 1) (Some [])
                 (RS_int 0) 1 0 (1 / 1000000) None)
              [[1; 2]; [0; 1]].
Proof.
  apply (@transform_ignores_polarity
           (mkModKMeans 1 fit_Raw (Some [[1; 0]]) (Some 1) (Some [])
              (RS_int 0) 1 0 (1 / 1000000) None)
           [[1; 0]] [[1; 2]; [0; 1]] 0%nat 0%nat).
  - reflexivity.
  - reflexivity.
Defined.

(** ** The segmentation does not depend on the polarity of the centers *)

Lemma std_scale_sign (c : R) (v : list R) :
  is_sign c -> std (map (Rmult c) v) = std v.
Proof.
  intros Hc. unfold std. cbv zeta. rewrite mean_scale, map_map.
  f_equal. unfold mean. rewrite !length_map. f_equal. f_equal.
  apply map_ext. intros x. unfold fsq. cbn [fabs fsub fmul Num_R].
  replace (c * x - c * (fsum v / of_Z (Z.of_nat (length v))))
    with (c * (x - fsum v / of_Z (Z.of_nat (length v)))) by ring.
  now rewrite sign_abs.
Qed.

Lemma scale_rows_vscale (sigma : nat -> R) (a : nat) (states : matrix R) :
  (forall k, is_sign (sigma k)) ->
  scale_rows (vscale sigma a states) = vscale sigma a (scale_rows states).
Proof.
  intros Hs. revert a. induction states as [|v states IH]; intros a;
    [reflexivity|].
  cbn [vscale scale_rows map]. f_equal; [|apply IH].
  now rewrite std_scale_sign, vdiv_scale.
Qed.

(* the column of w = one_hot Nu labels for one sample: 1 at the label
   of the sample, 0 elsewhere *)
Lemma one_hot_column (Nu : nat) (labels : list nat) (t : nat) :
  (t < length labels)%nat ->
  col t (one_hot (F:=R) Nu labels)
  = map (fun k => if Nat.eqb k (nth t labels 0%nat) then 1 else 0) (seq 0 Nu).
Proof.
  intros Ht. unfold col, one_hot. rewrite map_map. apply map_ext. intros k.
  rewrite (nth_indep _ _ (if Nat.eqb k 0 then fone else fzero))
    by (now rewrite length_map).
  now rewrite (map_nth (fun l => if Nat.eqb k l then fone else fzero) labels 0%nat t).
Qed.

Lemma n_cols_one_hot_le (Nu : nat) (labels : list nat) :
  (n_cols (one_hot (F:=R) Nu labels) <= length labels)%nat.
Proof.
  unfold n_cols, one_hot. destruct Nu as [|n]; simpl; [lia|].
  now rewrite length_map.
Qed.

Lemma nth_map_scale (c : R) (v : list R) (i : nat) :
  nth i (map (Rmult c) v) 0 = c * nth i v 0.
Proof.
  revert i. induction v as [|x v IH]; intros i.
  - destruct i; simpl; ring.
  - destruct i; simpl; [reflexivity|apply IH].
Qed.

Lemma indicator_dot_scaled (sigma : nat -> R) (l c a : nat) (states : matrix R) :
  dot (map (fun k => if Nat.eqb k l then 1 else 0) (seq a (length states)))
      (col c (vscale sigma a states))
  = sigma l *
    dot (map (fun k => if Nat.eqb k l then 1 else 0) (seq a (length states)))
        (col c states).
Proof.
  revert a. induction states as [|v states IH]; intros a.
  - cbn [length seq map vscale col]. rewrite dot_nil_l. ring.
  - cbn [length seq map vscale col]. rewrite !dot_cons.
    specialize (IH (S a)). unfold col in IH. rewrite IH.
    change (@fzero R Num_R) with 0. rewrite nth_map_scale.
    destruct (Nat.eqb_spec a l) as [->|Hne]; ring.
Qed.

Lemma fitted_proj_scaled (sigma : nat -> R) (states : matrix R) (l : nat)
    (x : list R) :
  fitted_proj (vscale sigma 0 states) (indicator (length states) l) x
  = sigma l * fitted_proj states (indicator (length states) l) x.
Proof.
  unfold fitted_proj, indicator. cbv zeta.
  rewrite <- fsum_scale. change (@fmul R Num_R) with Rmult.
  rewrite <- zip_scale_l, map_map. f_equal. f_equal.
  apply map_ext. intros c. apply indicator_dot_scaled.
Qed.

Lemma transpose_one_hot (Nu : nat) (labels : list nat) :
  Forall (fun wt => exists l, wt = indicator Nu l)
         (transpose (one_hot (F:=R) Nu labels)).
Proof.
  unfold transpose. apply Forall_forall. intros wt Hwt.
  apply in_map_iff in Hwt. destruct Hwt as [t [<- Ht]].
  apply in_seq in Ht. pose proof (n_cols_one_hot_le Nu labels).
  exists (nth t labels 0%nat). apply one_hot_column. lia.
Qed.

Lemma squared_projections (sigma : nat -> R) (states : matrix R)
    (ws samples : list (list R)) :
  (forall k, is_sign (sigma k)) ->
  Forall (fun wt => exists l, wt = indicator (length states) l) ws ->
  map fsq (zip_with (fitted_proj (vscale sigma 0 states)) ws samples)
  = map fsq (zip_with (fitted_proj states) ws samples).
Proof.
  intros Hs Hw. revert samples.
  induction Hw as [|wt ws [l ->] Hw IH]; intros [|x samples];
    cbn [zip_with map]; try reflexivity.
  f_equal; [|apply IH]. rewrite fitted_proj_scaled. unfold fsq.
  cbn [fmul Num_R].
  replace (sigma l * fitted_proj states (indicator (length states) l) x *
           (sigma l * fitted_proj states (indicator (length states) l) x))
    with ((sigma l * sigma l) *
          (fitted_proj states (indicator (length states) l) x *
           fitted_proj states (indicator (length states) l) x)) by ring.
  rewrite (sign_square (Hs l)). ring.
Qed.

Lemma zip_with_squared {A B} (g : A -> R -> B) (V : list A) (P : list R) :
  zip_with (fun v px => g v (fsq px)) V P = zip_with g V (map fsq P).
Proof.
  revert P. induction V as [|v V IH]; intros [|p P]; cbn [zip_with map];
    try reflexivity.
  now rewrite IH.
Qed.

Lemma unexplained_center_signs (sigma : nat -> R) (states : matrix R)
    (labels : list nat) (samples : list (list R)) (Vvar : list R) (Nt Ne : nat) :
  (forall k, is_sign (sigma k)) ->
  unexplained (vscale sigma 0 states) (one_hot (length states) labels) samples
    Vvar Nt Ne
  = unexplained states (one_hot (length states) labels) samples Vvar Nt Ne.
Proof.
  intros Hs. unfold unexplained.
  rewrite (zip_with_squared (fun v q => fsub v q)).
  rewrite (zip_with_squared (fun v q => fsub v q) Vvar
             (zip_with (fitted_proj states) _ samples)).
  now rewrite (@squared_projections sigma states _ samples Hs
                 (transpose_one_hot _ labels)).
Qed.

Lemma initial_e_center_signs (sigma : nat -> R) (states : matrix R)
    (labels : list nat) (samples : list (list R)) (Vvar : list R) (Nt Ne : nat) :
  (forall k, is_sign (sigma k)) ->
  initial_e (vscale sigma 0 states) (one_hot (length states) labels) samples
    Vvar Nt Ne
  = initial_e states (one_hot (length states) labels) samples Vvar Nt Ne.
Proof.
  intros Hs. unfold initial_e.
  rewrite (zip_with_squared
             (fun v q => fsub v (fdiv q (of_Z (Z.of_nat Nt * (Z.of_nat Ne - 1)))))).
  rewrite (zip_with_squared
             (fun v q => fsub v (fdiv q (of_Z (Z.of_nat Nt * (Z.of_nat Ne - 1)))))
             Vvar (zip_with (fitted_proj states) _ samples)).
  now rewrite (@squared_projections sigma states _ samples Hs
                 (transpose_one_hot _ labels)).
Qed.

Lemma relabel_center_signs (sigma : nat -> R) (states : matrix R)
    (samples : list (list R)) (Vvar : list R) (Ne h : nat) (factor e : R)
    (w : matrix R) :
  (forall k, is_sign (sigma k)) ->
  relabel (vscale sigma 0 states) samples Vvar Ne h factor e w
  = relabel states samples Vvar Ne h factor e w.
Proof.
  intros Hs. unfold relabel. apply map_ext. intros [t [v x]]. f_equal.
  generalize 0%nat as a. revert w.
  induction states as [|s states IH]; intros w a; [reflexivity|].
  destruct w as [|wrow w]; [reflexivity|].
  cbn [vscale combine map]. f_equal; [|apply IH].
  rewrite dot_scale_l. unfold fsq. cbn [fmul Num_R].
  replace (sigma a * dot s x * (sigma a * dot s x))
    with ((sigma a * sigma a) * (dot s x * dot s x)) by ring.
  rewrite (sign_square (Hs a)). now rewrite Rmult_1_l.
Qed.

Lemma segment_loop_center_signs (sigma : nat -> R) (fuel : nat)
    (states : matrix R) (samples : list (list R)) (Vvar : list R)
    (Nt Ne h : nat) (factor crit e : R) (labels : list nat) (S0 : R) :
  (forall k, is_sign (sigma k)) ->
  segment_loop fuel (vscale sigma 0 states) samples Vvar Nt Ne h factor crit e
    (one_hot (length states) labels) S0
  = segment_loop fuel states samples Vvar Nt Ne h factor crit e
      (one_hot (length states) labels) S0.
Proof.
  intros Hs. revert labels S0.
  induction fuel as [|n IH]; intros labels S0; [reflexivity|].
  cbn [segment_loop]. rewrite vscale_length, relabel_center_signs by exact Hs.
  rewrite unexplained_center_signs by exact Hs.
  destruct (fleb _ _); [reflexivity|]. apply IH.
Qed.

Lemma abs_activation_center_signs (sigma : nat -> R) (a : nat)
    (states : matrix R) (x : list R) :
  (forall k, is_sign (sigma k)) ->
  map fabs (map (fun s => dot s x) (vscale sigma a states))
  = map fabs (map (fun s => dot s x) states).
Proof.
  intros Hs. revert a. induction states as [|s states IH]; intros a;
    [reflexivity|].
  cbn [vscale map]. f_equal; [|apply IH].
  rewrite dot_scale_l. cbn [fabs Num_R]. now apply sign_abs.
Qed.

Lemma segment_center_signs (sigma : nat -> R) (fuel : nat)
    (data states : matrix R) (h : nat) (factor crit : R) :
  (forall k, is_sign (sigma k)) ->
  _segment fuel data (vscale sigma 0 states) h factor crit
  = _segment fuel data states h factor crit.
Proof.
  intros Hs. unfold _segment.
  rewrite vscale_row_lengths, vscale_length.
  destruct (negb _); [reflexivity|].
  destruct (Nat.eqb (length states) 0); [reflexivity|].
  cbv zeta. rewrite scale_rows_vscale by exact Hs.
  set (S := scale_rows states). set (D := scale_rows data).
  rewrite vscale_length.
  assert (Hl : map (fun x => argmax (map fabs (map (fun s => dot s x)
                                                  (vscale sigma 0 S))))
                   (transpose D)
               = map (fun x => argmax (map fabs (map (fun s => dot s x) S)))
                     (transpose D)).
  { apply map_ext. intros x. now rewrite abs_activation_center_signs. }
  rewrite Hl. rewrite initial_e_center_signs by exact Hs.
  now rewrite segment_loop_center_signs by exact Hs.
Qed.

Lemma predict_segments_center_signs (sigma : nat -> R) (fuel : nat)
    (data centers : matrix R) (h : nat) (factor crit : R)
    (pairs : list (nat * nat)) (segmentation : list nat) :
  (forall k, is_sign (sigma k)) ->
  predict_segments fuel data (vscale sigma 0 centers) h factor crit pairs
    segmentation
  = predict_segments fuel data centers h factor crit pairs segmentation.
Proof.
  intros Hs. revert segmentation.
  induction pairs as [|[onset end_] rest IH]; intros segmentation;
    cbn [predict_segments]; [reflexivity|].
  rewrite segment_center_signs by exact Hs.
  destruct (Nat.leb _ _); [|apply IH].
  destruct (_segment _ _ _ _ _ _) as [[l|e]|]; try reflexivity. apply IH.
Qed.

(** X16. predict ignores the polarity of the centers, exact
    arithmetic: with any of the rows of cluster_centers negated
    (sigma k = -1 negates center k) predict returns the same, with or
    without annotations and for every fuel. *)
Theorem predict_ignores_the_polarity_of_centers :
  forall (sigma : nat -> R) (fuel : nat) (self : @ModKMeans R)
         (centers data : matrix R) (reject_by_annotation : bool)
         (onsets _ends : list nat) (half_window_size : nat) (factor crit : R),
    (forall k, sigma k = 1 \/ sigma k = -1) ->
    cluster_centers self = Some centers ->
    predict fuel (set_cluster_centers self (vscale sigma 0 centers)) data
      reject_by_annotation onsets _ends half_window_size factor crit
    = predict fuel self data reject_by_annotation onsets _ends
        half_window_size factor crit.
Proof.
  intros sigma fuel self centers data rba onsets _ends h factor crit Hs Hc.
  unfold predict, _check_fit.
  cbn [set_cluster_centers current_fit cluster_centers].
  rewrite Hc.
  destruct (current_fit self); [reflexivity| | |];
    (destruct rba;
     [destruct (Nat.eqb (length onsets) 0);
      [apply segment_center_signs; exact Hs
      |cbv zeta; apply predict_segments_center_signs; exact Hs]
     |apply segment_center_signs; exact Hs]).
Qed.

Lemma predict_ignores_the_polarity_of_centers_witness :
  predict 5
    (set_cluster_centers
       (mkModKMeans 1 fit_Raw (Some [[1; 0]]) (Some 1) (Some []) (RS_int 0)
          1 0 (1 / 1000000) None)
       (vscale (flip_at 0) 0 [[1; 0]]))
    [[1; 2]; [0; 1]] true [] [] 3 0 (1 / 100000)
  = predict 5
      (mkModKMeans 1 fit_Raw (Some [[1; 0]]) (Some 1) (Some []) (RS_int 0)
         1 0 (1 / 1000000) None)
      [[1; 2]; [0; 1]] true [] [] 3 0 (1 / 100000).
Proof.
  apply (@predict_ignores_the_polarity_of_centers (flip_at 0) 5%nat
           (mkModKMeans 1 fit_Raw (Some [[1; 0]]) (Some 1) (Some []) (RS_int 0)
              1 0 (1 / 1000000) None)
           [[1; 0]]).
  - intros k. apply flip_at_sign.
  - reflexivity.
Defined.

(** ** Without smoothing the window does not matter *)

Lemma relabel_without_smoothing (states : matrix R) (samples : list (list R))
    (Vvar : list R) (Ne h h' : nat) (e : R) (w w' : matrix R) :
  length w = length states -> length w' = length states ->
  relabel states samples Vvar Ne h 0 e w
  = relabel states samples Vvar Ne h' 0 e w'.
Proof.
  intros Hw Hw'. unfold relabel. apply map_ext. intros [t [v x]].
  f_equal. clear - Hw Hw'.
  revert w w' Hw Hw'.
  induction states as [|s states IH]; intros [|r w] [|r' w'] Hw Hw';
    simpl in *; try discriminate; [reflexivity|].
  f_equal; [lra|]. apply IH; lia.
Qed.

Lemma segment_loop_without_smoothing (fuel : nat) (states : matrix R)
    (samples : list (list R)) (Vvar : list R) (Nt Ne h h' : nat)
    (crit e : R) (w : matrix R) (S0 : R) :
  length w = length states ->
  segment_loop fuel states samples Vvar Nt Ne h 0 crit e w S0
  = segment_loop fuel states samples Vvar Nt Ne h' 0 crit e w S0.
Proof.
  revert w S0. induction fuel as [|n IH]; intros w S0 Hw; [reflexivity|].
  cbn [segment_loop].
  rewrite (@relabel_without_smoothing states samples Vvar Ne h h' e w w Hw Hw).
  destruct (fleb _ _); [reflexivity|].
  apply IH. apply one_hot_length.
Qed.

(** X23. Without smoothing (factor = 0, exact arithmetic) _segment does
    not depend on half_window_size: the window only enters the scores
    through factor * Nb. *)
Theorem segment_without_smoothing_ignores_the_window :
  forall (fuel : nat) (data states : matrix R) (h h' : nat) (crit : R),
    _segment fuel data states h 0 crit = _segment fuel data states h' 0 crit.
Proof.
  intros fuel data states h h' crit. unfold _segment.
  destruct (negb _); [reflexivity|].
  destruct (Nat.eqb (length states) 0); [reflexivity|]. cbv zeta.
  rewrite (@segment_loop_without_smoothing fuel _ _ _ _ _ h h').
  - reflexivity.
  - apply one_hot_length.
Qed.

Close Scope R_scope.
